(** * Hybrid circuit partitioner (partitioner.py): shallow embedding

    The development follows [partition_P1/partitioner.py]: the graph helpers
    [_calculate_cut_size], [_get_io_for_partition], [_find_adjacent_partitions]
    and the three phases of [hybrid_partitioner] (coarse clustering,
    Kernighan-Lin refinement of adjacent pairs, greedy I/O balancing).  The
    netlist reader of [verilogParser_P0/verilog_to_graph.py], which builds
    the graphs the partitioner is run on, is modelled after it.

    Modelling choices.
    - A node id is a string.  A [networkx.DiGraph] is its node list (insertion
      order, no repetition) and its edge list (each ordered pair at most once,
      end points among the nodes).
    - A Python [set] is a [gset]; a [dict] is a [gmap]; the partition list is
      a [list (gset node)] indexed from 0.
    - Iterating over a Python set visits its members once each, in an order
      the language does not fix.  The order is a parameter of the model
      ([SetIter]): the general theorems hold for every iteration order, the
      evaluations on explicit inputs name the order they use.
    - A raised exception ([KeyError], [IndexError], [ZeroDivisionError],
      [NetworkXError], an exception of a library routine) is the result
      [None] of the option monad.
    - [SpectralClustering.fit_predict] (scikit-learn) and
      [kernighan_lin_bisection] (networkx) are library code: they are
      parameters, constrained only by what is known of them.  [fit_predict]
      may raise: it is a partial function.
    - [io_balance_alpha] and the gains computed from it are Python floats,
      that is IEEE 754 binary64 numbers.  Their arithmetic is the Standard
      Library's specification of binary floating point ([SpecFloat]), bit for
      bit. *)

From Stdlib Require Import ZArith Ascii SpecFloat.
From stdpp Require Import gmap strings list fin_maps sorting.

Local Open Scope Z_scope.

Set Default Proof Using "Type".
Set Warnings "-clear-no-such-hyp".

(** ** Data model *)

Abbreviation node := string.

Record DiGraph := mkDiGraph {
  nodes : list node;
  edges : list (node * node)
}.

(** What networkx guarantees of any [DiGraph] object. *)
Definition wf_graph (g : DiGraph) : Prop :=
  NoDup (nodes g) ∧ NoDup (edges g) ∧
  ∀ u v, (u, v) ∈ edges g → u ∈ nodes g ∧ v ∈ nodes g.

Definition number_of_nodes (g : DiGraph) : nat := length (nodes g).

Definition has_edge (g : DiGraph) (u v : node) : bool :=
  bool_decide ((u, v) ∈ edges g).

Definition predecessors (g : DiGraph) (n : node) : list node :=
  (filter (λ e, e.2 = n) (edges g)).*1.

Definition successors (g : DiGraph) (n : node) : list node :=
  (filter (λ e, e.1 = n) (edges g)).*2.

(** [nx.all_neighbors]: predecessors chained with successors. *)
Definition all_neighbors (g : DiGraph) (n : node) : list node :=
  predecessors g n ++ successors g n.

(** Iteration order of a Python set. *)
Class SetIter (A : Type) `{Countable A} := {
  iter : gset A → list A;
  iter_perm : ∀ s, iter s ≡ₚ elements s
}.

(** The partition list together with the reverse index. *)
Record IOState := mkIOState {
  partitions : list (gset node);
  node_to_partition : gmap node nat
}.

(** Monadic left fold: a [for] loop whose body may raise. *)
Fixpoint foldM {A B : Type} (f : B → A → option B) (b : B) (l : list A)
  : option B :=
  match l with
  | [] => Some b
  | x :: l' => match f b x with
               | Some b' => foldM f b' l'
               | None => None
               end
  end.

(** ** Python floats

    A Python [float] is an IEEE 754 binary64 number: precision 53, infinities
    at exponent 1024, rounding to nearest with ties to even.  A value of
    [spec_float] is a signed zero, a signed infinity, a NaN, or a finite
    number [(-1)^s * m * 2^e]. *)

Abbreviation float := spec_float.

(** Conversion of a Python [int] in mixed arithmetic.  (An [int] beyond the
    range of a double raises [OverflowError] in Python; the integers
    converted below are differences of node and edge counts of a graph, which
    stay far below that range.) *)
Definition float_of_int (z : Z) : float := binary_normalize 53 1024 z 0 false.

Definition float_mul : float → float → float := SFmul 53 1024.
Definition float_add : float → float → float := SFadd 53 1024.

(** [x > y] and [x == y]: false when an operand is a NaN. *)
Definition float_gt (x y : float) : bool := SFltb y x.
Definition float_eq (x y : float) : bool := SFeqb x y.

Definition float_zero : float := S754_zero false.
Definition float_neg_inf : float := S754_infinity true.

Section Partitioner.

Context `{!SetIter node} `{!SetIter nat} `{!SetIter (nat * nat)}.

(** [{node: i for i, p in enumerate(partitions) for node in p}] *)
Definition index_partitions (ps : list (gset node)) : gmap node nat :=
  foldl (λ m ip, foldl (λ m' n, <[n := ip.1]> m') m (iter ip.2))
        ∅ (imap pair ps).

Definition _calculate_cut_size (g : DiGraph) (ps : list (gset node)) : Z :=
  let node_to_partition := index_partitions ps in
  foldl (λ cut_size e,
           if decide (node_to_partition !! e.1 ≠ node_to_partition !! e.2)
           then cut_size + 1 else cut_size)
        0 (edges g).

(** [graph.predecessors(node)] and [graph.successors(node)] raise
    [NetworkXError] for a node that is not in the graph. *)
Definition _get_io_for_partition (g : DiGraph) (partition_nodes : gset node)
  : option (Z * Z) :=
  io ← foldM (λ acc n,
                if decide (n ∈ nodes g) then
                  let inputs :=
                    foldl (λ s pred, if decide (pred ∉ partition_nodes)
                                     then s ∪ {[pred]} else s)
                          acc.1 (predecessors g n) in
                  let outputs :=
                    foldl (λ s succ, if decide (succ ∉ partition_nodes)
                                     then s ∪ {[succ]} else s)
                          acc.2 (successors g n) in
                  Some (inputs, outputs)
                else None)
             ((∅ : gset node), (∅ : gset node)) (iter partition_nodes);
  Some (Z.of_nat (size io.1), Z.of_nat (size io.2)).

(** [any(...)] over [itertools.product(part_A, part_B)]. *)
Definition is_adjacent (g : DiGraph) (part_A part_B : gset node) : bool :=
  existsb (λ uv, has_edge g uv.1 uv.2 || has_edge g uv.2 uv.1)
          (list_prod (iter part_A) (iter part_B)).

Definition _find_adjacent_partitions (g : DiGraph) (ps : list (gset node))
  : list (nat * nat) :=
  let adj_pairs :=
    foldl (λ acc iA,
             foldl (λ acc' jB,
                      if (jB.1 <=? iA.1)%nat then acc'
                      else if is_adjacent g iA.2 jB.2
                           then acc' ∪ {[ (iA.1, jB.1) ]} else acc')
                   acc (imap pair ps))
          (∅ : gset (nat * nat)) (imap pair ps) in
  iter adj_pairs.

(** Number of node pairs that [any] draws from [itertools.product] before it
    stops (at the first pair joined by an edge, or at the end). *)
Fixpoint pairs_drawn (g : DiGraph) (l : list (node * node)) : nat :=
  match l with
  | [] => 0
  | uv :: l' => if has_edge g uv.1 uv.2 || has_edge g uv.2 uv.1
                then 1 else S (pairs_drawn g l')
  end.

(** The work of [_find_adjacent_partitions]: node pairs examined over the
    whole double loop. *)
Definition _find_adjacent_partitions_work (g : DiGraph)
  (ps : list (gset node)) : nat :=
  foldl (λ acc iA,
           foldl (λ acc' jB,
                    if (jB.1 <=? iA.1)%nat then acc'
                    else (acc' + pairs_drawn g
                            (list_prod (iter iA.2) (iter jB.2)))%nat)
                 acc (imap pair ps))
        0%nat (imap pair ps).

(** The algorithm the specification asks for, written from its words: one
    pass over the edges, looking up the partition index of each end point and
    recording the (unordered) pair when the two differ. *)
Definition adjacent_by_edge_pass (g : DiGraph) (ps : list (gset node))
  : gset (nat * nat) :=
  let idx := index_partitions ps in
  foldl (λ acc e,
           match idx !! e.1, idx !! e.2 with
           | Some i, Some j =>
               if decide (i = j) then acc
               else acc ∪ {[ (i `min` j, i `max` j)%nat ]}
           | _, _ => acc
           end)
        ∅ (edges g).

(** ** The three phases *)

(** Library code, as parameters.  [fit_predict g k] stands for
    [SpectralClustering(n_clusters=k, ...).fit_predict(adj_matrix)] on the
    adjacency matrix of [g]; [None] is an exception raised by the call. *)
Variable fit_predict : DiGraph → nat → option (list nat).
Variable kernighan_lin_bisection : DiGraph → Z → gset node * gset node.

(** [math.ceil(num_nodes / target_partition_size)], on exact integers. *)
Definition ceil_div (n t : Z) : Z := - ((- n) `div` t).

(** [for i, node in enumerate(node_list): partitions[labels[i]].add(node)] *)
Definition assign_labels (k : nat) (node_list : list node)
  (labels : list nat) : option (list (gset node)) :=
  foldM (λ ps inode,
           l ← labels !! inode.1;
           p ← ps !! l;
           Some (<[l := p ∪ {[ inode.2 ]}]> ps))
        (replicate k ∅) (imap pair node_list).

(** [graph.subgraph(ns)]: the nodes of [g] among [ns], the edges of [g]
    between them.  networkx keeps the nodes of [ns] that are in the graph as
    a set, and visits the nodes of the subgraph in the order of that set when
    it holds fewer than half of the nodes of the graph, in the order of the
    graph otherwise. *)
Definition subgraph (g : DiGraph) (ns : list node) : DiGraph :=
  let induced_nodes : gset node :=
    list_to_set (filter (λ n, n ∈ nodes g) ns) in
  {| nodes := if decide (2 * size induced_nodes < number_of_nodes g)%nat
              then iter induced_nodes
              else filter (λ n, n ∈ induced_nodes) (nodes g);
     edges := filter (λ e, e.1 ∈ ns ∧ e.2 ∈ ns) (edges g) |}.

(** [to_undirected()]: every edge in both directions, each once. *)
Definition to_undirected (g : DiGraph) : DiGraph :=
  {| nodes := nodes g;
     edges := remove_dups (edges g ++ (prod_swap <$> edges g)) |}.

Definition refine_pair (g : DiGraph) (kl_max_iter : Z)
  (ps : list (gset node)) (ij : nat * nat) : option (list (gset node)) :=
  part_A ← ps !! ij.1;
  part_B ← ps !! ij.2;
  let subgraph_nodes := iter (part_A ∪ part_B) in
  let sg := to_undirected (subgraph g subgraph_nodes) in
  let refined := kernighan_lin_bisection sg kl_max_iter in
  Some (<[ij.2 := refined.2]> (<[ij.1 := refined.1]> ps)).

Definition kl_refine (g : DiGraph) (kl_max_iter : Z)
  (ps : list (gset node)) (adjacent_pairs : list (nat * nat))
  : option (list (gset node)) :=
  foldM (refine_pair g kl_max_iter) ps adjacent_pairs.

(** *** I/O balancing *)

Record Move := mkMove {
  move_node : node;
  target_partition : nat;
  cost_improvement : float
}.

Definition boundary_nodes (g : DiGraph) (n2p : gmap node nat) : gset node :=
  list_to_set
    (flat_map (λ e, if decide (n2p !! e.1 ≠ n2p !! e.2)
                    then [e.1; e.2] else [])
              (edges g)).

Definition neighbor_partitions (g : DiGraph) (n2p : gmap node nat)
  (n : node) : gset nat :=
  list_to_set (omap (λ neighbor, n2p !! neighbor) (all_neighbors g n)).

Definition cut_gain (g : DiGraph) (n2p : gmap node nat) (n : node)
  (current_part_idx target_part_idx : nat) : Z :=
  foldl (λ gain neighbor,
           match n2p !! neighbor with
           | None => gain
           | Some neighbor_part_idx =>
               if decide (neighbor_part_idx = current_part_idx) then gain - 1
               else if decide (neighbor_part_idx = target_part_idx)
                    then gain + 1 else gain
           end)
        0 (all_neighbors g n).

Definition io_gain (g : DiGraph) (ps : list (gset node)) (n : node)
  (current_part_idx target_part_idx : nat) : option Z :=
  io ← foldM (λ io part_idx,
                nodes_before ← ps !! part_idx;
                let nodes_after :=
                  if decide (part_idx = current_part_idx)
                  then nodes_before ∖ {[ n ]} else nodes_before ∪ {[ n ]} in
                before ← _get_io_for_partition g nodes_before;
                after ← _get_io_for_partition g nodes_after;
                Some (io.1 + Z.abs (before.1 - before.2),
                      io.2 + Z.abs (after.1 - after.2)))
             (0, 0) (iter ({[ current_part_idx; target_part_idx ]} : gset nat));
  Some (io.1 - io.2).

(** [total_gain = cut_gain + io_balance_alpha * io_gain]: the two integers
    are converted, the product and the sum are rounded. *)
Definition total_gain (g : DiGraph) (io_balance_alpha : float) (st : IOState)
  (n : node) (current_part_idx target_part_idx : nat) : option float :=
  iog ← io_gain g (partitions st) n current_part_idx target_part_idx;
  Some (float_add
          (float_of_int (cut_gain g (node_to_partition st) n
                           current_part_idx target_part_idx))
          (float_mul io_balance_alpha (float_of_int iog))).

(** [best_move['cost_improvement']]; the initial best move, with node [None]
    and cost [-np.inf], is [None] here. *)
Definition best_cost (best : option Move) : float :=
  match best with
  | None => float_neg_inf
  | Some b => cost_improvement b
  end.

(** [total_gain > best_move['cost_improvement']] *)
Definition improves (gain : float) (best : option Move) : bool :=
  float_gt gain (best_cost best).

Definition scan_targets (g : DiGraph) (io_balance_alpha : float) (st : IOState)
  (n : node) (current_part_idx : nat) (best : option Move)
  (targets : list nat) : option (option Move) :=
  foldM (λ best_move target_part_idx,
           if decide (target_part_idx = current_part_idx) then Some best_move
           else
             gain ← total_gain g io_balance_alpha st n
                      current_part_idx target_part_idx;
             if improves gain best_move
             then Some (Some (mkMove n target_part_idx gain))
             else Some best_move)
        best targets.

Definition scan_moves (g : DiGraph) (io_balance_alpha : float) (st : IOState)
  (boundary : list node) : option (option Move) :=
  foldM (λ best_move n,
           current_part_idx ← node_to_partition st !! n;
           scan_targets g io_balance_alpha st n current_part_idx best_move
             (iter (neighbor_partitions g (node_to_partition st) n)))
        None boundary.

(** [partitions[current_idx].remove(n); partitions[target_idx].add(n);
    node_to_partition[n] = target_idx] *)
Definition apply_move (st : IOState) (mv : Move) : option IOState :=
  let node_to_move := move_node mv in
  let target_idx := target_partition mv in
  current_idx ← node_to_partition st !! node_to_move;
  pc ← partitions st !! current_idx;
  if decide (node_to_move ∈ (pc : gset node)) then
    let ps1 := <[current_idx := pc ∖ {[ node_to_move ]}]> (partitions st) in
    pt ← ps1 !! target_idx;
    Some {| partitions := <[target_idx := pt ∪ {[ node_to_move ]}]> ps1;
            node_to_partition :=
              <[node_to_move := target_idx]> (node_to_partition st) |}
  else None.

(** One pass of the balancing loop: [None] is a raised exception,
    [Some None] a [break], [Some (Some st')] the state after the move. *)
Definition io_pass (g : DiGraph) (io_balance_alpha : float) (st : IOState)
  : option (option IOState) :=
  let boundary := boundary_nodes g (node_to_partition st) in
  if decide (boundary = ∅) then Some None
  else
    best_move ← scan_moves g io_balance_alpha st (iter boundary);
    match best_move with
    | Some mv =>
        if float_gt (cost_improvement mv) float_zero
        then st' ← apply_move st mv; Some (Some st')
        else Some None
    | None => Some None
    end.

(** A run of the balancing loop, with what happened on the way: the number
    of passes started, the state after each applied move, and whether the
    loop left through a [break] rather than by exhausting its range. *)
Record IORun := mkIORun {
  final : IOState;
  passes : nat;
  moves : list IOState;
  stopped_by_break : bool
}.

(** [for iteration in range(MAX_IO_BALANCE_ITERATIONS): ...] *)
Fixpoint io_balance (g : DiGraph) (io_balance_alpha : float)
  (iterations : nat) (st : IOState) : option IORun :=
  match iterations with
  | O => Some (mkIORun st 0 [] false)
  | S iterations' =>
      r ← io_pass g io_balance_alpha st;
      match r with
      | None => Some (mkIORun st 1 [] true)
      | Some st' =>
          run ← io_balance g io_balance_alpha iterations' st';
          Some (mkIORun (final run) (S (passes run)) (st' :: moves run)
                        (stopped_by_break run))
      end
  end.

(** Phases 1 to 3, for [k >= 2]: the partitions after Kernighan-Lin
    refinement and the run of the balancing loop that starts from them. *)
Definition refine_and_balance (g : DiGraph) (k : nat) (kl_max_iter : Z)
  (io_balance_alpha : float) : option (list (gset node) * IORun) :=
  labels ← fit_predict g k;
  ps0 ← assign_labels k (nodes g) labels;
  let adjacent_pairs := _find_adjacent_partitions g ps0 in
  ps1 ← kl_refine g kl_max_iter ps0 adjacent_pairs;
  let n2p := index_partitions ps1 in
  run ← io_balance g io_balance_alpha (number_of_nodes g) (mkIOState ps1 n2p);
  Some (ps1, run).

Definition hybrid_partitioner (g : DiGraph) (target_partition_size : Z)
  (kl_max_iter : Z) (io_balance_alpha : float) : option (list (gset node)) :=
  let num_nodes := number_of_nodes g in
  if decide (num_nodes = 0%nat) then Some []
  else if decide (target_partition_size = 0) then None
  else
    let k := ceil_div (Z.of_nat num_nodes) target_partition_size in
    if decide (k < 2) then Some [list_to_set (nodes g)]
    else
      r ← refine_and_balance g (Z.to_nat k) kl_max_iter io_balance_alpha;
      Some (filter (λ p, p ≠ ∅) (partitions (final r.2))).

(** ** Auxiliary notions for the proofs *)

Definition sumZ (l : list Z) : Z := foldr Z.add 0 l.

(** The cut size read off a node-to-partition index. *)
Definition cut_edge (m : gmap node nat) (e : node * node) : Z :=
  if decide (m !! e.1 = m !! e.2) then 0 else 1.

Definition cut_of_index (g : DiGraph) (m : gmap node nat) : Z :=
  sumZ (cut_edge m <$> edges g).

(** What one neighbour contributes to [cut_gain]. *)
Definition gain_of (m : gmap node nat) (c t : nat) (neighbor : node) : Z :=
  match m !! neighbor with
  | None => 0
  | Some p => if decide (p = c) then -1 else if decide (p = t) then 1 else 0
  end.

(** Number of self-loops on [n] (0 or 1 in a well-formed graph). *)
Definition self_loops (g : DiGraph) (n : node) : Z :=
  Z.of_nat (length (filter (λ e, e = (n, n)) (edges g))).

(** [n] sits in partition [c] and may move to [t]: the moves that the
    balancing pass evaluates. *)
Definition candidate (g : DiGraph) (st : IOState) (n : node) (c t : nat)
  : Prop :=
  n ∈ boundary_nodes g (node_to_partition st) ∧
  node_to_partition st !! n = Some c ∧
  t ∈ neighbor_partitions g (node_to_partition st) n ∧
  t ≠ c.

(** A move the pass may record: a candidate, with its gain as its cost. *)
Definition valid_move (g : DiGraph) (io_balance_alpha : float) (st : IOState)
  (mv : Move) : Prop :=
  ∃ c, candidate g st (move_node mv) c (target_partition mv) ∧
       total_gain g io_balance_alpha st (move_node mv) c (target_partition mv)
       = Some (cost_improvement mv).

(** A move of gain [q] would not replace the best move so far. *)
Definition dominates (best : option Move) (q : float) : Prop :=
  improves q best = false.

(** A key that orders the floats other than NaN as their comparison does:
    by sign, then exponent, then mantissa. *)
Definition float_key (x : float) : Z * Z * Z :=
  match x with
  | S754_infinity true => (-2, 0, 0)
  | S754_finite true m e => (-1, - e, - Z.pos m)
  | S754_zero _ | S754_nan => (0, 0, 0)
  | S754_finite false m e => (1, e, Z.pos m)
  | S754_infinity false => (2, 0, 0)
  end.

Definition key_lt (a b : Z * Z * Z) : Prop :=
  a.1.1 < b.1.1 ∨
  (a.1.1 = b.1.1 ∧ (a.1.2 < b.1.2 ∨ (a.1.2 = b.1.2 ∧ a.2 < b.2))).

(** ** Invariants of the shared state *)

Definition pairwise_disjoint (ps : list (gset node)) : Prop :=
  ∀ i j p q, i ≠ j → ps !! i = Some p → ps !! j = Some q → p ## q.

(** Every graph node lies in some partition, and only graph nodes do. *)
Definition covers (g : DiGraph) (ps : list (gset node)) : Prop :=
  ⋃ ps = list_to_set (nodes g).

(** The reverse index agrees with the partition list. *)
Definition consistent (st : IOState) : Prop :=
  ∀ n i, node_to_partition st !! n = Some i ↔
         ∃ p, partitions st !! i = Some p ∧ n ∈ p.

(** What the balancing loop maintains: the index is consistent and its keys
    are the graph nodes. *)
Definition io_inv (g : DiGraph) (st : IOState) : Prop :=
  consistent st ∧ dom (node_to_partition st) = list_to_set (nodes g).

(** What the refinement phase maintains. *)
Definition part_inv (g : DiGraph) (ps : list (gset node)) : Prop :=
  pairwise_disjoint ps ∧ covers g ps.

End Partitioner.

(** * Concrete iteration orders, library stand-ins and graphs

    Used only to evaluate the model on explicit inputs. *)

Definition str_le (a b : string) : Prop := String.leb a b = true.

#[global] Instance str_le_dec a b : Decision (str_le a b) :=
  decide (String.leb a b = true).

Definition pair_le (a b : nat * nat) : Prop :=
  (a.1 < b.1 ∨ (a.1 = b.1 ∧ a.2 ≤ b.2))%nat.

#[global] Instance pair_le_dec a b : Decision (pair_le a b).
Proof. unfold pair_le. apply _. Defined.

(** Node sets visited in alphabetical order. *)
Definition iter_ascending : SetIter node :=
  {| iter s := merge_sort str_le (elements s);
     iter_perm s := merge_sort_Permutation str_le (elements s) |}.

(** Node sets visited in reverse alphabetical order. *)
Definition iter_descending : SetIter node :=
  {| iter s := merge_sort (flip str_le) (elements s);
     iter_perm s := merge_sort_Permutation (flip str_le) (elements s) |}.

Definition iter_nat : SetIter nat :=
  {| iter s := merge_sort le (elements s);
     iter_perm s := merge_sort_Permutation le (elements s) |}.

Definition iter_pair : SetIter (nat * nat) :=
  {| iter s := merge_sort pair_le (elements s);
     iter_perm s := merge_sort_Permutation pair_le (elements s) |}.

(** A clustering that labels the nodes in consecutive blocks of equal size.
    As the library routine does, it raises when asked for as many clusters as
    there are nodes, or more. *)
Definition block_labels (g : DiGraph) (k : nat) : option (list nat) :=
  if decide (k < length (nodes g))%nat
  then Some (imap (λ i _, (i * k / length (nodes g))%nat) (nodes g))
  else None.

(** The double nearest to 0.1, the default [io_balance_alpha]. *)
Definition one_tenth : float :=
  SFdiv 53 1024 (float_of_int 1) (float_of_int 10).

(** A bisection that keeps the first half of the node list on one side. *)
Definition halves (sg : DiGraph) (max_iter : Z) : gset node * gset node :=
  let h := (length (nodes sg) / 2)%nat in
  (list_to_set (take h (nodes sg)),
   list_to_set (nodes sg) ∖ list_to_set (take h (nodes sg))).

(** The path [a - b - u = v - c - d]; the middle link runs both ways. *)
Definition chain_graph : DiGraph :=
  mkDiGraph ["a"; "b"; "u"; "v"; "c"; "d"]%string
            [("a", "b"); ("b", "u"); ("u", "v"); ("v", "u"); ("c", "v");
             ("d", "c")]%string.

(** Its two halves: the balanced bisection of smallest cut. *)
Definition chain_parts : list (gset node) :=
  [{[ "a"; "b"; "u" ]}; {[ "v"; "c"; "d" ]}]%string.

(** The same path with an edge from [u] to itself, and the two halves that
    the refinement phase leaves of it for a target size of 3. *)
Definition chain_loop_graph : DiGraph :=
  mkDiGraph (nodes chain_graph) (edges chain_graph ++ [("u", "u")]%string).

Definition chain_loop_parts : list (gset node) :=
  [{[ "c"; "d"; "v" ]}; {[ "a"; "b"; "u" ]}]%string.

Definition unconnected_graph : DiGraph :=
  mkDiGraph ["a"; "b"; "c"; "d"]%string [].

Definition single_node_graph : DiGraph := mkDiGraph ["a"]%string [].

(** The partitioner and the balancing loop run with a given iteration order
    of node sets. *)
Definition partition_with (order : SetIter node) :
  DiGraph → Z → Z → float → option (list (gset node)) :=
  @hybrid_partitioner order iter_nat iter_pair block_labels halves.

Definition balance_with (order : SetIter node) (g : DiGraph) (alpha : float)
  (iterations : nat) (ps : list (gset node)) : option IORun :=
  @io_balance order iter_nat g alpha iterations
    (mkIOState ps (@index_partitions order ps)).

(** * Further notions used to state properties of the helpers *)

(** Nodes outside [P] with an edge into [P], and nodes outside [P] reached
    by an edge from [P]. *)
Definition external_predecessors (g : DiGraph) (P : gset node) : gset node :=
  list_to_set ((filter (λ e, (e.1 ∉ P) ∧ (e.2 ∈ P)) (edges g)).*1).

Definition external_successors (g : DiGraph) (P : gset node) : gset node :=
  list_to_set ((filter (λ e, (e.1 ∈ P) ∧ (e.2 ∉ P)) (edges g)).*2).

(** The two end points of [e] lie together in one member of [ps]. *)
Definition same_partition (ps : list (gset node)) (e : node * node) : Prop :=
  Exists (λ p, e.1 ∈ p ∧ e.2 ∈ p) ps.

(** Total number of nodes held by a partition list. *)
Definition total_size (ps : list (gset node)) : nat :=
  foldr (λ p acc, (size p + acc)%nat) 0%nat ps.

(** [u] lies in no member of [ps]. *)
Definition unassigned (ps : list (gset node)) (u : node) : Prop :=
  Forall (λ p, u ∉ p) ps.

(** * Netlist reader (verilogParser_P0/verilog_to_graph.py)

    [create_graph_from_verilog] reads a file, scans it with four regular
    expressions and builds a [networkx.DiGraph] from the matches.  Reading
    the file and the regular expression engine are outside the model: the
    function below takes the groups of the successive matches of each
    pattern, in the order [re.finditer] yields them.  [str.split] is
    modelled; [str.strip] is a parameter. *)

(** A [networkx.DiGraph] together with its node attribute dictionaries.  The
    node list is in insertion order; the edge list is kept in insertion order
    as well (networkx enumerates the edges grouped by source node, a
    permutation of it). *)
Record NxGraph := mkNxGraph {
  topology : DiGraph;
  node_data : gmap node (gmap string string)
}.

(** [nx.DiGraph()] *)
Definition new_graph : NxGraph := mkNxGraph (mkDiGraph [] []) ∅.

Definition has_node (G : NxGraph) (n : node) : bool :=
  bool_decide (is_Some (node_data G !! n)).

(** [G.add_node(n, **attr)]: a new node is appended with these attributes,
    the attributes of a node already present are updated. *)
Definition add_node (G : NxGraph) (n : node) (attr : gmap string string)
  : NxGraph :=
  match node_data G !! n with
  | None =>
      mkNxGraph (mkDiGraph (nodes (topology G) ++ [n]) (edges (topology G)))
                (<[n := attr]> (node_data G))
  | Some old => mkNxGraph (topology G) (<[n := attr ∪ old]> (node_data G))
  end.

(** [G.nodes[n][key] = value], for a node that is present. *)
Definition set_node_attr (G : NxGraph) (n : node) (key value : string)
  : NxGraph :=
  mkNxGraph (topology G) (alter (λ d, <[key := value]> d) n (node_data G)).

(** [G.add_edge(u, v)]: end points that are missing are added first. *)
Definition add_edge (G : NxGraph) (u v : node) : NxGraph :=
  let G1 := if has_node G u then G else add_node G u ∅ in
  let G2 := if has_node G1 v then G1 else add_node G1 v ∅ in
  mkNxGraph
    (mkDiGraph (nodes (topology G2))
       (if has_edge (topology G2) u v then edges (topology G2)
        else edges (topology G2) ++ [(u, v)]))
    (node_data G2).

(** [s.split(sep)] for a separator of one character. *)
Fixpoint split_on (sep : Ascii.ascii) (s : string) : list string :=
  match s with
  | EmptyString => [EmptyString]
  | String c s' =>
      if decide (c = sep) then EmptyString :: split_on sep s'
      else match split_on sep s' with
           | piece :: pieces => String c piece :: pieces
           | [] => [String c EmptyString]
           end
  end.

(** What the gate pattern captures: [(gate_type, instance_name,
    connections_str)]. *)
Record GateMatch := mkGateMatch {
  gate_type : string;
  instance_name : string;
  connections_str : string
}.

Section Reader.

Variable strip : string → string.

(** [[s.strip() for s in group.split(',') if s.strip()]] *)
Definition signal_names (group : string) : list string :=
  filter (λ s, s ≠ ""%string) (strip <$> split_on ","%char group).

(** [[c.strip() for c in connections_str.split(',')]] *)
Definition connections (m : GateMatch) : list string :=
  strip <$> split_on ","%char (connections_str m).

Definition declare_input (G : NxGraph) (signal : string) : NxGraph :=
  add_node G signal {[ "type"%string := "PI"%string ]}.

Definition declare_output (G : NxGraph) (signal : string) : NxGraph :=
  if has_node G signal then set_node_attr G signal "type" "PO"
  else add_node G signal {[ "type"%string := "PO"%string ]}.

(** [if not G.has_node(signal): G.add_node(signal, type='wire')] *)
Definition declare_wire (G : NxGraph) (signal : string) : NxGraph :=
  if has_node G signal then G
  else add_node G signal {[ "type"%string := "wire"%string ]}.

Definition add_gate (G : NxGraph) (m : GateMatch) : option NxGraph :=
  let G := add_node G (instance_name m)
             {[ "type"%string := "gate"%string;
                "func"%string := gate_type m ]} in
  let connections := connections m in
  output_signal ← connections !! 0%nat;
  let input_signals := drop 1 connections in
  let G := declare_wire G output_signal in
  let G := add_edge G (instance_name m) output_signal in
  Some (foldl (λ G input_signal,
                 add_edge (declare_wire G input_signal)
                          input_signal (instance_name m))
              G input_signals).

Definition create_graph_from_verilog
  (input_groups output_groups wire_groups : list string)
  (gates : list GateMatch) : option NxGraph :=
  let G := new_graph in
  let G := foldl (λ G group, foldl declare_input G (signal_names group))
                 G input_groups in
  let G := foldl (λ G group, foldl declare_output G (signal_names group))
                 G output_groups in
  let G := foldl (λ G group, foldl declare_wire G (signal_names group))
                 G wire_groups in
  foldM add_gate G gates.

(** All the signals of the matches of one declaration pattern. *)
Definition declared (groups : list string) : list string :=
  concat (signal_names <$> groups).

(** The type the declarations give a signal that is no gate instance. *)
Definition declared_type (input_groups output_groups : list string)
  (n : node) : string :=
  if decide (n ∈ declared output_groups) then "PO"
  else if decide (n ∈ declared input_groups) then "PI"
  else "wire".

(** The connection names of all gates. *)
Definition all_connections (gates : list GateMatch) : list string :=
  concat (connections <$> gates).

End Reader.

Definition instances (gates : list GateMatch) : list string :=
  instance_name <$> gates.

(** The last gate match that carries the instance name [n]. *)
Definition last_instance (gates : list GateMatch) (n : node)
  : option GateMatch :=
  last (filter (λ m, instance_name m = n) gates).

Definition node_type (G : NxGraph) (n : node) : option string :=
  d ← node_data G !! n; d !! "type"%string.

Definition node_func (G : NxGraph) (n : node) : option string :=
  d ← node_data G !! n; d !! "func"%string.

(** What networkx maintains: the topology is well formed and the nodes are
    the keys of the attribute dictionaries. *)
Definition nx_wf (G : NxGraph) : Prop :=
  wf_graph (topology G) ∧
  ∀ n, n ∈ nodes (topology G) ↔ is_Some (node_data G !! n).

(** A declaration step that gives its signal the type [t], whatever the
    signal was before. *)
Definition retypes (t : string) (f : NxGraph → string → NxGraph) : Prop :=
  ∀ G s, nx_wf G →
    nx_wf (f G s) ∧
    (∀ x, x ∈ nodes (topology (f G s)) ↔ x = s ∨ x ∈ nodes (topology G)) ∧
    edges (topology (f G s)) = edges (topology G) ∧
    (∀ x, node_type (f G s) x
          = if decide (x = s) then Some t else node_type G x) ∧
    (∀ x, node_func (f G s) x = node_func G x).

(** A [str.strip] for text whose characters are code points below 256: it
    removes the characters for which [str.isspace] holds there. *)
Definition is_blank (c : Ascii.ascii) : bool :=
  bool_decide (c ∈ [" "; "009"; "010"; "011"; "012"; "013"; "028"; "029";
                    "030"; "031"; "133"; "160"]%char).

Fixpoint drop_blanks (l : list Ascii.ascii) : list Ascii.ascii :=
  match l with
  | c :: l' => if is_blank c then drop_blanks l' else l
  | [] => []
  end.

Definition strip_ascii (s : string) : string :=
  String.string_of_list_ascii
    (reverse (drop_blanks (reverse (drop_blanks (String.list_ascii_of_string s))))).

(** A small netlist: two inputs, one output, one wire, two gates. *)
Definition half_adder_gates : list GateMatch :=
  [mkGateMatch "xor" "g1" "s, a, b"; mkGateMatch "and" "g2" " c ,a,b "]%string.

Definition half_adder : option NxGraph :=
  create_graph_from_verilog strip_ascii ["a, b"]%string ["s, c"]%string
    ["w"]%string half_adder_gates.

(** * Proofs *)

Section Proofs.

Context `{!SetIter node} `{!SetIter nat} `{!SetIter (nat * nat)}.

(** ** Basic facts *)

Lemma elem_of_iter `{Countable A} `{!SetIter A} (s : gset A) x :
  x ∈ iter s ↔ x ∈ s.
Proof. rewrite (iter_perm s). apply elem_of_elements. Qed.

Lemma NoDup_iter `{Countable A} `{!SetIter A} (s : gset A) : NoDup (iter s).
Proof. rewrite (iter_perm s). apply NoDup_elements. Qed.

Lemma foldM_app {A B} (f : B → A → option B) b l1 l2 :
  foldM f b (l1 ++ l2) = foldM f b l1 ≫= λ b', foldM f b' l2.
Proof.
  revert b. induction l1 as [|x l1 IH]; intros b; simpl; [done|].
  destruct (f b x); simpl; [apply IH | done].
Qed.

(** A loop invariant indexed by the part of the list already visited; the
    body is shown not to raise. *)
Lemma foldM_total {A B} (f : B → A → option B) (I : list A → B → Prop) l b :
  I [] b →
  (∀ l1 x l2 b1, l = l1 ++ x :: l2 → I l1 b1 →
                 ∃ b2, f b1 x = Some b2 ∧ I (l1 ++ [x]) b2) →
  ∃ b', foldM f b l = Some b' ∧ I l b'.
Proof.
  intros H0 Hstep.
  induction l as [|x l IH] using rev_ind; [by exists b|].
  destruct IH as [b1 [Hb1 HI]].
  { intros l1 y l2 c1 -> HI. eapply (Hstep l1 y (l2 ++ [x])); [|done].
    by rewrite <- app_assoc. }
  destruct (Hstep l x [] b1) as [b2 [Hb2 HI2]]; [done..|].
  exists b2. rewrite foldM_app, Hb1. simpl. by rewrite Hb2.
Qed.

Lemma lookup_insert_all (i : nat) (l : list node) (m : gmap node nat) x :
  foldl (λ m' n, <[n := i]> m') m l !! x
  = if decide (x ∈ l) then Some i else m !! x.
Proof.
  revert m. induction l as [|a l IH]; intros m; cbn [foldl].
  - case_decide; [set_solver | done].
  - rewrite IH. destruct (decide (x = a)) as [->|Hne].
    + rewrite lookup_insert_eq.
      repeat case_decide; try done; exfalso; set_solver.
    + rewrite lookup_insert_ne by done.
      repeat case_decide; try done; exfalso; set_solver.
Qed.

Lemma index_partitions_snoc ps p x :
  index_partitions (ps ++ [p]) !! x =
    if decide (x ∈ p) then Some (length ps) else index_partitions ps !! x.
Proof.
  unfold index_partitions. rewrite imap_app, foldl_app. simpl.
  rewrite lookup_insert_all, Nat.add_0_r.
  repeat case_decide; try done; exfalso; rewrite elem_of_iter in *; done.
Qed.

Lemma index_partitions_Some ps x i :
  index_partitions ps !! x = Some i → ∃ p, ps !! i = Some p ∧ x ∈ p.
Proof.
  induction ps as [|p ps IH] using rev_ind; [done|].
  rewrite index_partitions_snoc. case_decide as Hx.
  - intros [= <-]. exists p. by rewrite list_lookup_middle.
  - intros [q [Hq ?]]%IH. exists q. split; [|done].
    by apply lookup_app_l_Some.
Qed.

Lemma index_partitions_None ps x :
  index_partitions ps !! x = None ↔ ∀ p, p ∈ ps → x ∉ p.
Proof.
  induction ps as [|p ps IH] using rev_ind.
  - split; [intros _ p Hp; by apply elem_of_nil in Hp | done].
  - rewrite index_partitions_snoc. case_decide as Hx.
    + split; [done|]. intros Hall. destruct (Hall p); [set_solver | done].
    + rewrite IH. split; intros Hall q Hq.
      * apply elem_of_app in Hq as [?| ->%list_elem_of_singleton]; auto.
      * apply Hall. set_solver.
Qed.

Lemma index_partitions_disjoint ps x i p :
  pairwise_disjoint ps → ps !! i = Some p → x ∈ p →
  index_partitions ps !! x = Some i.
Proof.
  intros Hdisj Hi Hx.
  destruct (index_partitions ps !! x) as [j|] eqn:Hj.
  - apply index_partitions_Some in Hj as [q [Hq Hxq]].
    destruct (decide (j = i)) as [->|Hne]; [done|].
    specialize (Hdisj j i q p Hne Hq Hi). set_solver.
  - rewrite index_partitions_None in Hj.
    destruct (Hj p); [by eapply list_elem_of_lookup_2 | done].
Qed.

(** The index built from pairwise disjoint partitions agrees with them. *)
Lemma index_partitions_consistent ps :
  pairwise_disjoint ps → consistent (mkIOState ps (index_partitions ps)).
Proof.
  intros Hdisj n i. simpl. split.
  - apply index_partitions_Some.
  - intros [p [Hp Hn]]. by eapply index_partitions_disjoint.
Qed.

Lemma consistent_disjoint st : consistent st → pairwise_disjoint (partitions st).
Proof.
  intros Hc i j p q Hne Hi Hj.
  apply elem_of_disjoint. intros x Hxp Hxq.
  assert (node_to_partition st !! x = Some i) as H1 by (apply Hc; eauto).
  assert (node_to_partition st !! x = Some j) as H2 by (apply Hc; eauto).
  congruence.
Qed.

(** ** The adjacency finder *)

Lemma is_adjacent_true g A B :
  is_adjacent g A B = true ↔
  ∃ u v, u ∈ A ∧ v ∈ B ∧ ((u, v) ∈ edges g ∨ (v, u) ∈ edges g).
Proof.
  unfold is_adjacent, has_edge. rewrite existsb_exists. split.
  - intros [[u v] [[Hu Hv]%in_prod_iff Hb]]. exists u, v.
    rewrite <- !list_elem_of_In, !elem_of_iter in *.
    apply orb_true_iff in Hb as [Hb|Hb]; apply bool_decide_eq_true in Hb; auto.
  - intros (u & v & Hu & Hv & He). exists (u, v). split.
    + apply in_prod_iff. rewrite <- !list_elem_of_In, !elem_of_iter. done.
    + apply orb_true_iff. rewrite !bool_decide_eq_true. done.
Qed.

Lemma adj_inner_spec (g : DiGraph) (i : nat) (A : gset node) (l : list (nat * gset node))
  (acc : gset (nat * nat)) (x : nat * nat) :
  x ∈ foldl (λ acc' jB,
               if (jB.1 <=? i)%nat then acc'
               else if is_adjacent g A jB.2
                    then acc' ∪ {[ (i, jB.1) ]} else acc')
            acc l
  ↔ x ∈ acc ∨ ∃ jB, jB ∈ l ∧ (i < jB.1)%nat
                    ∧ is_adjacent g A jB.2 = true ∧ x = (i, jB.1).
Proof.
  revert acc. induction l as [|a l IH]; intros acc; cbn [foldl].
  - split; [auto|]. intros [?|(? & []%elem_of_nil & _)]. done.
  - rewrite IH. clear IH. destruct (Nat.leb_spec a.1 i) as [Hle|Hlt].
    + split; intros [?|(jB & Hin & Hlt & Hadj & ->)]; auto.
      * right. exists jB. set_solver.
      * apply elem_of_cons in Hin as [->|Hin]; [lia|]. right. by exists jB.
    + destruct (is_adjacent g A a.2) eqn:Hadj.
      * rewrite elem_of_union, elem_of_singleton.
        split; intros [H'|H'].
        -- destruct H' as [?| ->]; [by left|]. right. exists a. set_solver.
        -- destruct H' as (jB & ? & ? & ? & ->). right. exists jB. set_solver.
        -- auto.
        -- destruct H' as (jB & [->|Hin]%elem_of_cons & ? & ? & ->); [auto|].
           right. by exists jB.
      * split; intros [?|(jB & Hin & Hlt' & Hadj' & ->)]; auto.
        -- right. exists jB. set_solver.
        -- apply elem_of_cons in Hin as [->|Hin]; [congruence|].
           right. by exists jB.
Qed.

Lemma adj_outer_spec (g : DiGraph) (l1 l2 : list (nat * gset node))
  (acc : gset (nat * nat)) (x : nat * nat) :
  x ∈ foldl (λ acc iA,
               foldl (λ acc' jB,
                        if (jB.1 <=? iA.1)%nat then acc'
                        else if is_adjacent g iA.2 jB.2
                             then acc' ∪ {[ (iA.1, jB.1) ]} else acc')
                     acc l2)
            acc l1
  ↔ x ∈ acc ∨ ∃ iA jB, iA ∈ l1 ∧ jB ∈ l2 ∧ (iA.1 < jB.1)%nat
                       ∧ is_adjacent g iA.2 jB.2 = true ∧ x = (iA.1, jB.1).
Proof.
  revert acc. induction l1 as [|a l1 IH]; intros acc; cbn [foldl].
  - split; [auto|]. intros [?|(? & ? & []%elem_of_nil & _)]. done.
  - rewrite IH, adj_inner_spec. clear IH. split.
    + intros [[?|(jB & ? & ? & ? & ->)]|(iA & jB & ? & ? & ? & ? & ->)]; auto.
      * right. exists a, jB. set_solver.
      * right. exists iA, jB. set_solver.
    + intros [?|(iA & jB & [->|Hin]%elem_of_cons & ? & ? & ? & ->)]; auto.
      * left. right. by exists jB.
      * right. by exists iA, jB.
Qed.

Lemma elem_of_find_adjacent_partitions g ps i j :
  (i, j) ∈ _find_adjacent_partitions g ps ↔
  (i < j)%nat ∧
  ∃ A B u v, ps !! i = Some A ∧ ps !! j = Some B ∧ u ∈ A ∧ v ∈ B ∧
             ((u, v) ∈ edges g ∨ (v, u) ∈ edges g).
Proof.
  unfold _find_adjacent_partitions. rewrite elem_of_iter, adj_outer_spec.
  split.
  - intros [[]%not_elem_of_empty|(iA & jB & Hi & Hj & Hlt & Hadj & [= -> ->])].
    apply elem_of_lookup_imap in Hi as (i & A & -> & HA).
    apply elem_of_lookup_imap in Hj as (j & B & -> & HB).
    apply is_adjacent_true in Hadj as (u & v & ? & ? & ?).
    split; [done|]. by exists A, B, u, v.
  - intros (Hlt & A & B & u & v & HA & HB & Hu & Hv & He).
    right. exists (i, A), (j, B). rewrite !elem_of_lookup_imap.
    split; [by exists i, A|]. split; [by exists j, B|].
    split; [done|]. split; [|done]. apply is_adjacent_true. by exists u, v.
Qed.

Lemma adjacent_pairs_in_range g ps i j :
  (i, j) ∈ _find_adjacent_partitions g ps →
  i ≠ j ∧ (i < length ps)%nat ∧ (j < length ps)%nat.
Proof.
  intros (Hlt & A & B & _ & _ & HA & HB & _)%elem_of_find_adjacent_partitions.
  apply lookup_lt_Some in HA, HB. lia.
Qed.

Lemma elem_of_adjacent_by_edge_pass g ps x :
  x ∈ adjacent_by_edge_pass g ps ↔
  ∃ e a b, e ∈ edges g ∧ index_partitions ps !! e.1 = Some a ∧
           index_partitions ps !! e.2 = Some b ∧ a ≠ b ∧
           x = (a `min` b, a `max` b)%nat.
Proof.
  unfold adjacent_by_edge_pass.
  generalize (index_partitions ps) as idx. intros idx.
  assert (∀ acc : gset (nat * nat),
    x ∈ foldl (λ acc e,
                 match idx !! e.1, idx !! e.2 with
                 | Some i, Some j =>
                     if decide (i = j) then acc
                     else acc ∪ {[ (i `min` j, i `max` j)%nat ]}
                 | _, _ => acc
                 end) acc (edges g)
    ↔ x ∈ acc ∨ ∃ e a b, e ∈ edges g ∧ idx !! e.1 = Some a ∧
                         idx !! e.2 = Some b ∧ a ≠ b ∧
                         x = (a `min` b, a `max` b)%nat) as Hgen.
  { induction (edges g) as [|e es IH]; intros acc; cbn [foldl].
    - split; [auto|]. intros [?|(? & ? & ? & []%elem_of_nil & _)]. done.
    - rewrite IH. clear IH. split.
      + intros [Hacc|(e' & a & b & ? & ?)].
        * destruct (idx !! e.1) as [a|] eqn:Ha; [|by left].
          destruct (idx !! e.2) as [b|] eqn:Hb; [|by left].
          case_decide; [by left|].
          apply elem_of_union in Hacc as [?| ->%elem_of_singleton]; [by left|].
          right. exists e, a, b. set_solver.
        * right. exists e', a, b. set_solver.
      + intros [?|(e' & a & b & [->|Hin]%elem_of_cons & Ha & Hb & Hne & ->)].
        * left. destruct (idx !! e.1); [|done]. destruct (idx !! e.2); [|done].
          case_decide; set_solver.
        * left. rewrite Ha, Hb. rewrite decide_False by done. set_solver.
        * right. by exists e', a, b. }
  rewrite Hgen. split; [|auto]. by intros [[]%not_elem_of_empty|?].
Qed.

(** ** Cut size and cut gain *)

Lemma foldl_delta {A} (f : Z → A → Z) (d : A → Z) l a :
  (∀ b x, f b x = b + d x) → foldl f a l = a + sumZ (d <$> l).
Proof.
  intros Hf. revert a. induction l as [|x l IH]; intros a; [simpl; lia|].
  rewrite fmap_cons. cbn [foldl sumZ foldr]. fold (sumZ (d <$> l)).
  rewrite IH, Hf. lia.
Qed.

Lemma sumZ_app l1 l2 : sumZ (l1 ++ l2) = sumZ l1 + sumZ l2.
Proof. induction l1; simpl; lia. Qed.

Lemma calculate_cut_size_index g ps :
  _calculate_cut_size g ps = cut_of_index g (index_partitions ps).
Proof.
  unfold _calculate_cut_size, cut_of_index.
  rewrite (foldl_delta _ (cut_edge (index_partitions ps))); [lia|].
  intros b e. unfold cut_edge. repeat case_decide; try lia; done.
Qed.

Lemma cut_gain_sum g m n c t :
  cut_gain g m n c t = sumZ (gain_of m c t <$> all_neighbors g n).
Proof.
  unfold cut_gain. rewrite (foldl_delta _ (gain_of m c t)); [lia|].
  intros b x. unfold gain_of. destruct (m !! x); repeat case_decide; lia.
Qed.

Lemma sumZ_cons x l : sumZ (x :: l) = x + sumZ l.
Proof. done. Qed.

Lemma sumZ_filter {A} (P : A → Prop) `{∀ x, Decision (P x)} (h : A → Z) l :
  sumZ (h <$> filter P l) = sumZ ((λ e, if decide (P e) then h e else 0) <$> l).
Proof.
  induction l as [|e l IH]; [done|].
  rewrite filter_cons, fmap_cons, sumZ_cons, <- IH.
  case_decide; [by rewrite fmap_cons, sumZ_cons | lia].
Qed.

Lemma sumZ_combine {A} (f a b c d : A → Z) l :
  (∀ e, f e = a e - b e - c e - 2 * d e) →
  sumZ (f <$> l)
  = sumZ (a <$> l) - sumZ (b <$> l) - sumZ (c <$> l) - 2 * sumZ (d <$> l).
Proof.
  intros Hf. induction l as [|e l IH]; [done|].
  rewrite !fmap_cons, !sumZ_cons, IH, Hf. lia.
Qed.

Lemma cut_edge_after_move m n c t (e : node * node) :
  m !! n = Some c → t ≠ c →
  cut_edge (<[n := t]> m) e
  = cut_edge m e
    - (if decide (e.2 = n) then gain_of m c t e.1 else 0)
    - (if decide (e.1 = n) then gain_of m c t e.2 else 0)
    - 2 * (if decide (e = (n, n)) then 1 else 0).
Proof.
  intros Hn Hne. destruct e as [u v]. unfold cut_edge, gain_of. cbn [fst snd].
  destruct (decide (u = n)) as [->|Hu], (decide (v = n)) as [->|Hv];
    rewrite ?lookup_insert_eq, ?lookup_insert_ne, ?Hn by done;
    try destruct (m !! u); try destruct (m !! v);
    repeat case_decide; try lia; congruence.
Qed.

(** Moving [n] from [c] to [t] changes the cut by the computed gain, except
    that each self-loop on [n] was counted twice against the move although it
    never crosses a boundary. *)
Lemma cut_after_move g m n c t :
  m !! n = Some c → t ≠ c →
  cut_of_index g (<[n := t]> m)
  = cut_of_index g m - cut_gain g m n c t - 2 * self_loops g n.
Proof.
  intros Hn Hne. rewrite cut_gain_sum.
  unfold cut_of_index, self_loops, all_neighbors, predecessors, successors.
  rewrite fmap_app, sumZ_app, <- !list_fmap_compose, !sumZ_filter.
  replace (Z.of_nat (length (filter (λ e, e = (n, n)) (edges g))))
    with (sumZ ((λ e, if decide (e = (n, n)) then 1 else 0) <$> edges g)).
  - rewrite (sumZ_combine _ _ _ _ _ _ (λ e, cut_edge_after_move m n c t e Hn Hne)).
    unfold compose. lia.
  - induction (edges g) as [|e l IH]; [done|].
    rewrite filter_cons, fmap_cons, sumZ_cons, IH.
    case_decide; [rewrite length_cons|]; lia.
Qed.

Lemma self_loops_nonneg g n : 0 ≤ self_loops g n.
Proof. unfold self_loops. lia. Qed.

Lemma self_loops_none g n : (n, n) ∉ edges g → self_loops g n = 0.
Proof.
  intros Hn. unfold self_loops.
  induction (edges g) as [|e l IH]; [done|].
  apply not_elem_of_cons in Hn as [Hne Hn].
  rewrite filter_cons_False by congruence. auto.
Qed.

(** The computed gain is the number of neighbours in the target partition
    minus the number of neighbours in the current one, each neighbour counted
    once per incident edge. *)
Lemma cut_gain_counts g m n c t :
  t ≠ c →
  cut_gain g m n c t
  = Z.of_nat (length (filter (λ x, m !! x = Some t) (all_neighbors g n)))
    - Z.of_nat (length (filter (λ x, m !! x = Some c) (all_neighbors g n))).
Proof.
  intros Hne. rewrite cut_gain_sum.
  induction (all_neighbors g n) as [|x l IH]; [done|].
  rewrite fmap_cons, sumZ_cons, IH, !filter_cons. unfold gain_of.
  destruct (m !! x) as [p|]; repeat case_decide; simplify_eq;
    rewrite ?length_cons; lia.
Qed.

(** On a node without self-loop the computed gain is exactly the drop of the
    cut size caused by the move. *)
Lemma cut_gain_exact g m n c t :
  m !! n = Some c → t ≠ c → (n, n) ∉ edges g →
  cut_gain g m n c t = cut_of_index g m - cut_of_index g (<[n := t]> m).
Proof.
  intros Hn Hne Hloop.
  rewrite (cut_after_move g m n c t Hn Hne), self_loops_none by done. lia.
Qed.

(** ** Applying a move *)

Lemma in_part_insert (ps : list (gset node)) i0 q (x : node) i :
  (i0 < length ps)%nat →
  (∃ p, <[i0 := q]> ps !! i = Some p ∧ x ∈ p) ↔
  (i = i0 ∧ x ∈ q) ∨ (i ≠ i0 ∧ ∃ p, ps !! i = Some p ∧ x ∈ p).
Proof.
  intros Hlt. split.
  - intros [p [Hp Hx]]. apply list_lookup_insert_Some in Hp.
    destruct Hp as [(-> & -> & _)|[Hne Hp]]; [by left|]. right. eauto.
  - intros [[-> Hx]|[Hne [p [Hp Hx]]]].
    + exists q. by rewrite list_lookup_insert_eq.
    + exists p. by rewrite list_lookup_insert_ne.
Qed.

Lemma apply_move_inv st mv st' :
  apply_move st mv = Some st' →
  ∃ c pc pt,
    node_to_partition st !! move_node mv = Some c ∧
    partitions st !! c = Some pc ∧ move_node mv ∈ pc ∧
    <[c := pc ∖ {[ move_node mv ]}]> (partitions st) !! target_partition mv
      = Some pt ∧
    st' = {| partitions :=
               <[target_partition mv := pt ∪ {[ move_node mv ]}]>
                 (<[c := pc ∖ {[ move_node mv ]}]> (partitions st));
             node_to_partition :=
               <[move_node mv := target_partition mv]>
                 (node_to_partition st) |}.
Proof.
  unfold apply_move. intros Happ.
  destruct (node_to_partition st !! move_node mv) as [c|]; [|done].
  simpl in Happ.
  destruct (partitions st !! c) as [pc|] eqn:Hpc; [|done]. simpl in Happ.
  case_decide as Hin; [|done].
  destruct (<[c := pc ∖ {[ move_node mv ]}]> (partitions st)
              !! target_partition mv) as [pt|] eqn:Hpt; [|done].
  simpl in Happ. injection Happ as <-. by exists c, pc, pt.
Qed.

Lemma apply_move_consistent st mv st' :
  consistent st → apply_move st mv = Some st' →
  consistent st' ∧
  length (partitions st') = length (partitions st) ∧
  dom (node_to_partition st') = dom (node_to_partition st).
Proof.
  intros Hc (c & pc & pt & Hn & Hpc & Hin & Hpt & ->)%apply_move_inv.
  set (n := move_node mv) in *. set (t := target_partition mv) in *.
  cbn [partitions node_to_partition].
  assert (c < length (partitions st))%nat as Hclt by by eapply lookup_lt_Some.
  assert (t < length (partitions st))%nat as Htlt.
  { apply lookup_lt_Some in Hpt. by rewrite length_insert in Hpt. }
  split; [|split].
  - intros x i. cbn [partitions node_to_partition].
    rewrite in_part_insert by by rewrite length_insert.
    rewrite in_part_insert by done.
    assert (x ∈ pt ↔ (t = c ∧ x ∈ pc ∖ {[n]}) ∨
                     (t ≠ c ∧ ∃ p, partitions st !! t = Some p ∧ x ∈ p))
      as Hxpt.
    { rewrite <- in_part_insert by done. rewrite Hpt. naive_solver. }
    rewrite elem_of_union, elem_of_singleton, Hxpt. clear Hxpt.
    rewrite elem_of_difference, elem_of_singleton.
    assert (x ∈ pc ↔ node_to_partition st !! x = Some c) as ->.
    { rewrite (Hc x c). naive_solver. }
    rewrite <- !(Hc x).
    destruct (decide (x = n)) as [->|Hxn].
    + rewrite lookup_insert_eq, Hn. naive_solver.
    + rewrite lookup_insert_ne by congruence.
      destruct (decide (i = t)), (decide (i = c)); naive_solver.
  - by rewrite !length_insert.
  - rewrite dom_insert_L. apply elem_of_dom_2 in Hn. set_solver.
Qed.

Lemma apply_move_total st mv c :
  consistent st →
  node_to_partition st !! move_node mv = Some c →
  (target_partition mv < length (partitions st))%nat →
  is_Some (apply_move st mv).
Proof.
  intros Hc Hn Ht. unfold apply_move. rewrite Hn. simpl.
  destruct (proj1 (Hc _ _) Hn) as [pc [Hpc Hin]]. rewrite Hpc. simpl.
  rewrite decide_True by done.
  destruct (lookup_lt_is_Some_2
              (<[c := pc ∖ {[ move_node mv ]}]> (partitions st))
              (target_partition mv)) as [pt ->]; [|by eexists].
  by rewrite length_insert.
Qed.

(** ** Order of floats *)

Lemma float_gt_key (x y : float) :
  x ≠ S754_nan → y ≠ S754_nan →
  float_gt x y = true ↔ key_lt (float_key y) (float_key x).
Proof.
  intros Hx Hy. unfold float_gt, SFltb, SFcompare, key_lt.
  destruct x as [sx|sx| |sx mx ex], y as [sy|sy| |sy my ey]; try done;
    try destruct sx; try destruct sy; cbn [float_key fst snd];
    try (split; [done|lia]); try (split; [lia|done]).
  - change (Pos.compare_cont Eq my mx) with (Pos.compare my mx).
    destruct (Z.compare_spec ey ex); destruct (Pos.compare_spec my mx);
      cbn [CompOpp]; split; try done; try lia.
  - change (Pos.compare_cont Eq my mx) with (Pos.compare my mx).
    destruct (Z.compare_spec ey ex); destruct (Pos.compare_spec my mx);
      split; try done; try lia.
Qed.

Lemma float_gt_not_nan (x y : float) :
  float_gt x y = true → x ≠ S754_nan ∧ y ≠ S754_nan.
Proof.
  unfold float_gt, SFltb, SFcompare.
  destruct x as [sx|sx| |sx mx ex], y as [sy|sy| |sy my ey]; done.
Qed.

Lemma float_gt_irrefl (x : float) : float_gt x x = false.
Proof.
  destruct (float_gt x x) eqn:Hx; [|done].
  pose proof (float_gt_not_nan _ _ Hx) as [Hn _].
  apply float_gt_key in Hx; [|done..]. unfold key_lt in Hx. lia.
Qed.

(** [x <= y] and [y <= z] give [x <= z], for a middle term that is a
    number. *)
Lemma float_not_gt_trans (x y z : float) :
  y ≠ S754_nan →
  float_gt x y = false → float_gt y z = false → float_gt x z = false.
Proof.
  intros Hy Hxy Hyz.
  destruct (float_gt x z) eqn:Hxz; [|done].
  pose proof (float_gt_not_nan _ _ Hxz) as [Hx Hz].
  apply float_gt_key in Hxz; [|done..].
  apply not_true_iff_false in Hxy, Hyz.
  rewrite float_gt_key in Hxy, Hyz by done.
  unfold key_lt in *. lia.
Qed.

Lemma float_gt_asym (x y : float) :
  float_gt x y = true → float_gt y x = false.
Proof.
  intros Hxy. pose proof (float_gt_not_nan _ _ Hxy) as [Hx Hy].
  apply not_true_iff_false. rewrite float_gt_key by done.
  apply float_gt_key in Hxy; [|done..]. unfold key_lt in *. lia.
Qed.

(** A float obtained by rounding has the sign it was rounded with. *)
Lemma binary_round_aux_negative mx ex lx :
  float_gt (binary_round_aux 53 1024 true mx ex lx) float_zero = false.
Proof.
  unfold binary_round_aux.
  destruct (shr_fexp 53 1024 mx ex lx) as [mrs e].
  destruct (shr_fexp 53 1024 _ e loc_Exact) as [mrs' e'].
  destruct (shr_m mrs'); [done| |done]. by destruct (Z.leb _ _).
Qed.

(** The conversion of an integer is positive only for a positive integer. *)
Lemma float_of_int_positive z :
  float_gt (float_of_int z) float_zero = true → 0 < z.
Proof.
  destruct z as [|p|p]; [done|lia|].
  unfold float_of_int, binary_normalize, binary_round.
  destruct (shl_align _ _ _) as [mz ez].
  by rewrite binary_round_aux_negative.
Qed.

(** ** Scanning for the best move *)

Lemma foldM_is_Some {A B} (f : B → A → option B) b l :
  (∀ b' x, x ∈ l → is_Some (f b' x)) → is_Some (foldM f b l).
Proof.
  revert b. induction l as [|x l IH]; intros b Hf; simpl; [by eexists|].
  destruct (Hf b x) as [b1 ->]; [left|]. apply IH.
  intros b' y Hy. apply Hf. by right.
Qed.

Lemma elem_of_boundary_nodes g (m : gmap node nat) n :
  n ∈ boundary_nodes g m ↔
  ∃ e, e ∈ edges g ∧ m !! e.1 ≠ m !! e.2 ∧ (n = e.1 ∨ n = e.2).
Proof.
  unfold boundary_nodes. rewrite elem_of_list_to_set, list_elem_of_In.
  rewrite in_flat_map. split.
  - intros [e [He Hn]]. exists e. apply list_elem_of_In in He.
    case_decide; [|by apply list_elem_of_In, elem_of_nil in Hn].
    apply list_elem_of_In in Hn. set_solver.
  - intros [e (He & Hne & Hn)]. exists e. rewrite <- !list_elem_of_In.
    split; [done|]. rewrite decide_True by done. set_solver.
Qed.

Lemma elem_of_neighbor_partitions g (m : gmap node nat) n t :
  t ∈ neighbor_partitions g m n ↔
  ∃ x, x ∈ all_neighbors g n ∧ m !! x = Some t.
Proof.
  unfold neighbor_partitions.
  by rewrite elem_of_list_to_set, list_elem_of_omap.
Qed.

Lemma get_io_is_Some g (P : gset node) :
  (∀ x, x ∈ P → x ∈ nodes g) → is_Some (_get_io_for_partition g P).
Proof.
  intros HP. unfold _get_io_for_partition.
  match goal with
  | |- is_Some (foldM ?f ?b ?l ≫= _) =>
      destruct (foldM_is_Some f b l) as [io ->]; [|by eexists]
  end.
  intros acc x Hx%elem_of_iter. rewrite decide_True by by apply HP.
  by eexists.
Qed.

Lemma io_gain_is_Some g ps n c t :
  n ∈ nodes g →
  (∀ i p x, ps !! i = Some p → x ∈ p → x ∈ nodes g) →
  is_Some (ps !! c) → is_Some (ps !! t) → is_Some (io_gain g ps n c t).
Proof.
  intros Hn Hps Hc Ht. unfold io_gain.
  match goal with
  | |- is_Some (foldM ?f ?b ?l ≫= _) =>
      destruct (foldM_is_Some f b l) as [io ->]; [|by eexists]
  end.
  intros b' x Hx. rewrite elem_of_iter in Hx.
  assert (is_Some (ps !! x)) as [p Hp] by set_solver. rewrite Hp. cbn.
  destruct (get_io_is_Some g p) as [before ->]; [by eauto|]. cbn.
  destruct (get_io_is_Some g
              (if decide (x = c) then p ∖ {[ n ]} else p ∪ {[ n ]}))
    as [after ->]; [|by eexists].
  intros y Hy. case_decide.
  - apply (Hps x p y Hp). set_solver.
  - apply elem_of_union in Hy as [?| ->%elem_of_singleton]; [|done].
    by apply (Hps x p y).
Qed.

Lemma total_gain_is_Some g alpha st n c t :
  n ∈ nodes g →
  (∀ i p x, partitions st !! i = Some p → x ∈ p → x ∈ nodes g) →
  is_Some (partitions st !! c) → is_Some (partitions st !! t) →
  is_Some (total_gain g alpha st n c t).
Proof.
  intros Hn Hps Hc Ht. unfold total_gain.
  destruct (io_gain_is_Some g (partitions st) n c t) as [iog ->]; [done..|].
  by eexists.
Qed.

(** A gain that replaces the best move so far is a number, and a move that
    would not have replaced the old best move does not replace the new
    one. *)
Lemma dominates_improved best0 gain n x q :
  best_cost best0 ≠ S754_nan → improves gain best0 = true →
  dominates best0 q → dominates (Some (mkMove n x gain)) q.
Proof.
  unfold dominates, improves. cbn. intros Hb Hg Hq.
  apply (float_not_gt_trans q (best_cost best0) gain); [done|done|].
  by apply float_gt_asym.
Qed.

Lemma scan_targets_spec g alpha st n c ts best0 best :
  scan_targets g alpha st n c best0 ts = Some best →
  best_cost best0 ≠ S754_nan →
  best_cost best ≠ S754_nan ∧
  (∀ q, dominates best0 q → dominates best q) ∧
  (∀ t, t ∈ ts → t ≠ c →
        ∃ q, total_gain g alpha st n c t = Some q ∧ dominates best q) ∧
  (∀ mv, best = Some mv →
         best0 = Some mv ∨
         (move_node mv = n ∧ target_partition mv ∈ ts ∧
          target_partition mv ≠ c ∧
          total_gain g alpha st n c (target_partition mv)
          = Some (cost_improvement mv))).
Proof.
  unfold scan_targets. revert best0.
  induction ts as [|x ts IH]; intros best0; cbn [foldM].
  - intros [= <-] Hb. split; [done|]. split; [done|].
    split; [by intros t []%elem_of_nil|auto].
  - case_decide as Hx.
    + intros Hscan Hb. destruct (IH _ Hscan Hb) as (H0 & H1 & H2 & H3).
      split; [done|]. split; [done|]. split.
      * intros t [->|Ht]%elem_of_cons Hne; [done|]. by apply H2.
      * intros mv [?|(? & ? & ? & ?)]%H3; [by left|]. right.
        split; [done|]. split; [by right|]. done.
    + destruct (total_gain g alpha st n c x) as [q|] eqn:Hq; [|done].
      cbn [mbind option_bind].
      destruct (improves q best0) eqn:Himp.
      * intros Hscan Hb.
        destruct (IH _ Hscan) as (H0 & H1 & H2 & H3).
        { cbn. apply (float_gt_not_nan _ _ Himp). }
        split; [done|]. split; [|split].
        -- intros q' Hq'. apply H1. by apply (dominates_improved best0).
        -- intros t [->|Ht]%elem_of_cons Hne; [|by apply H2].
           exists q. split; [done|]. apply H1.
           unfold dominates, improves. cbn. apply float_gt_irrefl.
        -- intros mv [[= <-]|(? & ? & ? & ?)]%H3; right; cbn.
           ++ split; [done|]. split; [left|]. done.
           ++ split; [done|]. split; [by right|]. done.
      * intros Hscan Hb. destruct (IH _ Hscan Hb) as (H0 & H1 & H2 & H3).
        split; [done|]. split; [done|]. split.
        -- intros t [->|Ht]%elem_of_cons Hne; [|by apply H2].
           exists q. split; [done|]. by apply H1.
        -- intros mv [?|(? & ? & ? & ?)]%H3; [by left|]. right.
           split; [done|]. split; [by right|]. done.
Qed.

Lemma scan_targets_is_Some g alpha st n c ts best0 :
  (∀ t, t ∈ ts → t ≠ c → is_Some (total_gain g alpha st n c t)) →
  is_Some (scan_targets g alpha st n c best0 ts).
Proof.
  intros Hts. apply foldM_is_Some. intros b t Ht.
  case_decide; [by eexists|].
  destruct (Hts t Ht) as [q ->]; [done|]. simpl.
  destruct (improves q b); by eexists.
Qed.

Lemma scan_moves_spec_from g alpha st l best0 best :
  foldM (λ best_move n,
           current_part_idx ← node_to_partition st !! n;
           scan_targets g alpha st n current_part_idx best_move
             (iter (neighbor_partitions g (node_to_partition st) n)))
        best0 l = Some best →
  best_cost best0 ≠ S754_nan →
  best_cost best ≠ S754_nan ∧
  (∀ q, dominates best0 q → dominates best q) ∧
  (∀ n c t, n ∈ l → node_to_partition st !! n = Some c →
            t ∈ neighbor_partitions g (node_to_partition st) n → t ≠ c →
            ∃ q, total_gain g alpha st n c t = Some q ∧ dominates best q) ∧
  (∀ mv, best = Some mv →
         best0 = Some mv ∨
         ∃ c, move_node mv ∈ l ∧
              node_to_partition st !! move_node mv = Some c ∧
              target_partition mv
                ∈ neighbor_partitions g (node_to_partition st) (move_node mv) ∧
              target_partition mv ≠ c ∧
              total_gain g alpha st (move_node mv) c (target_partition mv)
              = Some (cost_improvement mv)).
Proof.
  revert best0. induction l as [|x l IH]; intros best0; cbn [foldM].
  - intros [= <-] Hb. split; [done|]. split; [done|].
    split; [by intros n c t []%elem_of_nil|auto].
  - destruct (node_to_partition st !! x) as [c|] eqn:Hx; [|done].
    cbn [mbind option_bind].
    destruct (scan_targets g alpha st x c best0 _) as [b1|] eqn:Hb1; [|done].
    intros Hscan Hb.
    destruct (scan_targets_spec _ _ _ _ _ _ _ _ Hb1 Hb) as (T0 & T1 & T2 & T3).
    destruct (IH _ Hscan T0) as (H0 & H1 & H2 & H3).
    split; [done|]. split; [|split].
    + intros q Hq. by apply H1, T1.
    + intros n c' t [->|Hn]%elem_of_cons Hc' Ht Hne; [|by eapply H2].
      rewrite Hx in Hc'. injection Hc' as <-.
      destruct (T2 t) as (q & Hq & Hdom); [by apply elem_of_iter|done|].
      exists q. split; [done|]. by apply H1.
    + intros mv [Hmv|(c' & ? & ?)]%H3.
      * apply T3 in Hmv as [?|(<- & Ht%elem_of_iter & ? & ?)]; [by left|].
        right. exists c. split; [left|]. done.
      * right. exists c'. split; [by right|]. done.
Qed.

Lemma scan_moves_spec g alpha st l best :
  scan_moves g alpha st l = Some best →
  best_cost best ≠ S754_nan ∧
  (∀ n c t, n ∈ l → node_to_partition st !! n = Some c →
            t ∈ neighbor_partitions g (node_to_partition st) n → t ≠ c →
            ∃ q, total_gain g alpha st n c t = Some q ∧ dominates best q) ∧
  (∀ mv, best = Some mv →
         ∃ c, move_node mv ∈ l ∧
              node_to_partition st !! move_node mv = Some c ∧
              target_partition mv
                ∈ neighbor_partitions g (node_to_partition st) (move_node mv) ∧
              target_partition mv ≠ c ∧
              total_gain g alpha st (move_node mv) c (target_partition mv)
              = Some (cost_improvement mv)).
Proof.
  intros Hscan.
  destruct (scan_moves_spec_from _ _ _ _ _ _ Hscan) as (H0 & _ & H2 & H3);
    [done|].
  split; [done|]. split; [done|].
  intros mv [?|?]%H3; done.
Qed.

(** ** One pass *)

Lemma io_pass_break g alpha st :
  io_pass g alpha st = Some None →
  ∀ n c t, candidate g st n c t →
           ∃ q, total_gain g alpha st n c t = Some q ∧
                float_gt q float_zero = false.
Proof.
  unfold io_pass. intros Hpass n c t (Hb & Hc & Ht & Hne).
  case_decide as Hempty; [set_solver|].
  destruct (scan_moves g alpha st _) as [best|] eqn:Hscan; [|done].
  apply scan_moves_spec in Hscan as (H0 & H2 & _).
  destruct (H2 n c t) as (q & Hq & Hdom); [by apply elem_of_iter|done..|].
  exists q. split; [done|]. cbn in Hpass.
  apply (float_not_gt_trans q (best_cost best) float_zero); [done|done|].
  destruct best as [mv|]; [|done]. cbn.
  destruct (float_gt (cost_improvement mv) float_zero) eqn:Hpos; [|done].
  by destruct (apply_move st mv).
Qed.

Lemma io_pass_move g alpha st st' :
  io_pass g alpha st = Some (Some st') →
  ∃ mv, valid_move g alpha st mv ∧
        float_gt (cost_improvement mv) float_zero = true ∧
        apply_move st mv = Some st'.
Proof.
  unfold io_pass. intros Hpass.
  case_decide as Hempty; [done|].
  destruct (scan_moves g alpha st _) as [best|] eqn:Hscan; [|done].
  apply scan_moves_spec in Hscan as (_ & _ & H3). cbn in Hpass.
  destruct best as [mv|]; [|done].
  destruct (float_gt (cost_improvement mv) float_zero) eqn:Hpos; [|done].
  destruct (apply_move st mv) as [st1|] eqn:Happ; [|done].
  injection Hpass as <-. exists mv.
  destruct (H3 mv) as (c & Hn%elem_of_iter & ? & ? & ? & ?); [done|].
  split; [|done]. by exists c.
Qed.

Lemma lookup_partition_lt st x i :
  consistent st → node_to_partition st !! x = Some i →
  is_Some (partitions st !! i).
Proof. intros Hc [p [Hp _]]%Hc. by exists p. Qed.

Lemma io_pass_total g alpha st :
  wf_graph g → io_inv g st → is_Some (io_pass g alpha st).
Proof.
  intros (_ & _ & Hends) [Hc Hdom]. unfold io_pass.
  case_decide as Hempty; [by eexists|].
  destruct (scan_moves g alpha st _) as [best|] eqn:Hscan.
  - apply scan_moves_spec in Hscan as (_ & _ & H3). cbn.
    destruct best as [mv|]; [|by eexists].
    destruct (float_gt (cost_improvement mv) float_zero); [|by eexists].
    destruct (H3 mv) as (c & _ & Hn & Ht & _); [done|].
    apply elem_of_neighbor_partitions in Ht as (x & _ & Hx).
    destruct (apply_move_total st mv c) as [st' ->]; [done..| |by eexists].
    apply lookup_lt_is_Some. by eapply lookup_partition_lt.
  - exfalso. apply (is_Some_None (A := option Move)). rewrite <- Hscan.
    apply foldM_is_Some. intros b n Hn%elem_of_iter.
    apply elem_of_boundary_nodes in Hn as (e & He & _ & Hn).
    assert (n ∈ nodes g) as Hnode.
    { destruct e as [u v]. destruct (Hends u v He). by destruct Hn as [->| ->]. }
    assert (is_Some (node_to_partition st !! n)) as [c Hn'].
    { apply elem_of_dom. rewrite Hdom. by apply elem_of_list_to_set. }
    rewrite Hn'. cbn. apply scan_targets_is_Some.
    intros t (x & _ & Hx)%elem_of_iter%elem_of_neighbor_partitions _.
    apply total_gain_is_Some; [done| |by eapply lookup_partition_lt..].
    intros i p y Hp Hy.
    assert (node_to_partition st !! y = Some i) as Hyi
      by (apply Hc; by exists p).
    apply elem_of_dom_2 in Hyi. rewrite Hdom in Hyi.
    by apply elem_of_list_to_set in Hyi.
Qed.

Lemma io_pass_inv g alpha st st' :
  io_inv g st → io_pass g alpha st = Some (Some st') →
  io_inv g st' ∧ length (partitions st') = length (partitions st).
Proof.
  intros [Hc Hdom] (mv & _ & _ & Happ)%io_pass_move.
  destruct (apply_move_consistent st mv st' Hc Happ) as (? & ? & Hd).
  split; [split|]; [done| |done]. by rewrite Hd.
Qed.

(** ** The balancing loop *)

Lemma io_balance_unfold g alpha n st :
  io_balance g alpha (S n) st =
    r ← io_pass g alpha st;
    match r with
    | None => Some (mkIORun st 1 [] true)
    | Some st' =>
        run ← io_balance g alpha n st';
        Some (mkIORun (final run) (S (passes run)) (st' :: moves run)
                      (stopped_by_break run))
    end.
Proof. done. Qed.

(** A property kept by every applied move holds of every state the loop
    goes through. *)
Lemma io_balance_preserves g alpha (P : IOState → Prop) :
  (∀ st st', P st → io_pass g alpha st = Some (Some st') → P st') →
  ∀ n st run, P st → io_balance g alpha n st = Some run →
              P (final run) ∧ Forall P (moves run).
Proof.
  intros Hstep n. induction n as [|n IH]; intros st run HP.
  - intros [= <-]. by split.
  - rewrite io_balance_unfold.
    destruct (io_pass g alpha st) as [[st'|]|] eqn:Hpass; [| |done]; cbn.
    + destruct (io_balance g alpha n st') as [run'|] eqn:Hrun; [|done].
      intros [= <-]. cbn.
      assert (P st') as HP' by (by apply (Hstep st)).
      destruct (IH st' run' HP' Hrun). split; [done|]. by constructor.
    + intros [= <-]. by split.
Qed.

Lemma io_balance_counts g alpha n st run :
  io_balance g alpha n st = Some run →
  (passes run ≤ n)%nat ∧ (length (moves run) ≤ passes run)%nat.
Proof.
  revert st run. induction n as [|n IH]; intros st run.
  - intros [= <-]. cbn. lia.
  - rewrite io_balance_unfold.
    destruct (io_pass g alpha st) as [[st'|]|]; [| |done]; cbn.
    + destruct (io_balance g alpha n st') as [run'|] eqn:Hrun; [|done].
      intros [= <-]. cbn. apply IH in Hrun. lia.
    + intros [= <-]. cbn. lia.
Qed.

Lemma io_balance_break g alpha n st run :
  io_balance g alpha n st = Some run → stopped_by_break run = true →
  io_pass g alpha (final run) = Some None.
Proof.
  revert st run. induction n as [|n IH]; intros st run.
  - by intros [= <-].
  - rewrite io_balance_unfold.
    destruct (io_pass g alpha st) as [[st'|]|] eqn:Hpass; [| |done]; cbn.
    + destruct (io_balance g alpha n st') as [run'|] eqn:Hrun; [|done].
      intros [= <-]. cbn. by apply (IH st').
    + by intros [= <-].
Qed.

Lemma io_balance_total g alpha n st :
  wf_graph g → io_inv g st →
  ∃ run, io_balance g alpha n st = Some run ∧
         io_inv g (final run) ∧
         length (partitions (final run)) = length (partitions st).
Proof.
  intros Hwf. revert st. induction n as [|n IH]; intros st Hinv.
  - by eexists.
  - rewrite io_balance_unfold.
    destruct (io_pass_total g alpha st Hwf Hinv) as [[st'|] Hpass];
      rewrite Hpass; cbn; [|by eexists].
    destruct (io_pass_inv g alpha st st' Hinv Hpass) as [Hinv' Hlen].
    destruct (IH st' Hinv') as (run & -> & ? & ?). cbn.
    eexists. split; [done|]. cbn. split; [done|]. congruence.
Qed.

Lemma index_partitions_of_consistent st :
  consistent st → index_partitions (partitions st) = node_to_partition st.
Proof.
  intros Hc. apply map_eq. intros x.
  destruct (index_partitions (partitions st) !! x) as [i|] eqn:Hi.
  - symmetry. apply Hc. by apply index_partitions_Some.
  - destruct (node_to_partition st !! x) as [i|] eqn:Hx; [|done].
    apply Hc in Hx as [p [Hp Hx]].
    rewrite index_partitions_None in Hi.
    destruct (Hi p); [by eapply list_elem_of_lookup_2 | done].
Qed.

Lemma calculate_cut_size_consistent g st :
  consistent st →
  _calculate_cut_size g (partitions st) = cut_of_index g (node_to_partition st).
Proof.
  intros Hc. by rewrite calculate_cut_size_index, index_partitions_of_consistent.
Qed.

(** With [io_balance_alpha == 0] the product is a zero (or a NaN), and the
    gain of a move is positive only when its cut gain is. *)
Lemma total_gain_alpha_zero g alpha st n c t q :
  float_eq alpha float_zero = true → total_gain g alpha st n c t = Some q →
  float_gt q float_zero = true →
  0 < cut_gain g (node_to_partition st) n c t.
Proof.
  intros Ha. unfold total_gain.
  destruct (io_gain g (partitions st) n c t) as [iog|]; [|done].
  intros [= <-] Hpos. apply float_of_int_positive.
  assert (∃ sa, alpha = S754_zero sa) as [sa ->].
  { destruct alpha as [sa|[]| |[] ma ea]; try done. by exists sa. }
  unfold float_add, float_mul in Hpos.
  destruct (float_of_int iog) as [sy|sy| |sy my ey];
    destruct (float_of_int (cut_gain _ _ _ _ _)) as [sx|sx| |sx mx ex];
    try done; cbn in Hpos; by repeat (destruct sx || destruct sy || destruct sa).
Qed.

(** With [io_balance_alpha = 0] every applied move lowers the cut. *)
Lemma io_pass_alpha_zero_cut g alpha st st' :
  float_eq alpha float_zero = true → consistent st →
  io_pass g alpha st = Some (Some st') →
  cut_of_index g (node_to_partition st')
  < cut_of_index g (node_to_partition st).
Proof.
  intros Ha Hc (mv & (c & (_ & Hn & _ & Hne) & Hgain) & Hpos & Happ)%io_pass_move.
  apply (total_gain_alpha_zero _ _ _ _ _ _ _ Ha Hgain) in Hpos.
  apply apply_move_inv in Happ as (c' & pc & pt & Hn' & _ & _ & _ & ->).
  cbn [node_to_partition].
  rewrite (cut_after_move g _ _ c) by done.
  pose proof (self_loops_nonneg g (move_node mv)). lia.
Qed.

(** ** Partition lists *)

Lemma covers_lookup g ps :
  covers g ps ↔
  ∀ x, x ∈ nodes g ↔ ∃ i p, ps !! i = Some p ∧ x ∈ p.
Proof.
  unfold covers. rewrite set_eq. apply forall_proper. intros x.
  rewrite elem_of_union_list, elem_of_list_to_set.
  setoid_rewrite list_elem_of_lookup. naive_solver.
Qed.

Lemma pairwise_disjoint_alt ps :
  pairwise_disjoint ps ↔
  ∀ x i j, (∃ p, ps !! i = Some p ∧ x ∈ p) →
           (∃ q, ps !! j = Some q ∧ x ∈ q) → i = j.
Proof.
  split.
  - intros Hd x i j [p [Hp Hxp]] [q [Hq Hxq]].
    destruct (decide (i = j)) as [|Hne]; [done|].
    specialize (Hd i j p q Hne Hp Hq). set_solver.
  - intros Hd i j p q Hne Hp Hq. apply elem_of_disjoint. intros x Hxp Hxq.
    apply Hne, (Hd x); eauto.
Qed.

Lemma pairwise_disjoint_cons p ps :
  pairwise_disjoint (p :: ps) ↔
  (∀ q, q ∈ ps → p ## q) ∧ pairwise_disjoint ps.
Proof.
  split.
  - intros Hd. split.
    + intros q [j Hj]%list_elem_of_lookup. by apply (Hd 0%nat (S j)).
    + intros i j q1 q2 Hne H1 H2. apply (Hd (S i) (S j)); [lia|done..].
  - intros [Hp Hd] [|i] [|j] q1 q2 Hne; cbn; intros H1 H2; simplify_eq.
    + apply Hp. by eapply list_elem_of_lookup_2.
    + symmetry. apply Hp. by eapply list_elem_of_lookup_2.
    + apply (Hd i j); [lia|done..].
Qed.

Lemma pairwise_disjoint_filter (P : gset node → Prop)
  `{∀ p, Decision (P p)} ps :
  pairwise_disjoint ps → pairwise_disjoint (filter P ps).
Proof.
  induction ps as [|p ps IH]; [done|].
  intros [Hp Hd]%pairwise_disjoint_cons. rewrite filter_cons.
  case_decide; [|by apply IH].
  apply pairwise_disjoint_cons. split; [|by apply IH].
  intros q [_ Hq]%list_elem_of_filter. by apply Hp.
Qed.

Lemma union_list_filter_nonempty (ps : list (gset node)) :
  ⋃ filter (λ p, p ≠ ∅) ps = ⋃ ps.
Proof.
  induction ps as [|p ps IH]; [done|].
  rewrite filter_cons. case_decide as Hp; cbn; rewrite IH; [done|].
  set_solver.
Qed.

(** ** Coarse assignment *)

Lemma elem_of_imap_pair {A} (l : list A) i x :
  (i, x) ∈ imap pair l ↔ l !! i = Some x.
Proof.
  rewrite elem_of_lookup_imap. split.
  - by intros (j & y & [= -> ->] & Hy).
  - intros Hx. by exists i, x.
Qed.

Lemma assign_labels_ok k ns labels :
  NoDup ns → length labels = length ns → Forall (λ l, (l < k)%nat) labels →
  ∃ ps, assign_labels k ns labels = Some ps ∧
        length ps = k ∧ pairwise_disjoint ps ∧
        ∀ x, x ∈ ns ↔ ∃ i p, ps !! i = Some p ∧ x ∈ p.
Proof.
  intros Hnd Hlen Hlab. unfold assign_labels.
  destruct (foldM_total
    (λ ps inode,
       l ← labels !! inode.1; p ← ps !! l;
       Some (<[l := p ∪ {[ inode.2 ]}]> ps))
    (λ visited (ps : list (gset node)),
       length ps = k ∧
       ∀ x i p, ps !! i = Some p →
                (x ∈ p ↔ ∃ j, (j, x) ∈ visited ∧ labels !! j = Some i))
    (imap pair ns) (replicate k ∅)) as (ps & Hps & Hk & Hmem).
  - split; [by rewrite length_replicate|]. intros x i p [-> _]%lookup_replicate.
    split; [set_solver|]. by intros (j & []%elem_of_nil & _).
  - intros l1 [j x] l2 ps Hl [Hk Hmem]. cbn [fst snd].
    assert (ns !! j = Some x) as Hj.
    { apply elem_of_imap_pair. rewrite Hl. set_solver. }
    destruct (lookup_lt_is_Some_2 labels j) as [lab Hlab'].
    { rewrite Hlen. by eapply lookup_lt_Some. }
    assert (lab < k)%nat as Hlt.
    { eapply Forall_forall in Hlab; [exact Hlab|].
      by eapply list_elem_of_lookup_2. }
    destruct (lookup_lt_is_Some_2 ps lab) as [p Hp]; [lia|].
    rewrite Hlab'. cbn. rewrite Hp. cbn. eexists. split; [done|].
    split; [by rewrite length_insert|].
    intros y i q Hq. apply list_lookup_insert_Some in Hq.
    destruct Hq as [(<- & <- & _)|[Hne Hq]].
    + rewrite elem_of_union, elem_of_singleton, (Hmem y lab p Hp). split.
      * intros [(j' & ? & ?)| ->]; [exists j'|exists j]; set_solver.
      * intros (j' & [?|[= -> ->]%list_elem_of_singleton]%elem_of_app & ?);
          [left; by exists j'|by right].
    + rewrite (Hmem y i q Hq). split.
      * intros (j' & ? & ?). exists j'. set_solver.
      * intros (j' & [?|[= -> ->]%list_elem_of_singleton]%elem_of_app & ?);
          [by exists j'|congruence].
  - exists ps. split; [done|]. split; [done|]. split.
    + apply pairwise_disjoint_alt.
      intros x i i' [p [Hp Hx]] [q [Hq Hx']].
      apply (Hmem x i p Hp) in Hx as (j & Hj%elem_of_imap_pair & Hi).
      apply (Hmem x i' q Hq) in Hx' as (j' & Hj'%elem_of_imap_pair & Hi').
      assert (j = j') as <- by by eapply NoDup_lookup. congruence.
    + intros x. split.
      * intros [j Hj]%list_elem_of_lookup.
        destruct (lookup_lt_is_Some_2 labels j) as [lab Hlab'].
        { rewrite Hlen. by eapply lookup_lt_Some. }
        assert (lab < k)%nat as Hlt.
        { eapply Forall_forall in Hlab; [exact Hlab|].
          by eapply list_elem_of_lookup_2. }
        destruct (lookup_lt_is_Some_2 ps lab) as [p Hp]; [lia|].
        exists lab, p. split; [done|]. apply (Hmem x lab p Hp).
        exists j. by rewrite elem_of_imap_pair.
      * intros (i & p & Hp & Hx).
        apply (Hmem x i p Hp) in Hx as (j & Hj%elem_of_imap_pair & _).
        by eapply list_elem_of_lookup_2.
Qed.

(** ** The number of partitions *)

Lemma ceil_div_small n t : 0 < n ≤ t → ceil_div n t = 1.
Proof.
  intros Hn. unfold ceil_div.
  assert ((- n) `div` t = -1) as Hq; [|rewrite Hq; lia].
  symmetry. apply (Z.div_unique_pos _ _ _ (t - n)); lia.
Qed.

Lemma ceil_div_negative n t : 0 ≤ n → t < 0 → ceil_div n t ≤ 0.
Proof.
  intros Hn Ht. unfold ceil_div.
  pose proof (Z.div_mod (- n) t ltac:(lia)).
  pose proof (Z.mod_neg_bound (- n) t Ht). nia.
Qed.

Lemma ceil_div_bounds n t : 0 < n → 0 < t → 1 ≤ ceil_div n t ≤ n.
Proof.
  intros Hn Ht. unfold ceil_div.
  pose proof (Z.div_mod (- n) t ltac:(lia)).
  pose proof (Z.mod_pos_bound (- n) t Ht). nia.
Qed.

(** With a target size of at least 2, two clusters or more are fewer than
    the nodes. *)
Lemma ceil_div_lt n t : 0 < n → 2 ≤ t → 2 ≤ ceil_div n t → ceil_div n t < n.
Proof.
  intros Hn Ht. unfold ceil_div.
  pose proof (Z.div_mod (- n) t ltac:(lia)).
  pose proof (Z.mod_pos_bound (- n) t ltac:(lia)). nia.
Qed.

Lemma ceil_div_one n : ceil_div n 1 = n.
Proof. unfold ceil_div. rewrite Z.div_1_r. lia. Qed.

Lemma io_inv_covers g st : io_inv g st → covers g (partitions st).
Proof.
  intros [Hc Hdom]. apply covers_lookup. intros x.
  rewrite <- (elem_of_list_to_set (C := gset node)), <- Hdom, elem_of_dom.
  split.
  - intros [i Hi]. exists i. by apply Hc.
  - intros (i & Hi%Hc). by exists i.
Qed.

Lemma covers_dom_index g ps :
  covers g ps → dom (index_partitions ps) = list_to_set (nodes g).
Proof.
  rewrite covers_lookup. intros Hcov. apply set_eq. intros x.
  rewrite elem_of_dom, elem_of_list_to_set, (Hcov x). split.
  - intros [i Hi]. exists i. by apply index_partitions_Some.
  - intros (i & p & Hp & Hx).
    destruct (index_partitions ps !! x) eqn:Hnone; [by eexists|].
    rewrite index_partitions_None in Hnone.
    destruct (Hnone p); [by eapply list_elem_of_lookup_2|done].
Qed.

(** ** External signals of a partition *)

Lemma foldl_add_outside_id (P : gset node) (l : list node) (s : gset node) :
  Forall (λ y, y ∈ P) l →
  foldl (λ s y, if decide (y ∉ P) then s ∪ {[ y ]} else s) s l = s.
Proof.
  induction 1 as [|y l Hy _ IH]; [done|]. cbn [foldl].
  by rewrite decide_False by auto.
Qed.

Lemma get_io_single_node g x :
  wf_graph g → nodes g = [x] →
  _get_io_for_partition g {[ x ]} = Some (0, 0).
Proof.
  intros (_ & _ & Hends) Hx. unfold _get_io_for_partition.
  assert (iter ({[ x ]} : gset node) = [x]) as ->.
  { apply Permutation_singleton_r. by rewrite iter_perm, elements_singleton. }
  cbn [foldM fst snd]. rewrite decide_True by (rewrite Hx; left).
  rewrite !foldl_add_outside_id; [done|..].
  - apply Forall_forall. unfold successors.
    intros y ([u v] & -> & [_ He]%list_elem_of_filter)%list_elem_of_fmap.
    destruct (Hends u v He) as [_ Hv]. rewrite Hx in Hv. set_solver.
  - apply Forall_forall. unfold predecessors.
    intros y ([u v] & -> & [_ He]%list_elem_of_filter)%list_elem_of_fmap.
    destruct (Hends u v He) as [Hu _]. rewrite Hx in Hu. set_solver.
Qed.

(** ** Subgraphs *)

Lemma NoDup_subgraph_nodes g ns :
  NoDup (nodes g) → NoDup (nodes (subgraph g ns)).
Proof.
  intros Hnd. unfold subgraph. cbn.
  case_decide; [apply NoDup_iter|by apply NoDup_filter].
Qed.

Lemma elem_of_subgraph_nodes g ns x :
  x ∈ nodes (subgraph g ns) ↔ x ∈ ns ∧ x ∈ nodes g.
Proof.
  unfold subgraph. cbn. case_decide.
  - rewrite elem_of_iter, elem_of_list_to_set, list_elem_of_filter. tauto.
  - rewrite list_elem_of_filter, elem_of_list_to_set, list_elem_of_filter.
    tauto.
Qed.

(** Replacing two parts by a new split of the same nodes keeps the list a
    partition.  [M x a] reads "x lies in part a". *)
Lemma swap_two_parts (M M' : node → nat → Prop) (A' B' N : node → Prop)
  (i j : nat) :
  i ≠ j →
  (∀ x a b, M x a → M x b → a = b) →
  (∀ x, N x ↔ ∃ a, M x a) →
  (∀ x, A' x ∨ B' x ↔ M x i ∨ M x j) →
  (∀ x, A' x → B' x → False) →
  (∀ x a, M' x a ↔
          (a = j ∧ B' x) ∨ (a ≠ j ∧ ((a = i ∧ A' x) ∨ (a ≠ i ∧ M x a)))) →
  (∀ x a b, M' x a → M' x b → a = b) ∧ (∀ x, N x ↔ ∃ a, M' x a).
Proof.
  intros Hne Hd Hcov Hsame Hexcl Hnew.
  assert (∀ x b, A' x ∨ B' x → M x b → b = i ∨ b = j) as Hold.
  { intros x b [Hm|Hm]%Hsame Hb; [left|right]; by apply (Hd x). }
  split.
  - intros x a b Ha%Hnew Hb%Hnew.
    destruct Ha as [[-> Ha]|[Haj [[-> Ha]|[Hai Ha]]]],
             Hb as [[-> Hb]|[Hbj [[-> Hb]|[Hbi Hb]]]]; try done.
    + destruct (Hexcl x Hb Ha).
    + destruct (Hold x b (or_intror Ha) Hb); done.
    + destruct (Hexcl x Ha Hb).
    + destruct (Hold x b (or_introl Ha) Hb); done.
    + destruct (Hold x a (or_intror Hb) Ha); done.
    + destruct (Hold x a (or_introl Hb) Ha); done.
    + by apply (Hd x).
  - intros x. rewrite (Hcov x). split.
    + intros [a Ha].
      destruct (decide (a = i)) as [->|Hai];
        [|destruct (decide (a = j)) as [->|Haj]].
      * destruct (proj2 (Hsame x) (or_introl Ha)) as [HA|HB].
        -- exists i. apply Hnew. right. split; [done|]. by left.
        -- exists j. apply Hnew. by left.
      * destruct (proj2 (Hsame x) (or_intror Ha)) as [HA|HB].
        -- exists i. apply Hnew. right. split; [done|]. by left.
        -- exists j. apply Hnew. by left.
      * exists a. apply Hnew. right. split; [done|]. by right.
    + intros [a Ha%Hnew].
      destruct Ha as [[-> Ha]|[Haj [[-> Ha]|[Hai Ha]]]].
      * destruct (proj1 (Hsame x) (or_intror Ha)); [by exists i|by exists j].
      * destruct (proj1 (Hsame x) (or_introl Ha)); [by exists i|by exists j].
      * by exists a.
Qed.

(** ** Kernighan-Lin refinement and the whole pipeline

    The two library routines are used through their contracts only: asked
    for fewer clusters than there are nodes, [fit_predict] returns one label
    below [n_clusters] per node, and [kernighan_lin_bisection] returns two
    disjoint sets that together hold the nodes of the graph it is given. *)

Section Pipeline.

Variable kernighan_lin_bisection : DiGraph → Z → gset node * gset node.

Hypothesis kernighan_lin_bipartition : ∀ sg max_iter,
  NoDup (nodes sg) →
  (kernighan_lin_bisection sg max_iter).1
    ∪ (kernighan_lin_bisection sg max_iter).2 = list_to_set (nodes sg) ∧
  (kernighan_lin_bisection sg max_iter).1
    ## (kernighan_lin_bisection sg max_iter).2.

Lemma refine_pair_ok g max_iter ps i j :
  wf_graph g → part_inv g ps → i ≠ j →
  (i < length ps)%nat → (j < length ps)%nat →
  ∃ ps', refine_pair kernighan_lin_bisection g max_iter ps (i, j) = Some ps' ∧
         length ps' = length ps ∧ part_inv g ps'.
Proof using kernighan_lin_bipartition.
  intros (Hnd & _ & _) [Hd Hcov] Hne Hi Hj. unfold refine_pair. cbn [fst snd].
  destruct (lookup_lt_is_Some_2 ps i Hi) as [A HA].
  destruct (lookup_lt_is_Some_2 ps j Hj) as [B HB].
  rewrite HA, HB. cbn [mbind option_bind].
  set (sg := to_undirected (subgraph g (iter (A ∪ B)))).
  destruct (kernighan_lin_bipartition sg max_iter) as [Hun Hdis].
  { by apply NoDup_subgraph_nodes. }
  set (A' := (kernighan_lin_bisection sg max_iter).1) in *.
  set (B' := (kernighan_lin_bisection sg max_iter).2) in *.
  eexists. split; [done|]. split; [by rewrite !length_insert|].
  rewrite covers_lookup in Hcov. rewrite pairwise_disjoint_alt in Hd.
  unfold part_inv. rewrite covers_lookup, pairwise_disjoint_alt.
  apply (swap_two_parts
           (λ x a, ∃ p, ps !! a = Some p ∧ x ∈ p)
           (λ x a, ∃ p, <[j := B']> (<[i := A']> ps) !! a = Some p ∧ x ∈ p)
           (λ x, x ∈ A') (λ x, x ∈ B') (λ x, x ∈ nodes g) i j);
    [done|done|done| | |].
  - intros x. rewrite <- elem_of_union, Hun, elem_of_list_to_set.
    unfold sg. cbn [to_undirected nodes].
    rewrite elem_of_subgraph_nodes, elem_of_iter, elem_of_union, HA, HB.
    split.
    + intros [[?|?] _]; [left|right]; eauto.
    + intros [(p & [= <-] & ?)|(p & [= <-] & ?)].
      * split; [by left|]. apply Hcov. by exists i, A.
      * split; [by right|]. apply Hcov. by exists j, B.
  - intros x HxA HxB. by apply (elem_of_disjoint A' B') in HxB.
  - intros x a. rewrite in_part_insert by by rewrite length_insert.
    rewrite in_part_insert by done. tauto.
Qed.

Lemma kl_refine_ok g max_iter ps pairs :
  wf_graph g → part_inv g ps →
  (∀ i j, (i, j) ∈ pairs →
          i ≠ j ∧ (i < length ps)%nat ∧ (j < length ps)%nat) →
  ∃ ps', kl_refine kernighan_lin_bisection g max_iter ps pairs = Some ps' ∧
         length ps' = length ps ∧ part_inv g ps'.
Proof using kernighan_lin_bipartition.
  intros Hwf Hinv Hpairs. unfold kl_refine.
  destruct (foldM_total (refine_pair kernighan_lin_bisection g max_iter)
    (λ _ ps', length ps' = length ps ∧ part_inv g ps') pairs ps)
    as (ps' & ? & ? & ?); [done| |by exists ps'].
  intros l1 [i j] l2 ps1 Hl [Hlen Hinv1].
  destruct (Hpairs i j) as (Hne & Hi & Hj); [rewrite Hl; set_solver|].
  destruct (refine_pair_ok g max_iter ps1 i j) as (ps2 & ? & ? & ?);
    [done..|lia|lia|].
  exists ps2. split; [done|]. split; [congruence|done].
Qed.

Variable fit_predict : DiGraph → nat → option (list nat).

Hypothesis fit_predict_labels : ∀ g k,
  wf_graph g → (2 ≤ k < number_of_nodes g)%nat →
  ∃ labels, fit_predict g k = Some labels ∧
            length labels = number_of_nodes g ∧
            Forall (λ l, (l < k)%nat) labels.

Lemma refine_and_balance_ok g k max_iter alpha :
  wf_graph g → (2 ≤ k < number_of_nodes g)%nat →
  ∃ ps1 run,
    refine_and_balance fit_predict kernighan_lin_bisection g k max_iter alpha = Some (ps1, run) ∧
    length ps1 = k ∧ part_inv g ps1 ∧
    io_inv g (final run) ∧ length (partitions (final run)) = k.
Proof using fit_predict_labels kernighan_lin_bipartition.
  intros Hwf Hk. unfold refine_and_balance.
  destruct (fit_predict_labels g k Hwf Hk) as (labels & -> & Hlen & Hlab).
  cbn [mbind option_bind].
  destruct (assign_labels_ok k (nodes g) labels)
    as (ps0 & -> & Hk0 & Hd0 & Hcov0); [by destruct Hwf|done..|].
  cbn [mbind option_bind].
  destruct (kl_refine_ok g max_iter ps0 (_find_adjacent_partitions g ps0))
    as (ps1 & -> & Hk1 & Hinv1); [done| |by apply adjacent_pairs_in_range|].
  { split; [done|]. by apply covers_lookup. }
  cbn [mbind option_bind].
  destruct (io_balance_total g alpha (number_of_nodes g)
              (mkIOState ps1 (index_partitions ps1)))
    as (run & -> & Hinv & Hlenf); [done| |].
  { destruct Hinv1 as [Hd1 Hcov1]. split.
    - by apply index_partitions_consistent.
    - by apply covers_dom_index. }
  cbn in *. exists ps1, run. split; [done|]. split; [congruence|].
  split; [done|]. split; [done|]. congruence.
Qed.

(** Phases 1 to 3 are reached with at least two clusters and, unless the
    target size is 1, with fewer clusters than nodes. *)
Lemma partition_count_in_range g target_partition_size :
  nodes g ≠ [] → target_partition_size ≠ 0 → target_partition_size ≠ 1 →
  ¬ ceil_div (Z.of_nat (number_of_nodes g)) target_partition_size < 2 →
  (2 ≤ Z.to_nat (ceil_div (Z.of_nat (number_of_nodes g))
                   target_partition_size)
     < number_of_nodes g)%nat.
Proof.
  intros Hne Ht0 Ht1 Hk.
  assert (number_of_nodes g ≠ 0%nat) as Hn.
  { unfold number_of_nodes. by destruct (nodes g). }
  assert (0 < target_partition_size) as Hpos.
  { destruct (decide (0 < target_partition_size)); [done|].
    pose proof (ceil_div_negative (Z.of_nat (number_of_nodes g))
                  target_partition_size). lia. }
  pose proof (ceil_div_lt (Z.of_nat (number_of_nodes g))
                target_partition_size). lia.
Qed.

(** X28. For a well-formed graph and a target size other than 0 and 1,
    [hybrid_partitioner] returns a list of node sets that are pairwise
    disjoint, each non-empty, and whose union is the node set of the graph
    (the library routines through their contracts). *)
Theorem hybrid_partitioner_partition g target_partition_size kl_max_iter
  io_balance_alpha :
  wf_graph g → target_partition_size ≠ 0 → target_partition_size ≠ 1 →
  ∃ ps, hybrid_partitioner fit_predict kernighan_lin_bisection g
          target_partition_size kl_max_iter io_balance_alpha
        = Some ps ∧
        pairwise_disjoint ps ∧
        Forall (λ p, p ≠ ∅) ps ∧
        ⋃ ps = list_to_set (nodes g).
Proof using fit_predict_labels kernighan_lin_bipartition.
  intros Hwf Ht Ht1. unfold hybrid_partitioner.
  case_decide as Hn.
  { exists []. split; [done|]. split; [by intros i j p q _ ?|].
    split; [done|]. unfold number_of_nodes in Hn.
    apply length_zero_iff_nil in Hn. by rewrite Hn. }
  rewrite decide_False by done.
  case_decide as Hk.
  { eexists. split; [done|]. split; [|split].
    - intros [|i] [|j] p q Hne; cbn; intros; simplify_eq.
    - constructor; [|done]. unfold number_of_nodes in Hn.
      destruct (nodes g) as [|x l]; [done|]. set_solver.
    - cbn. set_solver. }
  destruct (refine_and_balance_ok g
              (Z.to_nat (ceil_div (Z.of_nat (number_of_nodes g))
                           target_partition_size))
              kl_max_iter io_balance_alpha)
    as (ps1 & run & -> & _ & _ & Hinv & _); [done| |].
  { apply partition_count_in_range; [|done..].
    unfold number_of_nodes in Hn. by destruct (nodes g). }
  cbn. eexists. split; [done|]. split; [|split].
  - apply pairwise_disjoint_filter, consistent_disjoint, Hinv.
  - apply Forall_forall. by intros p [Hp _]%list_elem_of_filter.
  - rewrite union_list_filter_nonempty. by apply io_inv_covers.
Qed.

End Pipeline.

(** ** Properties that do not depend on the library routines *)

(** C3 (amended). The adjacency finder returns, each once, exactly the index
    pairs [(i, j)] with [i < j] such that some edge joins a node of partition
    [i] and a node of partition [j] in either direction.  It finds them by
    examining the cross-product of the two partitions for every [i < j]; on
    pairwise disjoint partitions this is the set that a single pass over the
    edges records. *)
Theorem find_adjacent_partitions_spec g ps :
  NoDup (_find_adjacent_partitions g ps) ∧
  (∀ i j, (i, j) ∈ _find_adjacent_partitions g ps ↔
          (i < j)%nat ∧
          ∃ A B u v, ps !! i = Some A ∧ ps !! j = Some B ∧ u ∈ A ∧ v ∈ B ∧
                     ((u, v) ∈ edges g ∨ (v, u) ∈ edges g)) ∧
  (pairwise_disjoint ps →
   list_to_set (_find_adjacent_partitions g ps) = adjacent_by_edge_pass g ps).
Proof.
  split; [apply NoDup_iter|]. split; [apply elem_of_find_adjacent_partitions|].
  intros Hd. apply set_eq. intros [i j].
  rewrite elem_of_list_to_set, elem_of_find_adjacent_partitions,
    elem_of_adjacent_by_edge_pass.
  split.
  - intros (Hlt & A & B & u & v & HA & HB & Hu & Hv & [He|He]).
    + exists (u, v), i, j. cbn [fst snd].
      rewrite (index_partitions_disjoint ps u i A),
        (index_partitions_disjoint ps v j B) by done.
      repeat split; [done|lia|]. f_equal; lia.
    + exists (v, u), j, i. cbn [fst snd].
      rewrite (index_partitions_disjoint ps u i A),
        (index_partitions_disjoint ps v j B) by done.
      repeat split; [done|lia|]. f_equal; lia.
  - intros ([x y] & a & b & He & Ha & Hb & Hne & [= -> ->]). cbn [fst snd] in *.
    apply index_partitions_Some in Ha as (A & HA & Hx).
    apply index_partitions_Some in Hb as (B & HB & Hy).
    split; [lia|].
    destruct (decide (a < b)%nat).
    + rewrite Nat.min_l, Nat.max_r by lia. exists A, B, x, y. auto 10.
    + rewrite Nat.min_r, Nat.max_l by lia. exists B, A, y, x. auto 10.
Qed.

(** C4. With [io_balance_alpha == 0] (a zero of either sign), the cut size
    after the balancing loop is at most the cut size of the partitions it
    starts from (those left by the Kernighan-Lin phase). *)
Theorem io_balance_alpha_zero_cut g io_balance_alpha iterations ps run :
  pairwise_disjoint ps → float_eq io_balance_alpha float_zero = true →
  io_balance g io_balance_alpha iterations
    (mkIOState ps (index_partitions ps)) = Some run →
  _calculate_cut_size g (partitions (final run)) ≤ _calculate_cut_size g ps.
Proof.
  intros Hd Ha Hrun.
  destruct (io_balance_preserves g io_balance_alpha
    (λ st, consistent st ∧
           cut_of_index g (node_to_partition st)
           ≤ cut_of_index g (index_partitions ps))
    ) with (n := iterations) (st := mkIOState ps (index_partitions ps))
           (run := run) as [[Hc Hle] _].
  - intros st st' [Hc Hle] Hpass. split.
    + apply io_pass_move in Hpass as (mv & _ & _ & Happ).
      by destruct (apply_move_consistent st mv st' Hc Happ).
    + pose proof (io_pass_alpha_zero_cut g _ st st' Ha Hc Hpass). lia.
  - split; [by apply index_partitions_consistent|]. cbn. lia.
  - done.
  - by rewrite (calculate_cut_size_consistent g _ Hc), calculate_cut_size_index.
Qed.

(** C5. When the balancing loop leaves through a [break] rather than by
    exhausting its passes, no boundary node of the final state has a move to
    a neighbour partition whose total gain is greater than zero.  The total
    gain is the value the code computes for the move, a float, and "greater"
    is the comparison of floats. *)
Theorem io_balance_local_optimum g io_balance_alpha iterations st run :
  io_balance g io_balance_alpha iterations st = Some run →
  stopped_by_break run = true →
  ∀ n c t, candidate g (final run) n c t →
           ∃ q, total_gain g io_balance_alpha (final run) n c t = Some q ∧
                float_gt q float_zero = false.
Proof.
  intros Hrun Hbreak. apply io_pass_break. by eapply io_balance_break.
Qed.

(** C6. On every graph the balancing loop returns after at most
    [node_count] passes, having applied at most one move per pass. *)
Theorem io_balance_terminates g io_balance_alpha st :
  wf_graph g → io_inv g st →
  ∃ run, io_balance g io_balance_alpha (number_of_nodes g) st = Some run ∧
         (passes run ≤ number_of_nodes g)%nat ∧
         (length (moves run) ≤ passes run)%nat.
Proof.
  intros Hwf Hinv.
  destruct (io_balance_total g io_balance_alpha (number_of_nodes g) st)
    as (run & Hrun & _); [done..|].
  exists run. split; [done|]. by eapply io_balance_counts.
Qed.

Section Degenerate.

Variable fit_predict : DiGraph → nat → option (list nat).
Variable kernighan_lin_bisection : DiGraph → Z → gset node * gset node.

(** C7. An empty graph yields the empty list; a non-empty graph whose node
    count does not exceed the target size yields the single partition of all
    nodes; a single-node graph yields that node alone for any (non-zero)
    target size, with I/O counts (0, 0). *)
Theorem hybrid_partitioner_degenerate g target_partition_size kl_max_iter
  io_balance_alpha :
  (nodes g = [] →
   hybrid_partitioner fit_predict kernighan_lin_bisection g
     target_partition_size kl_max_iter io_balance_alpha
   = Some []) ∧
  (nodes g ≠ [] → Z.of_nat (number_of_nodes g) ≤ target_partition_size →
   hybrid_partitioner fit_predict kernighan_lin_bisection g
     target_partition_size kl_max_iter io_balance_alpha
   = Some [list_to_set (nodes g)]) ∧
  (∀ x, wf_graph g → nodes g = [x] → target_partition_size ≠ 0 →
        hybrid_partitioner fit_predict kernighan_lin_bisection g
     target_partition_size kl_max_iter io_balance_alpha
        = Some [{[ x ]}] ∧
        _get_io_for_partition g {[ x ]} = Some (0, 0)).
Proof.
  assert (nodes g ≠ [] →
          Z.of_nat (number_of_nodes g) ≤ target_partition_size
          ∨ target_partition_size < 0 →
          hybrid_partitioner fit_predict kernighan_lin_bisection g
            target_partition_size kl_max_iter io_balance_alpha
          = Some [list_to_set (nodes g)]) as Hsmall.
  { intros Hne Hle. unfold hybrid_partitioner.
    assert (number_of_nodes g ≠ 0%nat) as Hn.
    { unfold number_of_nodes. by destruct (nodes g). }
    rewrite decide_False by done. rewrite decide_False by lia.
    rewrite decide_True; [done|]. destruct Hle as [Hle|Hneg].
    - rewrite ceil_div_small; lia.
    - pose proof (ceil_div_negative (Z.of_nat (number_of_nodes g))
                    target_partition_size). lia. }
  split; [|split; [by auto|]].
  - intros Hnil. unfold hybrid_partitioner, number_of_nodes. by rewrite Hnil.
  - intros x Hwf Hx Ht. split; [|by apply get_io_single_node].
    rewrite Hsmall.
    + rewrite Hx. by rewrite list_to_set_singleton_L.
    + by rewrite Hx.
    + unfold number_of_nodes. rewrite Hx. cbn. lia.
Qed.

End Degenerate.

(** C9. Started from pairwise disjoint partitions and the index built from
    them, the balancing loop keeps the index and the partition list in
    agreement after every applied move: a node is mapped to [i] exactly when
    it is a member of partition [i], and the partitions stay pairwise
    disjoint. *)
Theorem io_balance_keeps_index_consistent g io_balance_alpha iterations ps run :
  pairwise_disjoint ps →
  io_balance g io_balance_alpha iterations
    (mkIOState ps (index_partitions ps)) = Some run →
  Forall (λ st, consistent st ∧ pairwise_disjoint (partitions st))
         (moves run).
Proof.
  intros Hd Hrun.
  destruct (io_balance_preserves g io_balance_alpha
    (λ st, consistent st ∧ pairwise_disjoint (partitions st)))
    with (n := iterations) (st := mkIOState ps (index_partitions ps))
         (run := run) as [_ Hall]; [| |done..].
  - intros st st' [Hc _] (mv & _ & _ & Happ)%io_pass_move.
    destruct (apply_move_consistent st mv st' Hc Happ) as [Hc' _].
    split; [done|]. by apply consistent_disjoint.
  - split; [by apply index_partitions_consistent|done].
Qed.

End Proofs.

(** * The model on explicit inputs *)

Lemma wf_graph_alt g :
  NoDup (nodes g) ∧ NoDup (edges g) ∧
  Forall (λ e, e.1 ∈ nodes g ∧ e.2 ∈ nodes g) (edges g) →
  wf_graph g.
Proof.
  intros (? & ? & Hall). split; [done|]. split; [done|].
  intros u v He. by apply (proj1 (Forall_forall _ _) Hall (u, v)).
Qed.

Lemma block_labels_spec g k :
  wf_graph g → (2 ≤ k < number_of_nodes g)%nat →
  ∃ labels, block_labels g k = Some labels ∧
            length labels = number_of_nodes g ∧
            Forall (λ l, (l < k)%nat) labels.
Proof.
  intros _ Hk. unfold block_labels, number_of_nodes in *.
  rewrite decide_True by lia. eexists. split; [done|].
  split; [apply length_imap|].
  apply Forall_lookup. intros i l. rewrite list_lookup_imap.
  destruct (nodes g !! i) as [x|] eqn:Hi; [|done]. intros [= <-].
  apply lookup_lt_Some in Hi. apply Nat.Div0.div_lt_upper_bound; nia.
Qed.

Lemma block_labels_rejects g k :
  (number_of_nodes g ≤ k)%nat → block_labels g k = None.
Proof.
  intros Hk. unfold block_labels, number_of_nodes in *.
  by rewrite decide_False by lia.
Qed.

Lemma halves_spec sg max_iter :
  NoDup (nodes sg) →
  (halves sg max_iter).1 ∪ (halves sg max_iter).2 = list_to_set (nodes sg) ∧
  (halves sg max_iter).1 ## (halves sg max_iter).2.
Proof.
  intros _. cbn. split; [|set_solver].
  symmetry. apply union_difference_L. intros x.
  rewrite !elem_of_list_to_set. apply subseteq_take.
Qed.

Lemma chain_graph_wf : wf_graph chain_graph.
Proof. apply wf_graph_alt. compute_done. Qed.

Lemma chain_parts_disjoint : pairwise_disjoint chain_parts.
Proof.
  apply pairwise_disjoint_cons. split.
  - intros q ->%list_elem_of_singleton. compute_done.
  - apply pairwise_disjoint_cons. split; [by intros q []%elem_of_nil|].
    by intros i j p q _ [].
Qed.

Lemma hybrid_partitioner_partition_witness :
  ∃ ps, partition_with iter_ascending chain_graph 3 10 one_tenth = Some ps ∧
        pairwise_disjoint ps ∧ Forall (λ p, p ≠ ∅) ps ∧
        ⋃ ps = list_to_set (nodes chain_graph).
Proof.
  apply (@hybrid_partitioner_partition iter_ascending iter_nat iter_pair
           halves halves_spec block_labels block_labels_spec
           chain_graph 3 10 one_tenth).
  - exact chain_graph_wf.
  - lia.
  - lia.
Defined.

(** C2, evaluated on a failing input.  The same graph, target size and
    library results, run once with node sets visited alphabetically and once
    in the reverse order, give two different partition lists: the two
    equal-gain moves of [u] and [v] are tried in the order in which the set
    of boundary nodes happens to be iterated, and the first one wins. *)
Theorem hybrid_partitioner_depends_on_set_order :
  partition_with iter_ascending chain_graph 3 10 one_tenth
  = Some [{[ "a"; "b" ]}; {[ "u"; "v"; "c"; "d" ]}]%string ∧
  partition_with iter_descending chain_graph 3 10 one_tenth
  = Some [{[ "a"; "b"; "u"; "v" ]}; {[ "c"; "d" ]}]%string ∧
  (partitions ∘ final <$>
     balance_with iter_ascending chain_graph one_tenth 6 chain_parts)
  = Some [{[ "a"; "b" ]}; {[ "u"; "v"; "c"; "d" ]}]%string ∧
  (partitions ∘ final <$>
     balance_with iter_descending chain_graph one_tenth 6 chain_parts)
  = Some [{[ "a"; "b"; "u"; "v" ]}; {[ "c"; "d" ]}]%string ∧
  @total_gain iter_ascending iter_nat chain_graph one_tenth
    (mkIOState chain_parts (@index_partitions iter_ascending chain_parts))
    "u" 0 1
  = @total_gain iter_ascending iter_nat chain_graph one_tenth
      (mkIOState chain_parts (@index_partitions iter_ascending chain_parts))
      "v" 1 0.
Proof. repeat split; vm_compute; reflexivity. Qed.

(** Rounding at work.  With [io_balance_alpha] the double next above 1/3, a
    cut gain of -1 and an I/O gain of 3 give a total gain of exactly 0.0: the
    product is rounded to 1.0.  Without rounding the sum would be 2^-53. *)
Lemma total_gain_rounds_to_zero :
  float_add (float_of_int (-1))
    (float_mul (S754_finite false 6004799503160662 (-54)) (float_of_int 3))
  = float_zero.
Proof. vm_compute. reflexivity. Qed.

Lemma find_adjacent_partitions_spec_witness :
  list_to_set (@_find_adjacent_partitions iter_ascending iter_pair
                 chain_graph chain_parts)
  = @adjacent_by_edge_pass iter_ascending chain_graph chain_parts.
Proof.
  apply (@find_adjacent_partitions_spec iter_ascending iter_pair
           chain_graph chain_parts).
  exact chain_parts_disjoint.
Defined.

(** C3 as stated fails: on a graph without any edge there is nothing for a
    pass over the edges to look at, yet the finder examines all four node
    pairs of the cross-product of the two partitions. *)
Lemma find_adjacent_partitions_examines_cross_product :
  length (edges unconnected_graph) = 0%nat ∧
  @_find_adjacent_partitions_work iter_ascending unconnected_graph
    [{[ "a"; "b" ]}; {[ "c"; "d" ]}]%string = 4%nat.
Proof. split; vm_compute; reflexivity. Qed.

Lemma io_balance_alpha_zero_cut_witness :
  match balance_with iter_ascending chain_graph float_zero 6 chain_parts with
  | Some run =>
      @_calculate_cut_size iter_ascending chain_graph (partitions (final run))
      ≤ @_calculate_cut_size iter_ascending chain_graph chain_parts
  | None => False
  end.
Proof.
  destruct (balance_with iter_ascending chain_graph float_zero 6 chain_parts)
    as [run|] eqn:Hrun; [|vm_compute in Hrun; discriminate].
  apply (@io_balance_alpha_zero_cut iter_ascending iter_nat
           chain_graph float_zero 6 chain_parts run).
  - exact chain_parts_disjoint.
  - reflexivity.
  - exact Hrun.
Defined.

Lemma io_balance_local_optimum_witness :
  match balance_with iter_ascending chain_graph one_tenth 6 chain_parts with
  | Some run =>
      ∃ q, @total_gain iter_ascending iter_nat chain_graph one_tenth
             (final run) "b" 0 1 = Some q ∧ float_gt q float_zero = false
  | None => False
  end.
Proof.
  destruct (balance_with iter_ascending chain_graph one_tenth 6 chain_parts)
    as [run|] eqn:Hrun; [|vm_compute in Hrun; discriminate].
  pose proof Hrun as Hval. vm_compute in Hval. injection Hval as <-.
  apply (@io_balance_local_optimum iter_ascending iter_nat chain_graph
           one_tenth 6 _ _ Hrun).
  - reflexivity.
  - repeat split; compute_done.
Defined.

Lemma io_balance_terminates_witness :
  ∃ run, balance_with iter_ascending chain_graph one_tenth 6 chain_parts
         = Some run ∧
         (passes run ≤ 6)%nat ∧ (length (moves run) ≤ passes run)%nat.
Proof.
  apply (@io_balance_terminates iter_ascending iter_nat chain_graph one_tenth
           (mkIOState chain_parts
              (@index_partitions iter_ascending chain_parts))).
  - exact chain_graph_wf.
  - split.
    + apply index_partitions_consistent. exact chain_parts_disjoint.
    + vm_compute. reflexivity.
Defined.

Lemma hybrid_partitioner_degenerate_witness :
  partition_with iter_ascending single_node_graph 5 10 one_tenth
  = Some [{[ "a"%string ]}] ∧
  @_get_io_for_partition iter_ascending single_node_graph {[ "a"%string ]}
  = Some (0, 0).
Proof.
  apply (@hybrid_partitioner_degenerate iter_ascending iter_nat iter_pair
           block_labels halves single_node_graph 5 10 one_tenth).
  - apply wf_graph_alt. compute_done.
  - reflexivity.
  - lia.
Defined.

(** C8, evaluated on a failing input.  In the chain graph with a self-loop
    on [u], split into [{c, d, v}] and [{a, b, u}], node [u] is a boundary
    node of partition 1 with partition 0 among its neighbour partitions.
    Moving [u] to partition 0 lowers the cut size from 2 to 1, a reduction
    of 1; the computed cut gain is -1, because the self-loop makes [u] its
    own neighbour twice and each time counts as a neighbour left behind. *)
Theorem cut_gain_counts_self_loop :
  let st := mkIOState chain_loop_parts
              (@index_partitions iter_ascending chain_loop_parts) in
  let moved := [{[ "c"; "d"; "v"; "u" ]}; {[ "a"; "b" ]}]%string in
  wf_graph chain_loop_graph ∧
  candidate chain_loop_graph st "u" 1 0 ∧
  cut_gain chain_loop_graph (node_to_partition st) "u" 1 0 = -1 ∧
  (partitions <$> apply_move st (mkMove "u" 0 float_zero)) = Some moved ∧
  @_calculate_cut_size iter_ascending chain_loop_graph chain_loop_parts = 2 ∧
  @_calculate_cut_size iter_ascending chain_loop_graph moved = 1.
Proof.
  cbn zeta. split; [apply wf_graph_alt; compute_done|].
  split; [repeat split; compute_done|].
  repeat split; vm_compute; reflexivity.
Qed.

Lemma io_balance_keeps_index_consistent_witness :
  match balance_with iter_ascending chain_graph one_tenth 6 chain_parts with
  | Some run =>
      Forall (λ st, consistent st ∧ pairwise_disjoint (partitions st))
             (moves run)
  | None => False
  end.
Proof.
  destruct (balance_with iter_ascending chain_graph one_tenth 6 chain_parts)
    as [run|] eqn:Hrun; [|vm_compute in Hrun; discriminate].
  apply (@io_balance_keeps_index_consistent iter_ascending iter_nat
           chain_graph one_tenth 6 chain_parts run).
  - exact chain_parts_disjoint.
  - exact Hrun.
Defined.

(** * Further properties of the partitioner *)

Section Further.

Context `{!SetIter node} `{!SetIter nat} `{!SetIter (nat * nat)}.

(** ** External signals of a partition *)

Lemma elem_of_predecessors g n x : x ∈ predecessors g n ↔ (x, n) ∈ edges g.
Proof.
  unfold predecessors. rewrite list_elem_of_fmap. split.
  - intros ([u v] & -> & [Hv He]%list_elem_of_filter). cbn in *. by subst.
  - intros He. exists (x, n). split; [done|]. by apply list_elem_of_filter.
Qed.

Lemma elem_of_successors g n x : x ∈ successors g n ↔ (n, x) ∈ edges g.
Proof.
  unfold successors. rewrite list_elem_of_fmap. split.
  - intros ([u v] & -> & [Hu He]%list_elem_of_filter). cbn in *. by subst.
  - intros He. exists (n, x). split; [done|]. by apply list_elem_of_filter.
Qed.

Lemma elem_of_foldl_outside (P : gset node) (l : list node) (s : gset node) x :
  x ∈ foldl (λ s y, if decide (y ∉ P) then s ∪ {[ y ]} else s) s l
  ↔ x ∈ s ∨ (x ∈ l ∧ x ∉ P).
Proof.
  revert s. induction l as [|y l IH]; intros s; cbn [foldl].
  - split; [auto|]. by intros [?|[[]%elem_of_nil _]].
  - rewrite IH, elem_of_cons. case_decide; set_solver.
Qed.

Lemma elem_of_get_io_fold g (P : gset node) (l : list node)
  (acc : gset node * gset node) x :
  let io :=
    foldl (λ acc n,
             let inputs :=
               foldl (λ s pred, if decide (pred ∉ P) then s ∪ {[pred]} else s)
                     acc.1 (predecessors g n) in
             let outputs :=
               foldl (λ s succ, if decide (succ ∉ P) then s ∪ {[succ]} else s)
                     acc.2 (successors g n) in
             (inputs, outputs))
          acc l in
  (x ∈ io.1 ↔ x ∈ acc.1 ∨ ∃ n, n ∈ l ∧ (x, n) ∈ edges g ∧ x ∉ P) ∧
  (x ∈ io.2 ↔ x ∈ acc.2 ∨ ∃ n, n ∈ l ∧ (n, x) ∈ edges g ∧ x ∉ P).
Proof.
  revert acc. induction l as [|n l IH]; intros acc; cbn [foldl].
  - split; (split; [auto|]); by intros [?|(? & []%elem_of_nil & _)].
  - cbn zeta in IH. destruct (IH
      (foldl (λ s pred, if decide (pred ∉ P) then s ∪ {[pred]} else s)
             acc.1 (predecessors g n),
       foldl (λ s succ, if decide (succ ∉ P) then s ∪ {[succ]} else s)
             acc.2 (successors g n))) as [IH1 IH2].
    cbn zeta. rewrite IH1, IH2. cbn [fst snd].
    rewrite !elem_of_foldl_outside, elem_of_predecessors, elem_of_successors.
    split; split.
    + intros [[?|[? ?]]|(m & ? & ? & ?)]; [by left| |].
      * right. exists n. split; [left|]. done.
      * right. exists m. split; [by right|]. done.
    + intros [?|(m & [->|?]%elem_of_cons & ? & ?)]; [by left; left|by left; right|].
      right. by exists m.
    + intros [[?|[? ?]]|(m & ? & ? & ?)]; [by left| |].
      * right. exists n. split; [left|]. done.
      * right. exists m. split; [by right|]. done.
    + intros [?|(m & [->|?]%elem_of_cons & ? & ?)]; [by left; left|by left; right|].
      right. by exists m.
Qed.

(** A loop whose body raises on the items that fail a test. *)
Lemma foldM_guard {A B} (P : A → Prop) `{∀ x, Decision (P x)}
    (f : B → A → B) b l :
  foldM (λ acc x, if decide (P x) then Some (f acc x) else None) b l
  = if decide (Forall P l) then Some (foldl f b l) else None.
Proof.
  revert b. induction l as [|x l IH]; intros b; cbn [foldM foldl].
  - by rewrite decide_True.
  - destruct (decide (P x)) as [Hx|Hx].
    + rewrite IH. destruct (decide (Forall P l)).
      * by rewrite decide_True by by constructor.
      * rewrite decide_False; [done|]. by intros [??]%Forall_cons.
    + rewrite decide_False; [done|]. by intros [??]%Forall_cons.
Qed.

Lemma get_io_for_partition_external g P :
  _get_io_for_partition g P
  = if decide (P ⊆ list_to_set (nodes g))
    then Some (Z.of_nat (size (external_predecessors g P)),
               Z.of_nat (size (external_successors g P)))
    else None.
Proof.
  unfold _get_io_for_partition.
  rewrite (foldM_guard (λ n, n ∈ nodes g)
    (λ acc n,
       (foldl (λ s pred, if decide (pred ∉ P) then s ∪ {[pred]} else s)
              acc.1 (predecessors g n),
        foldl (λ s succ, if decide (succ ∉ P) then s ∪ {[succ]} else s)
              acc.2 (successors g n)))).
  assert (Forall (λ n, n ∈ nodes g) (iter P) ↔ P ⊆ list_to_set (nodes g))
    as Hsub.
  { rewrite Forall_forall, elem_of_subseteq.
    apply forall_proper. intros x.
    by rewrite elem_of_iter, elem_of_list_to_set. }
  destruct (decide (P ⊆ list_to_set (nodes g))) as [HP|HP].
  2: { rewrite decide_False; [done|]. by rewrite Hsub. }
  rewrite decide_True by by rewrite Hsub. cbn [mbind option_bind].
  pose proof (λ x, elem_of_get_io_fold g P (iter P) (∅, ∅) x) as Hio.
  cbn zeta in Hio.
  set (io := foldl _ _ (iter P)) in *.
  assert (io.1 = external_predecessors g P) as ->.
  { apply set_eq. intros x. rewrite (proj1 (Hio x)). cbn [fst].
    unfold external_predecessors.
    rewrite elem_of_list_to_set, list_elem_of_fmap. split.
    - intros [[]%not_elem_of_empty|(n & Hn%elem_of_iter & He & Hx)].
      exists (x, n). split; [done|]. by apply list_elem_of_filter.
    - intros ([u v] & -> & [[Hu Hv] He]%list_elem_of_filter). cbn in *.
      right. exists v. by rewrite elem_of_iter. }
  assert (io.2 = external_successors g P) as ->; [|done].
  apply set_eq. intros x. rewrite (proj2 (Hio x)). cbn [snd].
  unfold external_successors.
  rewrite elem_of_list_to_set, list_elem_of_fmap. split.
  - intros [[]%not_elem_of_empty|(n & Hn%elem_of_iter & He & Hx)].
    exists (n, x). split; [done|]. by apply list_elem_of_filter.
  - intros ([u v] & -> & [[Hu Hv] He]%list_elem_of_filter). cbn in *.
    right. exists u. by rewrite elem_of_iter.
Qed.

(** X1. [_get_io_for_partition] raises exactly when the partition holds a
    node that is not in the graph; otherwise its two counts are the numbers
    of distinct outside nodes with an edge into the partition and with an
    edge from it. *)
Theorem get_io_counts_external_nodes g P :
  _get_io_for_partition g P
  = if decide (P ⊆ list_to_set (nodes g))
    then Some (Z.of_nat (size (external_predecessors g P)),
               Z.of_nat (size (external_successors g P)))
    else None.
Proof. apply get_io_for_partition_external. Qed.

End Further.

Section FurtherCut.

Context `{!SetIter node} `{!SetIter nat} `{!SetIter (nat * nat)}.

(** X2. A partition with no node, and the partition of all nodes of a
    graph, have no external signal. *)
Theorem get_io_empty_and_full g :
  wf_graph g →
  _get_io_for_partition g ∅ = Some (0, 0) ∧
  _get_io_for_partition g (list_to_set (nodes g)) = Some (0, 0).
Proof.
  intros (_ & _ & Hends). rewrite !get_io_for_partition_external.
  rewrite !decide_True by set_solver. split.
  - assert (external_predecessors g ∅ = ∅) as ->.
    { apply set_eq. intros x. unfold external_predecessors.
      rewrite elem_of_list_to_set, list_elem_of_fmap. split; [|set_solver].
      intros (e & _ & [[_ []%not_elem_of_empty] _]%list_elem_of_filter). }
    assert (external_successors g ∅ = ∅) as ->; [|done].
    apply set_eq. intros x. unfold external_successors.
    rewrite elem_of_list_to_set, list_elem_of_fmap. split; [|set_solver].
    intros (e & _ & [[[]%not_elem_of_empty _] _]%list_elem_of_filter).
  - assert (external_predecessors g (list_to_set (nodes g)) = ∅) as ->.
    { apply set_eq. intros x. unfold external_predecessors.
      rewrite elem_of_list_to_set, list_elem_of_fmap. split; [|set_solver].
      intros ([u v] & _ & [[Hu _] He]%list_elem_of_filter). cbn in *.
      destruct Hu. apply elem_of_list_to_set. by destruct (Hends u v He). }
    assert (external_successors g (list_to_set (nodes g)) = ∅) as ->; [|done].
    apply set_eq. intros x. unfold external_successors.
    rewrite elem_of_list_to_set, list_elem_of_fmap. split; [|set_solver].
    intros ([u v] & _ & [[_ Hv] He]%list_elem_of_filter). cbn in *.
    destruct Hv. apply elem_of_list_to_set. by destruct (Hends u v He).
Qed.

(** ** Cut size *)

Lemma sumZ_indicator {A} (P : A → Prop) `{∀ x, Decision (P x)} (l : list A) :
  sumZ ((λ e, if decide (P e) then 1 else 0) <$> l)
  = Z.of_nat (length (filter P l)).
Proof.
  induction l as [|e l IH]; [done|].
  rewrite filter_cons, fmap_cons, sumZ_cons, IH.
  case_decide; [rewrite length_cons|]; lia.
Qed.

Lemma sumZ_ext_in {A} (f f' : A → Z) (l : list A) :
  (∀ e, e ∈ l → f e = f' e) → sumZ (f <$> l) = sumZ (f' <$> l).
Proof.
  induction l as [|e l IH]; intros Hf; [done|].
  rewrite !fmap_cons, !sumZ_cons, IH, (Hf e); [done|left|].
  intros e' He'. apply Hf. by right.
Qed.

Lemma filter_ext_in_length {A} (P Q : A → Prop) `{∀ x, Decision (P x)}
  `{∀ x, Decision (Q x)} (l : list A) :
  (∀ e, e ∈ l → P e ↔ Q e) → length (filter P l) = length (filter Q l).
Proof.
  induction l as [|e l IH]; intros Hf; [done|].
  rewrite !filter_cons.
  assert (P e ↔ Q e) as He by (apply Hf; left).
  assert (length (filter P l) = length (filter Q l)) as Hl.
  { apply IH. intros e' He'. apply Hf. by right. }
  repeat case_decide; cbn; tauto || lia.
Qed.

Lemma cut_of_index_length g (m : gmap node nat) :
  cut_of_index g m
  = Z.of_nat (length (filter (λ e, m !! e.1 ≠ m !! e.2) (edges g))).
Proof.
  unfold cut_of_index. rewrite <- sumZ_indicator. apply sumZ_ext_in.
  intros e _. unfold cut_edge. repeat case_decide; done.
Qed.

Lemma elem_of_unassigned ps u (p : gset node) :
  unassigned ps u → p ∈ ps → u ∉ p.
Proof. intros Hu Hp. by apply (proj1 (Forall_forall _ _) Hu). Qed.

Lemma index_eq_disjoint ps u v :
  pairwise_disjoint ps →
  index_partitions ps !! u = index_partitions ps !! v ↔
  same_partition ps (u, v) ∨ (unassigned ps u ∧ unassigned ps v).
Proof.
  intros Hd. unfold same_partition, unassigned.
  rewrite Exists_exists. setoid_rewrite Forall_forall. cbn [fst snd]. split.
  - intros Heq. destruct (index_partitions ps !! u) as [i|] eqn:Hu.
    + symmetry in Heq.
      apply index_partitions_Some in Hu as (p & Hp & Hup).
      apply index_partitions_Some in Heq as (q & Hq & Hvq).
      left. exists p. split; [by eapply list_elem_of_lookup_2|].
      split; [done|]. congruence.
    + right. symmetry in Heq. by rewrite !index_partitions_None in *.
  - intros [(p & [i Hi]%list_elem_of_lookup & Hu & Hv)|[Hu Hv]].
    + by rewrite (index_partitions_disjoint ps u i p),
        (index_partitions_disjoint ps v i p).
    + apply index_partitions_None in Hu, Hv. congruence.
Qed.

(** X3. On pairwise disjoint partitions the cut size is the number of edges
    whose end points are not together in one partition, except that an edge
    between two nodes that are in no partition at all is not counted. *)
Theorem calculate_cut_size_counts_crossing_edges g ps :
  pairwise_disjoint ps →
  _calculate_cut_size g ps
  = Z.of_nat (length (filter
      (λ e, ¬ (same_partition ps e ∨ (unassigned ps e.1 ∧ unassigned ps e.2)))
      (edges g))).
Proof.
  intros Hd. rewrite calculate_cut_size_index, cut_of_index_length.
  f_equal. apply filter_ext_in_length. intros [u v] _. cbn [fst snd].
  by rewrite (index_eq_disjoint ps u v Hd).
Qed.

(** X4. The cut size lies between 0 and the number of edges. *)
Theorem calculate_cut_size_bounds g ps :
  0 ≤ _calculate_cut_size g ps ≤ Z.of_nat (length (edges g)).
Proof.
  rewrite calculate_cut_size_index, cut_of_index_length.
  pose proof (length_filter
    (λ e, index_partitions ps !! e.1 ≠ index_partitions ps !! e.2) (edges g)).
  lia.
Qed.

Lemma cut_of_index_zero g (m : gmap node nat) :
  cut_of_index g m = 0 ↔ ∀ e, e ∈ edges g → m !! e.1 = m !! e.2.
Proof.
  rewrite cut_of_index_length. split.
  - intros Hz e He. destruct (decide (m !! e.1 = m !! e.2)) as [|Hne]; [done|].
    assert (e ∈ filter (λ e, m !! e.1 ≠ m !! e.2) (edges g)) as Hin
      by by apply list_elem_of_filter.
    destruct (filter _ (edges g)); [by apply elem_of_nil in Hin|]. cbn in Hz. lia.
  - intros Hall. replace (filter _ (edges g)) with (@nil (node * node)); [done|].
    symmetry. induction (edges g) as [|e l IH]; [done|].
    rewrite filter_cons_False; [apply IH|].
    + intros e' He'. apply Hall. by right.
    + intros Hne. apply Hne, Hall. left.
Qed.

Lemma boundary_nodes_empty g (m : gmap node nat) :
  boundary_nodes g m = ∅ ↔ cut_of_index g m = 0.
Proof.
  rewrite cut_of_index_zero. split.
  - intros Hb e He. destruct (decide (m !! e.1 = m !! e.2)) as [|Hne]; [done|].
    assert (e.1 ∈ boundary_nodes g m) as Hin
      by (apply elem_of_boundary_nodes; exists e; auto).
    rewrite Hb in Hin. by apply not_elem_of_empty in Hin.
  - intros Hall. apply set_eq. intros x. split; [|set_solver].
    intros (e & He & Hne & _)%elem_of_boundary_nodes. destruct Hne. by apply Hall.
Qed.

(** X5. When no edge crosses between the partitions, the balancing loop
    stops in its first pass without moving any node. *)
Theorem io_balance_zero_cut g io_balance_alpha iterations ps :
  _calculate_cut_size g ps = 0 →
  io_balance g io_balance_alpha (S iterations)
    (mkIOState ps (index_partitions ps))
  = Some (mkIORun (mkIOState ps (index_partitions ps)) 1 [] true).
Proof.
  rewrite calculate_cut_size_index. intros Hz%boundary_nodes_empty.
  rewrite io_balance_unfold. unfold io_pass. cbn [node_to_partition].
  by rewrite decide_True.
Qed.

(** X6. On a well-formed graph covered by pairwise disjoint partitions, the
    cut size is 0 exactly when the adjacency finder returns no pair. *)
Theorem cut_zero_iff_no_adjacent_pair g ps :
  wf_graph g → pairwise_disjoint ps → covers g ps →
  _calculate_cut_size g ps = 0 ↔ _find_adjacent_partitions g ps = [].
Proof.
  intros (_ & _ & Hends) Hd Hcov. rewrite covers_lookup in Hcov.
  rewrite calculate_cut_size_index, cut_of_index_zero. split.
  - intros Hall.
    destruct (_find_adjacent_partitions g ps) as [|[i j] l] eqn:Hl; [done|].
    assert ((i, j) ∈ _find_adjacent_partitions g ps) as Hin
      by (rewrite Hl; left).
    apply elem_of_find_adjacent_partitions
      in Hin as (Hlt & A & B & u & v & HA & HB & Hu & Hv & He).
    pose proof (index_partitions_disjoint ps u i A Hd HA Hu) as Hiu.
    pose proof (index_partitions_disjoint ps v j B Hd HB Hv) as Hiv.
    destruct He as [He|He]; apply Hall in He; cbn in He; rewrite Hiu, Hiv in He;
      injection He; lia.
  - intros Hnil [u v] He. cbn [fst snd].
    destruct (Hends u v He) as [Hu Hv].
    apply Hcov in Hu as (i & A & HA & Hu). apply Hcov in Hv as (j & B & HB & Hv).
    rewrite (index_partitions_disjoint ps u i A), (index_partitions_disjoint ps v j B)
      by done.
    destruct (decide (i = j)) as [->|Hne]; [done|]. exfalso.
    destruct (decide (i < j)%nat).
    + assert ((i, j) ∈ _find_adjacent_partitions g ps) as Hin.
      { apply elem_of_find_adjacent_partitions. split; [done|].
        exists A, B, u, v. auto 10. }
      rewrite Hnil in Hin. by apply elem_of_nil in Hin.
    + assert ((j, i) ∈ _find_adjacent_partitions g ps) as Hin.
      { apply elem_of_find_adjacent_partitions. split; [lia|].
        exists B, A, v, u. auto 10. }
      rewrite Hnil in Hin. by apply elem_of_nil in Hin.
Qed.

End FurtherCut.

(** ** What does not depend on the iteration order of sets *)

Section OrderIndependence.

Context (o1 o2 : SetIter node) (p1 p2 : SetIter (nat * nat)).

Lemma index_partitions_order ps :
  @index_partitions o1 ps = @index_partitions o2 ps.
Proof.
  apply map_eq. intros x.
  induction ps as [|p ps IH] using rev_ind; [done|].
  by rewrite !index_partitions_snoc, IH.
Qed.

(** X7. The cut size, the I/O counts of a partition and the set of adjacent
    index pairs are the same whatever the order in which sets are
    iterated. *)
Theorem metrics_independent_of_set_order g ps P :
  @_calculate_cut_size o1 g ps = @_calculate_cut_size o2 g ps ∧
  @_get_io_for_partition o1 g P = @_get_io_for_partition o2 g P ∧
  list_to_set (@_find_adjacent_partitions o1 p1 g ps)
  =@{gset (nat * nat)} list_to_set (@_find_adjacent_partitions o2 p2 g ps).
Proof.
  split; [|split].
  - by rewrite !calculate_cut_size_index, index_partitions_order.
  - by rewrite !get_io_for_partition_external.
  - apply set_eq. intros [i j].
    by rewrite !elem_of_list_to_set, !elem_of_find_adjacent_partitions.
Qed.

End OrderIndependence.

(** ** The balancing loop, pass by pass *)

Section FurtherBalancing.

Context `{!SetIter node} `{!SetIter nat} `{!SetIter (nat * nat)}.

(** X8. A pass that does not stop the loop relocates exactly one node: a
    boundary node, to a partition of one of its neighbours other than its
    own, whose total gain, as the code computes it in floating point,
    compares greater than zero and is exceeded by the computed gain of no
    other candidate; the index is updated at that node only and the other
    partitions are left as they are. *)
Theorem io_pass_moves_best_candidate g io_balance_alpha st st' :
  io_pass g io_balance_alpha st = Some (Some st') →
  ∃ n c t q pc pt,
    candidate g st n c t ∧
    total_gain g io_balance_alpha st n c t = Some q ∧
    float_gt q float_zero = true ∧
    (∀ n' c' t', candidate g st n' c' t' →
       ∃ q', total_gain g io_balance_alpha st n' c' t' = Some q' ∧
             float_gt q' q = false) ∧
    partitions st !! c = Some pc ∧ partitions st !! t = Some pt ∧
    partitions st'
    = <[t := pt ∪ {[ n ]}]> (<[c := pc ∖ {[ n ]}]> (partitions st)) ∧
    node_to_partition st' = <[n := t]> (node_to_partition st).
Proof.
  unfold io_pass. intros Hpass.
  case_decide as Hempty; [done|].
  destruct (scan_moves g io_balance_alpha st _) as [best|] eqn:Hscan; [|done].
  apply scan_moves_spec in Hscan as (_ & H2 & H3). cbn in Hpass.
  destruct best as [mv|]; [|done].
  destruct (float_gt (cost_improvement mv) float_zero) eqn:Hpos; [|done].
  destruct (apply_move st mv) as [st1|] eqn:Happ; [|done].
  injection Hpass as <-.
  destruct (H3 mv) as (c & Hn%elem_of_iter & Hc & Ht & Hne & Hgain); [done|].
  apply apply_move_inv in Happ as (c' & pc & pt & Hc' & Hpc & _ & Hpt & ->).
  assert (c' = c) as -> by congruence.
  rewrite list_lookup_insert_ne in Hpt by done.
  exists (move_node mv), c, (target_partition mv), (cost_improvement mv), pc, pt.
  repeat (split; [done|]). split; [|done].
  intros n' c'' t' (Hb & Hc'' & Ht' & Hne').
  destruct (H2 n' c'' t') as (q' & Hq' & Hle);
    [by apply elem_of_iter|done..|].
  by exists q'.
Qed.

(** X9. The number of passes started is the number of moves applied, plus
    one when the loop left through a [break]; a loop that did not leave
    through a [break] applied a move in every one of its passes. *)
Theorem io_balance_passes_and_moves g io_balance_alpha iterations st run :
  io_balance g io_balance_alpha iterations st = Some run →
  passes run
  = (length (moves run) + if stopped_by_break run then 1 else 0)%nat ∧
  (stopped_by_break run = false → length (moves run) = iterations).
Proof.
  revert st run. induction iterations as [|n IH]; intros st run.
  - by intros [= <-].
  - rewrite io_balance_unfold.
    destruct (io_pass g io_balance_alpha st) as [[st'|]|]; [| |done]; cbn.
    + destruct (io_balance g io_balance_alpha n st') as [run'|] eqn:Hrun;
        [|done].
      intros [= <-]. cbn. destruct (IH st' run' Hrun) as [-> Hcap].
      split; [done|]. intros Hb. by rewrite Hcap.
    + by intros [= <-].
Qed.

Lemma io_balance_alpha_zero_moves g io_balance_alpha iterations st run :
  float_eq io_balance_alpha float_zero = true → consistent st →
  io_balance g io_balance_alpha iterations st = Some run →
  cut_of_index g (node_to_partition (final run))
  + Z.of_nat (length (moves run))
  ≤ cut_of_index g (node_to_partition st).
Proof.
  intros Ha. revert st run.
  induction iterations as [|n IH]; intros st run Hc.
  - intros [= <-]. cbn. lia.
  - rewrite io_balance_unfold.
    destruct (io_pass g io_balance_alpha st) as [[st'|]|] eqn:Hpass;
      [| |done]; cbn.
    + destruct (io_balance g io_balance_alpha n st') as [run'|] eqn:Hrun;
        [|done].
      intros [= <-]. cbn [final moves length].
      pose proof (io_pass_alpha_zero_cut g _ st st' Ha Hc Hpass).
      assert (consistent st') as Hc'.
      { apply io_pass_move in Hpass as (mv & _ & _ & Happ).
        by destruct (apply_move_consistent st mv st' Hc Happ). }
      specialize (IH st' run' Hc' Hrun). lia.
    + intros [= <-]. cbn. lia.
Qed.

(** X10. With [io_balance_alpha == 0] the loop applies at most as many
    moves as there are cut edges when it starts. *)
Theorem io_balance_alpha_zero_move_bound g io_balance_alpha iterations ps run :
  pairwise_disjoint ps → float_eq io_balance_alpha float_zero = true →
  io_balance g io_balance_alpha iterations
    (mkIOState ps (index_partitions ps)) = Some run →
  Z.of_nat (length (moves run)) ≤ _calculate_cut_size g ps.
Proof.
  intros Hd Ha Hrun.
  pose proof (io_balance_alpha_zero_moves g _ _ _ _ Ha
                (index_partitions_consistent ps Hd) Hrun) as Hle.
  cbn in Hle. rewrite calculate_cut_size_index.
  pose proof (cut_of_index_length g (node_to_partition (final run))). lia.
Qed.

Lemma union_list_lookup (ps : list (gset node)) x :
  x ∈ ⋃ ps ↔ ∃ i p, ps !! i = Some p ∧ x ∈ p.
Proof.
  rewrite elem_of_union_list. setoid_rewrite list_elem_of_lookup. naive_solver.
Qed.

Lemma consistent_union st :
  consistent st → ⋃ partitions st = dom (node_to_partition st).
Proof.
  intros Hc. apply set_eq. intros x.
  rewrite union_list_lookup, elem_of_dom. split.
  - intros (i & Hi%Hc). by exists i.
  - intros [i Hi]. exists i. by apply Hc.
Qed.

Lemma total_size_disjoint (ps : list (gset node)) :
  pairwise_disjoint ps → total_size ps = size (⋃ ps).
Proof.
  induction ps as [|p ps IH]; [done|].
  intros [Hp Hd]%pairwise_disjoint_cons.
  change (total_size (p :: ps)) with (size p + total_size ps)%nat.
  change (⋃ (p :: ps)) with (p ∪ ⋃ ps).
  rewrite size_union, IH; [done..|].
  apply elem_of_disjoint. intros x Hx (q & Hq & Hxq)%elem_of_union_list.
  specialize (Hp q Hq). set_solver.
Qed.

(** X11. Started from pairwise disjoint partitions, the balancing loop keeps
    the number of partitions and the set of nodes they hold; in particular
    the partition sizes still add up to the same total. *)
Theorem io_balance_keeps_nodes g io_balance_alpha iterations ps run :
  pairwise_disjoint ps →
  io_balance g io_balance_alpha iterations
    (mkIOState ps (index_partitions ps)) = Some run →
  length (partitions (final run)) = length ps ∧
  ⋃ partitions (final run) = ⋃ ps ∧
  total_size (partitions (final run)) = total_size ps.
Proof.
  intros Hd Hrun.
  destruct (io_balance_preserves g io_balance_alpha
    (λ st, consistent st ∧ length (partitions st) = length ps ∧
           dom (node_to_partition st) = dom (index_partitions ps)))
    with (n := iterations) (st := mkIOState ps (index_partitions ps))
         (run := run) as [(Hc & Hlen & Hdom) _]; [| |done|].
  - intros st st' (Hc & Hlen & Hdom) (mv & _ & _ & Happ)%io_pass_move.
    destruct (apply_move_consistent st mv st' Hc Happ) as (? & ? & ?).
    split; [done|]. split; congruence.
  - split; [by apply index_partitions_consistent|done].
  - assert (⋃ partitions (final run) = ⋃ ps) as Hun.
    { rewrite (consistent_union _ Hc), Hdom.
      symmetry.
      apply (consistent_union (mkIOState ps (index_partitions ps))).
      by apply index_partitions_consistent. }
    split; [done|]. split; [done|].
    rewrite !total_size_disjoint, Hun; [done..|].
    by apply consistent_disjoint.
Qed.

(** X12. Moving a candidate node that carries no self-loop changes the cut
    size by exactly the computed cut gain. *)
Theorem apply_move_cut_gain_exact g st n c t q st' :
  consistent st → candidate g st n c t → (n, n) ∉ edges g →
  apply_move st (mkMove n t q) = Some st' →
  _calculate_cut_size g (partitions st')
  = _calculate_cut_size g (partitions st)
    - cut_gain g (node_to_partition st) n c t.
Proof.
  intros Hc (_ & Hn & _ & Hne) Hloop Happ.
  destruct (apply_move_consistent st _ st' Hc Happ) as (Hc' & _ & _).
  rewrite !calculate_cut_size_consistent by done.
  apply apply_move_inv in Happ as (c' & pc & pt & _ & _ & _ & _ & ->).
  cbn [node_to_partition move_node target_partition].
  rewrite (cut_gain_exact g _ n c t) by done. lia.
Qed.

(** X13. In a consistent state, applying a move raises exactly when the node
    is not in the index or the target is not the index of a partition. *)
Theorem apply_move_raises_iff st mv :
  consistent st →
  apply_move st mv = None ↔
  node_to_partition st !! move_node mv = None ∨
  (length (partitions st) ≤ target_partition mv)%nat.
Proof.
  intros Hc. split.
  - intros Hnone.
    destruct (node_to_partition st !! move_node mv) as [c|] eqn:Hn; [|by left].
    right. destruct (decide (target_partition mv < length (partitions st))%nat)
      as [Hlt|]; [|lia].
    destruct (apply_move_total st mv c Hc Hn Hlt) as [st' Hst'].
    congruence.
  - unfold apply_move. intros [->|Hge]; [done|].
    destruct (node_to_partition st !! move_node mv) as [c|]; [|done]. cbn.
    destruct (partitions st !! c) as [pc|]; [|done]. cbn.
    case_decide; [|done].
    rewrite (proj2 (lookup_ge_None _ _)); [done|]. by rewrite length_insert.
Qed.

End FurtherBalancing.

(** ** Coarse assignment and refinement, without the library contracts *)

Section FurtherPhases.

Context `{!SetIter node} `{!SetIter nat} `{!SetIter (nat * nat)}.

(** An invariant of a loop that is known not to have raised. *)
Lemma foldM_invariant {A B} (f : B → A → option B) (I : list A → B → Prop)
  l b b' :
  I [] b →
  (∀ l1 x l2 b1 b2, l = l1 ++ x :: l2 → I l1 b1 → f b1 x = Some b2 →
                    I (l1 ++ [x]) b2) →
  foldM f b l = Some b' → I l b'.
Proof.
  intros H0 Hstep. revert b'.
  induction l as [|x l IH] using rev_ind; intros b'; simpl.
  - by intros [= <-].
  - rewrite foldM_app. destruct (foldM f b l) as [b1|] eqn:Hb1; [|done].
    simpl. destruct (f b1 x) as [b2|] eqn:Hb2; [|done]. intros [= <-].
    eapply (Hstep l x [] b1); [done| |done].
    apply IH; [|done]. intros l1 y l2 c1 c2 -> HI Hf.
    eapply (Hstep l1 y (l2 ++ [x])); [|done..]. by rewrite <- app_assoc.
Qed.

(** A loop that raised did so at some element, after a run without
    exception over the elements before it. *)
Lemma foldM_None {A B} (f : B → A → option B) l b :
  foldM f b l = None →
  ∃ l1 x l2 b1, l = l1 ++ x :: l2 ∧ foldM f b l1 = Some b1 ∧ f b1 x = None.
Proof.
  revert b. induction l as [|x l IH]; intros b; cbn [foldM]; [done|].
  destruct (f b x) as [b1|] eqn:Hb.
  - intros (l1 & y & l2 & b2 & -> & Hrun & Hy)%IH.
    exists (x :: l1), y, l2, b2. cbn [foldM]. by rewrite Hb.
  - intros _. by exists [], x, l, b.
Qed.

Lemma assign_labels_invariant k ns labels ps :
  assign_labels k ns labels = Some ps →
  length ps = k ∧
  (∀ x l p, ps !! l = Some p →
            (x ∈ p ↔ ∃ i, ns !! i = Some x ∧ labels !! i = Some l)) ∧
  (∀ i x, ns !! i = Some x → ∃ l, labels !! i = Some l ∧ (l < k)%nat).
Proof.
  unfold assign_labels. intros Hrun.
  apply (foldM_invariant _
    (λ visited (ps : list (gset node)),
       length ps = k ∧
       (∀ x l p, ps !! l = Some p →
                 (x ∈ p ↔ ∃ i, (i, x) ∈ visited ∧ labels !! i = Some l)) ∧
       (∀ i x, (i, x) ∈ visited → ∃ l, labels !! i = Some l ∧ (l < k)%nat)))
    in Hrun.
  - destruct Hrun as (Hk & Hmem & Hlab). split; [done|]. split.
    + intros x l p Hp. rewrite (Hmem x l p Hp).
      by setoid_rewrite elem_of_imap_pair.
    + intros i x Hi. apply (Hlab i x). by apply elem_of_imap_pair.
  - split; [by rewrite length_replicate|]. split.
    + intros x l p [-> _]%lookup_replicate.
      split; [set_solver|]. by intros (j & []%elem_of_nil & _).
    + by intros i x []%elem_of_nil.
  - intros l1 [j x] l2 ps1 ps2 Hl (Hk & Hmem & Hlab). cbn [fst snd].
    destruct (labels !! j) as [lab|] eqn:Hj; [|done]. cbn.
    destruct (ps1 !! lab) as [p|] eqn:Hp; [|done]. cbn. intros [= <-].
    split; [by rewrite length_insert|]. split.
    + intros y i q Hq. apply list_lookup_insert_Some in Hq.
      destruct Hq as [(<- & <- & _)|[Hne Hq]].
      * rewrite elem_of_union, elem_of_singleton, (Hmem y lab p Hp). split.
        -- intros [(j' & ? & ?)| ->]; [exists j'|exists j]; set_solver.
        -- intros (j' & [?|[= -> ->]%list_elem_of_singleton]%elem_of_app & ?);
             [left; by exists j'|by right].
      * rewrite (Hmem y i q Hq). split.
        -- intros (j' & ? & ?). exists j'. set_solver.
        -- intros (j' & [?|[= -> ->]%list_elem_of_singleton]%elem_of_app & ?);
             [by exists j'|congruence].
    + intros i y [?|[= -> ->]%list_elem_of_singleton]%elem_of_app;
        [by apply (Hlab i y)|].
      exists lab. split; [done|]. apply lookup_lt_Some in Hp. lia.
Qed.

(** X14. When the coarse assignment succeeds it returns [k] partitions, and a
    node lies in partition [l] exactly when [l] is the label at one of its
    positions in the node list. *)
Theorem assign_labels_places_by_label k ns labels ps :
  assign_labels k ns labels = Some ps →
  length ps = k ∧
  ∀ x l, (∃ p, ps !! l = Some p ∧ x ∈ p) ↔
         (∃ i, ns !! i = Some x ∧ labels !! i = Some l).
Proof.
  intros (Hk & Hmem & Hlab)%assign_labels_invariant. split; [done|].
  intros x l. split.
  - intros (p & Hp & Hx). by apply (Hmem x l p Hp).
  - intros (i & Hi & Hl). destruct (Hlab i x Hi) as (l' & Hl' & Hlt).
    assert (l' = l) as -> by congruence.
    destruct (lookup_lt_is_Some_2 ps l) as [p Hp]; [lia|].
    exists p. split; [done|]. apply (Hmem x l p Hp). by exists i.
Qed.

(** X15. The coarse assignment raises exactly when some node has no label
    at its position or a label that is not below [k]. *)
Theorem assign_labels_raises_iff k ns labels :
  assign_labels k ns labels = None ↔
  ∃ i x, ns !! i = Some x ∧
         (labels !! i = None ∨ ∃ l, labels !! i = Some l ∧ (k ≤ l)%nat).
Proof.
  split.
  - intros Hnone. pose proof Hnone as Hrun. unfold assign_labels in Hrun.
    apply foldM_None in Hrun as (l1 & [i x] & l2 & ps1 & Hl & Hrun1 & Hstep).
    exists i, x. split.
    { apply elem_of_imap_pair. rewrite Hl. set_solver. }
    cbn [fst snd] in Hstep.
    destruct (labels !! i) as [lab|]; [|by left]. right. exists lab.
    split; [done|]. cbn in Hstep.
    destruct (ps1 !! lab) as [p|] eqn:Hp; [done|].
    apply lookup_ge_None in Hp.
    assert (length ps1 = k) as <-; [|done].
    apply (foldM_invariant _ (λ _ (ps : list (gset node)), length ps = k))
      in Hrun1; [done|by rewrite length_replicate|].
    intros _ [j y] _ b1 b2 _ Hb1. cbn [fst snd].
    destruct (labels !! j) as [lab'|]; [|done]. cbn.
    destruct (b1 !! lab'); [|done]. cbn. intros [= <-].
    by rewrite length_insert.
  - intros (i & x & Hi & Hbad).
    destruct (assign_labels k ns labels) as [ps|] eqn:Hrun; [|done].
    apply assign_labels_invariant in Hrun as (_ & _ & Hlab).
    destruct (Hlab i x Hi) as (l & Hl & Hlt).
    destruct Hbad as [?|(l' & ? & ?)]; [congruence|].
    assert (l' = l) by congruence. lia.
Qed.

Section AnyBisection.

Variable kernighan_lin_bisection : DiGraph → Z → gset node * gset node.

Lemma refine_pair_frame g max_iter ps i j :
  (i < length ps)%nat → (j < length ps)%nat →
  ∃ ps', refine_pair kernighan_lin_bisection g max_iter ps (i, j) = Some ps' ∧
         length ps' = length ps ∧
         ∀ a, a ≠ i → a ≠ j → ps' !! a = ps !! a.
Proof.
  intros Hi Hj. unfold refine_pair. cbn [fst snd].
  destruct (lookup_lt_is_Some_2 ps i Hi) as [A ->].
  destruct (lookup_lt_is_Some_2 ps j Hj) as [B ->]. cbn.
  eexists. split; [done|]. split; [by rewrite !length_insert|].
  intros a Hai Haj. by rewrite !list_lookup_insert_ne.
Qed.

(** X16. Whatever the bisection routine returns, refining the pairs found by
    the adjacency finder raises no exception, keeps the number of
    partitions, and leaves every partition that occurs in no pair as it
    was. *)
Theorem kl_refine_frame g max_iter ps :
  ∃ ps', kl_refine kernighan_lin_bisection g max_iter ps
           (_find_adjacent_partitions g ps) = Some ps' ∧
         length ps' = length ps ∧
         ∀ a, (∀ b, ((a, b) ∉ _find_adjacent_partitions g ps) ∧
                    ((b, a) ∉ _find_adjacent_partitions g ps)) →
              ps' !! a = ps !! a.
Proof using Type*.
  unfold kl_refine.
  destruct (foldM_total (refine_pair kernighan_lin_bisection g max_iter)
    (λ visited ps',
       length ps' = length ps ∧
       ∀ a, (∀ b, ((a, b) ∉ visited) ∧ ((b, a) ∉ visited)) →
            ps' !! a = ps !! a)
    (_find_adjacent_partitions g ps) ps) as (ps' & Hrun & Hlen & Hframe).
  - split; [done|]. done.
  - intros l1 [i j] l2 ps1 Hl [Hlen Hframe].
    destruct (adjacent_pairs_in_range g ps i j) as (_ & Hi & Hj).
    { rewrite Hl. set_solver. }
    destruct (refine_pair_frame g max_iter ps1 i j) as (ps2 & ? & ? & Hsame);
      [lia..|].
    exists ps2. split; [done|]. split; [congruence|].
    intros a Ha. rewrite Hsame.
    + apply Hframe. intros b. destruct (Ha b) as [H1 H2]. set_solver.
    + intros ->. destruct (Ha j) as [[] _]. set_solver.
    + intros ->. destruct (Ha i) as [_ []]. set_solver.
  - by exists ps'.
Qed.

End AnyBisection.

End FurtherPhases.

(** ** The whole partitioner *)

Section FurtherPartitioner.

Context `{!SetIter node} `{!SetIter nat} `{!SetIter (nat * nat)}.

Variable fit_predict : DiGraph → nat → option (list nat).
Variable kernighan_lin_bisection : DiGraph → Z → gset node * gset node.

(** X17. A negative target size is accepted: the partition count is then
    not positive and a non-empty graph comes back as one partition. *)
Theorem hybrid_partitioner_negative_target g target_partition_size kl_max_iter
  io_balance_alpha :
  nodes g ≠ [] → target_partition_size < 0 →
  hybrid_partitioner fit_predict kernighan_lin_bisection g
    target_partition_size kl_max_iter io_balance_alpha
  = Some [list_to_set (nodes g)].
Proof.
  intros Hne Hneg. unfold hybrid_partitioner.
  assert (number_of_nodes g ≠ 0%nat) as Hn.
  { unfold number_of_nodes. by destruct (nodes g). }
  rewrite decide_False by done. rewrite decide_False by lia.
  rewrite decide_True; [done|].
  pose proof (ceil_div_negative (Z.of_nat (number_of_nodes g))
                target_partition_size). lia.
Qed.

(** What the phases do to the length of the partition list. *)
Lemma kl_refine_length g max_iter ps pairs ps' :
  kl_refine kernighan_lin_bisection g max_iter ps pairs = Some ps' →
  length ps' = length ps.
Proof.
  unfold kl_refine. intros Hrun.
  apply (foldM_invariant (refine_pair kernighan_lin_bisection g max_iter)
           (λ _ ps1, length ps1 = length ps) pairs ps ps'); [done| |done].
  intros l1 ij l2 ps1 ps2 _ Hlen. unfold refine_pair.
  destruct (ps1 !! ij.1) as [A|]; [|done].
  destruct (ps1 !! ij.2) as [B|]; [|done]. cbn.
  intros [= <-]. by rewrite !length_insert.
Qed.

Lemma io_balance_length g alpha n st run :
  io_balance g alpha n st = Some run →
  length (partitions (final run)) = length (partitions st).
Proof.
  intros Hrun.
  destruct (io_balance_preserves g alpha
              (λ st', length (partitions st') = length (partitions st))
              ) with (n := n) (st := st) (run := run) as [Hlen _];
    [|done..].
  intros st1 st2 Hlen
    (mv & _ & _ & (c & pc & pt & _ & _ & _ & _ & ->)%apply_move_inv)%io_pass_move.
  cbn. by rewrite !length_insert.
Qed.

(** C10. For a non-empty graph and a positive target size, a list that
    [hybrid_partitioner] returns has at most
    [k = ceil(node_count / target size)] members: the list is created with
    [k] entries, the refinement and the balancing rewrite entries, and the
    final filter removes entries.  This holds whatever the library routines
    return. *)
Theorem hybrid_partitioner_at_most_k g target_partition_size kl_max_iter
  io_balance_alpha ps :
  nodes g ≠ [] → 0 < target_partition_size →
  hybrid_partitioner fit_predict kernighan_lin_bisection g
    target_partition_size kl_max_iter io_balance_alpha = Some ps →
  Z.of_nat (length ps)
  ≤ ceil_div (Z.of_nat (number_of_nodes g)) target_partition_size.
Proof.
  intros Hne Ht. unfold hybrid_partitioner.
  assert (number_of_nodes g ≠ 0%nat) as Hn.
  { unfold number_of_nodes. by destruct (nodes g). }
  rewrite decide_False by done. rewrite decide_False by lia.
  pose proof (ceil_div_bounds (Z.of_nat (number_of_nodes g))
                target_partition_size ltac:(lia) Ht).
  case_decide as Hk.
  { intros [= <-]. cbn. lia. }
  unfold refine_and_balance.
  destruct (fit_predict g _) as [labels|]; [|done]. cbn [mbind option_bind].
  destruct (assign_labels _ _ _) as [ps0|] eqn:Hps0; [|done].
  cbn [mbind option_bind].
  destruct (kl_refine _ _ _ _ _) as [ps1|] eqn:Hps1; [|done].
  cbn [mbind option_bind].
  destruct (io_balance _ _ _ _) as [run|] eqn:Hrun; [|done].
  cbn. intros [= <-].
  apply assign_labels_invariant in Hps0 as [Hlen0 _].
  apply kl_refine_length in Hps1. apply io_balance_length in Hrun.
  cbn in Hrun.
  pose proof (length_filter (λ p : gset node, p ≠ ∅) (partitions (final run))).
  lia.
Qed.

Hypothesis kernighan_lin_bipartition : ∀ sg max_iter,
  NoDup (nodes sg) →
  (kernighan_lin_bisection sg max_iter).1
    ∪ (kernighan_lin_bisection sg max_iter).2 = list_to_set (nodes sg) ∧
  (kernighan_lin_bisection sg max_iter).1
    ## (kernighan_lin_bisection sg max_iter).2.

Hypothesis fit_predict_labels : ∀ g k,
  wf_graph g → (2 ≤ k < number_of_nodes g)%nat →
  ∃ labels, fit_predict g k = Some labels ∧
            length labels = number_of_nodes g ∧
            Forall (λ l, (l < k)%nat) labels.

Lemma hybrid_partitioner_returns g target_partition_size kl_max_iter
  io_balance_alpha :
  wf_graph g → nodes g ≠ [] →
  target_partition_size ≠ 0 → target_partition_size ≠ 1 →
  ∃ ps, hybrid_partitioner fit_predict kernighan_lin_bisection g
          target_partition_size kl_max_iter io_balance_alpha = Some ps ∧
        pairwise_disjoint ps ∧ ⋃ ps = list_to_set (nodes g).
Proof using fit_predict_labels kernighan_lin_bipartition.
  intros Hwf Hne Ht Ht1. unfold hybrid_partitioner.
  assert (number_of_nodes g ≠ 0%nat) as Hn.
  { unfold number_of_nodes. by destruct (nodes g). }
  rewrite decide_False by done. rewrite decide_False by done.
  case_decide as Hk.
  { eexists. split; [done|]. split; [|cbn; set_solver].
    intros [|i] [|j] p q Hij; cbn; intros; simplify_eq. }
  destruct (refine_and_balance_ok kernighan_lin_bisection
              kernighan_lin_bipartition fit_predict fit_predict_labels g
              (Z.to_nat (ceil_div (Z.of_nat (number_of_nodes g))
                           target_partition_size))
              kl_max_iter io_balance_alpha)
    as (ps1 & run & -> & _ & _ & Hinv & _);
    [done|by apply partition_count_in_range|].
  cbn. eexists. split; [done|]. split.
  - apply pairwise_disjoint_filter, consistent_disjoint, Hinv.
  - rewrite union_list_filter_nonempty. by apply io_inv_covers.
Qed.

(** X19. For a non-empty well-formed graph and a target size other than 0
    and 1, at least one partition is returned and the sizes of the returned
    partitions add up to the number of nodes. *)
Theorem hybrid_partitioner_sizes_add_up g target_partition_size kl_max_iter
  io_balance_alpha :
  wf_graph g → nodes g ≠ [] →
  target_partition_size ≠ 0 → target_partition_size ≠ 1 →
  ∃ ps, hybrid_partitioner fit_predict kernighan_lin_bisection g
          target_partition_size kl_max_iter io_balance_alpha = Some ps ∧
        (1 ≤ length ps)%nat ∧ total_size ps = number_of_nodes g.
Proof using fit_predict_labels kernighan_lin_bipartition.
  intros Hwf Hne Ht Ht1.
  destruct (hybrid_partitioner_returns g target_partition_size
              kl_max_iter io_balance_alpha) as (ps & Hps & Hd & Hun);
    [done..|].
  exists ps. split; [done|]. split.
  - destruct ps as [|p ps]; [|cbn; lia]. cbn in Hun.
    destruct (nodes g) as [|x l]; [done|]. set_solver.
  - rewrite (total_size_disjoint ps Hd), Hun.
    destruct Hwf as [Hnd _]. by rewrite size_list_to_set.
Qed.

(** What is known of the clustering routine when it is asked for as many
    clusters as there are nodes, or more: the eigenvalue solver it calls on
    the sparse adjacency matrix refuses, and the exception is not caught. *)
Hypothesis fit_predict_rejects : ∀ g k,
  (number_of_nodes g ≤ k)%nat → fit_predict g k = None.

(** C1, on the inputs where it fails.  With a target size of 1 there are as
    many clusters as nodes: on every graph of two nodes or more the
    clustering routine raises, and [hybrid_partitioner] with it, instead of
    returning the partition into single nodes. *)
Theorem hybrid_partitioner_raises_at_target_one g kl_max_iter
  io_balance_alpha :
  (2 ≤ number_of_nodes g)%nat →
  hybrid_partitioner fit_predict kernighan_lin_bisection g 1 kl_max_iter
    io_balance_alpha = None.
Proof using fit_predict_rejects.
  intros Hn. unfold hybrid_partitioner.
  rewrite decide_False by lia. rewrite decide_False by done.
  rewrite ceil_div_one. rewrite decide_False by lia.
  unfold refine_and_balance. rewrite Nat2Z.id.
  by rewrite fit_predict_rejects.
Qed.

(** X18. On a well-formed graph (the library routines behaving as stated)
    [hybrid_partitioner] raises in two cases only, both on a graph that is
    not empty: a target size of 0, by the division that computes [k], and a
    target size of 1 on a graph of two nodes or more, by the clustering
    routine. *)
Theorem hybrid_partitioner_raises_iff g target_partition_size kl_max_iter
  io_balance_alpha :
  wf_graph g →
  hybrid_partitioner fit_predict kernighan_lin_bisection g
    target_partition_size kl_max_iter io_balance_alpha = None
  ↔ nodes g ≠ [] ∧
    (target_partition_size = 0
     ∨ (target_partition_size = 1 ∧ (2 ≤ number_of_nodes g)%nat)).
Proof using fit_predict_labels fit_predict_rejects kernighan_lin_bipartition.
  intros Hwf. split.
  - intros Hnone. destruct (nodes g) as [|x l] eqn:Hnodes.
    { unfold hybrid_partitioner, number_of_nodes in Hnone.
      by rewrite Hnodes in Hnone. }
    split; [done|].
    destruct (decide (target_partition_size = 0)) as [|Hne]; [by left|].
    right.
    destruct (decide (target_partition_size = 1)) as [->|Hne1].
    + split; [done|]. destruct l as [|y l]; [|cbn; unfold number_of_nodes;
        rewrite Hnodes; cbn; lia].
      exfalso. unfold hybrid_partitioner, number_of_nodes in Hnone.
      rewrite Hnodes in Hnone. cbn in Hnone. done.
    + destruct (hybrid_partitioner_returns g target_partition_size
                  kl_max_iter io_balance_alpha) as (ps & Hps & _);
        [done|by rewrite Hnodes|done..|congruence].
  - intros [Hne [->|[-> Hn]]].
    + unfold hybrid_partitioner.
      rewrite decide_False; [done|]. unfold number_of_nodes.
      by destruct (nodes g).
    + unfold hybrid_partitioner.
      rewrite decide_False by lia. rewrite decide_False by done.
      rewrite ceil_div_one. rewrite decide_False by lia.
      unfold refine_and_balance. rewrite Nat2Z.id.
      by rewrite fit_predict_rejects.
Qed.

End FurtherPartitioner.

(** * Properties of the netlist reader *)

(** * Properties of the netlist reader *)

Section ReaderProofs.

(** ** The graph operations *)

Lemma has_node_true G n : has_node G n = true ↔ is_Some (node_data G !! n).
Proof. unfold has_node. apply bool_decide_eq_true. Qed.

Lemma has_node_false G n : has_node G n = false ↔ node_data G !! n = None.
Proof.
  unfold has_node. rewrite bool_decide_eq_false. by rewrite eq_None_not_Some.
Qed.

Lemma has_node_elem_of G n :
  nx_wf G → has_node G n = true ↔ n ∈ nodes (topology G).
Proof. intros [_ Hkeys]. by rewrite has_node_true, Hkeys. Qed.

Lemma node_type_None G n : node_data G !! n = None → node_type G n = None.
Proof. unfold node_type. by intros ->. Qed.

Lemma node_func_None G n : node_data G !! n = None → node_func G n = None.
Proof. unfold node_func. by intros ->. Qed.

Lemma add_node_data G n attr x :
  node_data (add_node G n attr) !! x
  = if decide (x = n) then Some (attr ∪ default ∅ (node_data G !! n))
    else node_data G !! x.
Proof.
  unfold add_node. destruct (node_data G !! n) as [old|] eqn:Hn; cbn;
    case_decide as Hx; subst;
    rewrite ?lookup_insert_eq, ?lookup_insert_ne by done; try done.
  by rewrite (right_id_L ∅ (∪)).
Qed.

Lemma add_node_edges G n attr :
  edges (topology (add_node G n attr)) = edges (topology G).
Proof. unfold add_node. by destruct (node_data G !! n). Qed.

Lemma add_node_nodes G n attr x :
  nx_wf G →
  x ∈ nodes (topology (add_node G n attr)) ↔ x = n ∨ x ∈ nodes (topology G).
Proof.
  intros [_ Hkeys]. unfold add_node.
  destruct (node_data G !! n) as [old|] eqn:Hn; cbn.
  - split; [auto|]. intros [->|?]; [|done]. apply Hkeys. by rewrite Hn.
  - rewrite elem_of_app, list_elem_of_singleton. tauto.
Qed.

Lemma add_node_wf G n attr : nx_wf G → nx_wf (add_node G n attr).
Proof.
  intros Hwf. pose proof Hwf as [(Hnd & Hed & Hends) Hkeys].
  split; [split; [|split]|].
  - unfold add_node. destruct (node_data G !! n) as [old|] eqn:Hn; [done|].
    cbn. apply NoDup_app. split; [done|]. split; [|apply NoDup_singleton].
    intros x Hx ->%list_elem_of_singleton. apply Hkeys in Hx.
    rewrite Hn in Hx. by destruct Hx.
  - by rewrite add_node_edges.
  - intros u v. rewrite add_node_edges, !add_node_nodes by done.
    intros He. destruct (Hends u v He). auto.
  - intros x. rewrite add_node_nodes, add_node_data by done.
    case_decide as Hx; [subst; split; [by eexists|auto]|].
    rewrite Hkeys. split; [intros [?|?]; done|auto].
Qed.

Lemma add_node_type G n t x :
  node_type (add_node G n {[ "type"%string := t ]}) x
  = if decide (x = n) then Some t else node_type G x.
Proof.
  unfold node_type. rewrite add_node_data. case_decide; [|done]. cbn.
  by rewrite lookup_union_l', lookup_singleton_eq
    by (rewrite lookup_singleton_eq; by eexists).
Qed.

Lemma add_node_type_func G n t x :
  node_func (add_node G n {[ "type"%string := t ]}) x = node_func G x.
Proof.
  unfold node_func. rewrite add_node_data. case_decide as Hx; [|done].
  subst. cbn. rewrite lookup_union_r by done.
  by destruct (node_data G !! n).
Qed.

Lemma add_gate_node_type G n f x :
  node_type (add_node G n {[ "type"%string := "gate"%string;
                             "func"%string := f ]}) x
  = if decide (x = n) then Some "gate"%string else node_type G x.
Proof.
  unfold node_type. rewrite add_node_data. case_decide; [|done]. cbn.
  rewrite lookup_union_l'; [done|]. by eexists.
Qed.

Lemma add_gate_node_func G n f x :
  node_func (add_node G n {[ "type"%string := "gate"%string;
                             "func"%string := f ]}) x
  = if decide (x = n) then Some f else node_func G x.
Proof.
  unfold node_func. rewrite add_node_data. case_decide; [|done]. cbn.
  rewrite lookup_union_l'; [done|]. by eexists.
Qed.

End ReaderProofs.

Lemma foldl_concat {A B} (f : B → A → B) (b : B) (ls : list (list A)) :
  foldl (λ b l, foldl f b l) b ls = foldl f b (concat ls).
Proof.
  revert b. induction ls as [|l ls IH]; intros b; [done|].
  cbn [foldl concat]. by rewrite foldl_app, IH.
Qed.

Lemma declare_input_retypes : retypes "PI" declare_input.
Proof.
  intros G s Hwf. unfold declare_input.
  split; [by apply add_node_wf|]. split; [intros x; by apply add_node_nodes|].
  split; [apply add_node_edges|].
  split; [intros x; apply add_node_type|intros x; apply add_node_type_func].
Qed.

Lemma declare_output_retypes : retypes "PO" declare_output.
Proof.
  intros G s Hwf. unfold declare_output.
  destruct (has_node G s) eqn:Hs.
  - apply has_node_true in Hs as [d Hd].
    pose proof Hwf as [Htop Hkeys].
    split; [|split; [|split; [done|split]]].
    + split; [done|]. intros x. cbn. rewrite lookup_alter.
      destruct (decide (s = x)) as [<-|Hx]; [|by apply Hkeys].
      rewrite Hkeys, Hd. cbn. split; by eexists.
    + intros x. cbn. split; [auto|]. intros [->|?]; [|done].
      apply Hkeys. by rewrite Hd.
    + intros x. unfold node_type. cbn. rewrite lookup_alter.
      destruct (decide (s = x)) as [<-|Hx].
      * rewrite decide_True, Hd by done. cbn. by rewrite lookup_insert_eq.
      * by rewrite decide_False by congruence.
    + intros x. unfold node_func. cbn. rewrite lookup_alter.
      destruct (decide (s = x)) as [<-|Hx]; [|done].
      rewrite Hd. cbn. by rewrite lookup_insert_ne.
  - split; [by apply add_node_wf|]. split; [intros x; by apply add_node_nodes|].
    split; [apply add_node_edges|].
    split; [intros x; apply add_node_type|intros x; apply add_node_type_func].
Qed.

Lemma foldl_retypes t f l G :
  retypes t f → nx_wf G →
  nx_wf (foldl f G l) ∧
  (∀ x, x ∈ nodes (topology (foldl f G l)) ↔ x ∈ l ∨ x ∈ nodes (topology G)) ∧
  edges (topology (foldl f G l)) = edges (topology G) ∧
  (∀ x, node_type (foldl f G l) x
        = if decide (x ∈ l) then Some t else node_type G x) ∧
  (∀ x, node_func (foldl f G l) x = node_func G x).
Proof.
  intros Hf. revert G. induction l as [|s l IH]; intros G Hwf; cbn [foldl].
  - split; [done|]. split; [intros x; set_solver|]. split; [done|].
    split; [|done]. intros x. by rewrite decide_False by set_solver.
  - destruct (Hf G s Hwf) as (Hwf1 & Hn1 & He1 & Ht1 & Hf1).
    destruct (IH (f G s) Hwf1) as (Hwf2 & Hn2 & He2 & Ht2 & Hf2).
    split; [done|]. split; [|split; [congruence|split]].
    + intros x. rewrite Hn2, Hn1, elem_of_cons. tauto.
    + intros x. rewrite Ht2, Ht1.
      repeat case_decide; try done; exfalso; set_solver.
    + intros x. by rewrite Hf2, Hf1.
Qed.

Lemma declare_wire_effect G s :
  nx_wf G →
  nx_wf (declare_wire G s) ∧
  (∀ x, x ∈ nodes (topology (declare_wire G s))
        ↔ x = s ∨ x ∈ nodes (topology G)) ∧
  edges (topology (declare_wire G s)) = edges (topology G) ∧
  (∀ x, node_type (declare_wire G s) x
        = if decide (x = s ∧ x ∉ nodes (topology G)) then Some "wire"%string
          else node_type G x) ∧
  (∀ x, node_func (declare_wire G s) x = node_func G x).
Proof.
  intros Hwf. unfold declare_wire. destruct (has_node G s) eqn:Hs.
  - apply (has_node_elem_of G s Hwf) in Hs.
    split; [done|]. split; [intros x; split; [auto|by intros [->|?]]|].
    split; [done|]. split; [|done].
    intros x. rewrite decide_False; [done|]. by intros [-> ?].
  - assert (s ∉ nodes (topology G)) as Hs'.
    { rewrite <- (has_node_elem_of G s Hwf). by rewrite Hs. }
    split; [by apply add_node_wf|]. split; [intros x; by apply add_node_nodes|].
    split; [apply add_node_edges|].
    split; [|intros x; apply add_node_type_func].
    intros x. rewrite add_node_type.
    repeat case_decide; try done; exfalso; naive_solver.
Qed.

Lemma foldl_declare_wire l G :
  nx_wf G →
  nx_wf (foldl declare_wire G l) ∧
  (∀ x, x ∈ nodes (topology (foldl declare_wire G l))
        ↔ x ∈ l ∨ x ∈ nodes (topology G)) ∧
  edges (topology (foldl declare_wire G l)) = edges (topology G) ∧
  (∀ x, node_type (foldl declare_wire G l) x
        = if decide (x ∈ l ∧ x ∉ nodes (topology G)) then Some "wire"%string
          else node_type G x) ∧
  (∀ x, node_func (foldl declare_wire G l) x = node_func G x).
Proof.
  revert G. induction l as [|s l IH]; intros G Hwf; cbn [foldl].
  - split; [done|]. split; [intros x; set_solver|]. split; [done|].
    split; [|done]. intros x. rewrite decide_False; [done|]. set_solver.
  - destruct (declare_wire_effect G s Hwf) as (Hwf1 & Hn1 & He1 & Ht1 & Hf1).
    destruct (IH (declare_wire G s) Hwf1) as (Hwf2 & Hn2 & He2 & Ht2 & Hf2).
    split; [done|]. split; [|split; [congruence|split]].
    + intros x. rewrite Hn2, Hn1, elem_of_cons. tauto.
    + intros x. rewrite Ht2, Ht1. specialize (Hn1 x). clear -Hn1.
      repeat case_decide; try done; exfalso;
        rewrite ?elem_of_cons in *; naive_solver.
    + intros x. by rewrite Hf2, Hf1.
Qed.

Lemma add_edge_effect G u v :
  nx_wf G → u ∈ nodes (topology G) → v ∈ nodes (topology G) →
  nx_wf (add_edge G u v) ∧
  nodes (topology (add_edge G u v)) = nodes (topology G) ∧
  node_data (add_edge G u v) = node_data G ∧
  (∀ e, e ∈ edges (topology (add_edge G u v))
        ↔ e = (u, v) ∨ e ∈ edges (topology G)).
Proof.
  intros Hwf Hu Hv. unfold add_edge.
  rewrite (proj2 (has_node_elem_of G u Hwf) Hu).
  rewrite (proj2 (has_node_elem_of G v Hwf) Hv). cbn zeta.
  pose proof Hwf as [(Hnd & Hed & Hends) Hkeys].
  unfold has_edge. case_bool_decide as He; cbn.
  - split; [done|]. split; [done|]. split; [done|].
    intros e. split; [auto|]. by intros [->|?].
  - split; [|split; [done|split; [done|]]].
    + split; [|done]. split; [done|]. split.
      * apply NoDup_app. split; [done|]. split; [|apply NoDup_singleton].
        by intros e Hin ->%list_elem_of_singleton.
      * intros a b [?|[= -> ->]%list_elem_of_singleton]%elem_of_app; auto.
    + intros e. rewrite elem_of_app, list_elem_of_singleton. tauto.
Qed.

Lemma add_edge_type G u v x :
  nx_wf G → u ∈ nodes (topology G) → v ∈ nodes (topology G) →
  node_type (add_edge G u v) x = node_type G x ∧
  node_func (add_edge G u v) x = node_func G x.
Proof.
  intros Hwf Hu Hv. destruct (add_edge_effect G u v Hwf Hu Hv) as (_ & _ & Hd & _).
  unfold node_type, node_func. by rewrite Hd.
Qed.

(** The loop over the input signals of one gate. *)
Lemma connect_inputs_effect inst l G :
  nx_wf G → inst ∈ nodes (topology G) →
  let G' := foldl (λ G c, add_edge (declare_wire G c) c inst) G l in
  nx_wf G' ∧
  (∀ x, x ∈ nodes (topology G') ↔ x ∈ l ∨ x ∈ nodes (topology G)) ∧
  (∀ e, e ∈ edges (topology G')
        ↔ e ∈ edges (topology G) ∨ ∃ c, c ∈ l ∧ e = (c, inst)) ∧
  (∀ x, node_type G' x
        = if decide (x ∈ l ∧ x ∉ nodes (topology G)) then Some "wire"%string
          else node_type G x) ∧
  (∀ x, node_func G' x = node_func G x).
Proof.
  revert G. induction l as [|c l IH]; intros G Hwf Hinst; cbn [foldl].
  - cbn zeta. split; [done|]. split; [intros x; set_solver|].
    split; [intros e; set_solver|]. split; [|done].
    intros x. rewrite decide_False; [done|]. set_solver.
  - destruct (declare_wire_effect G c Hwf) as (Hwf1 & Hn1 & He1 & Ht1 & Hf1).
    assert (c ∈ nodes (topology (declare_wire G c))) as Hc by (apply Hn1; auto).
    assert (inst ∈ nodes (topology (declare_wire G c))) as Hi by (apply Hn1; auto).
    destruct (add_edge_effect _ c inst Hwf1 Hc Hi) as (Hwf2 & Hn2 & Hd2 & He2).
    assert (inst ∈ nodes (topology (add_edge (declare_wire G c) c inst)))
      as Hi2 by by rewrite Hn2.
    destruct (IH _ Hwf2 Hi2) as (Hwf3 & Hn3 & He3 & Ht3 & Hf3).
    cbn zeta in *. split; [done|]. split; [|split; [|split]].
    + intros x. rewrite Hn3, Hn2, Hn1, elem_of_cons. tauto.
    + intros e. rewrite He3, He2, He1. split.
      * intros [[->|?]|(c' & ? & ?)]; [|by left|].
        -- right. exists c. split; [left|done].
        -- right. exists c'. split; [by right|done].
      * intros [?|(c' & [->|?]%elem_of_cons & ->)]; [by left; right|by left; left|].
        right. by exists c'.
    + intros x. rewrite Ht3, Hn2.
      destruct (add_edge_type _ c inst x Hwf1 Hc Hi) as [-> _].
      rewrite Ht1. specialize (Hn1 x). clear -Hn1.
      repeat case_decide; try done; exfalso;
        rewrite ?elem_of_cons in *; naive_solver.
    + intros x. rewrite Hf3.
      destruct (add_edge_type _ c inst x Hwf1 Hc Hi) as [_ ->]. apply Hf1.
Qed.

Lemma split_on_nonempty sep s : split_on sep s ≠ [].
Proof.
  destruct s as [|c s]; [done|]. cbn. case_decide; [done|].
  by destruct (split_on sep s).
Qed.

Section ReaderSteps.

Variable strip : string → string.

Lemma connections_head m :
  ∃ out, connections strip m !! 0%nat = Some out ∧
         connections strip m = out :: drop 1 (connections strip m).
Proof.
  unfold connections. pose proof (split_on_nonempty "," (connections_str m)).
  destruct (split_on "," (connections_str m)) as [|p l]; [done|].
  cbn. by eexists.
Qed.

Lemma add_gate_effect G m :
  nx_wf G →
  ∃ G', add_gate strip G m = Some G' ∧ nx_wf G' ∧
    (∀ x, x ∈ nodes (topology G')
          ↔ x = instance_name m ∨ x ∈ connections strip m
            ∨ x ∈ nodes (topology G)) ∧
    (∀ u v, (u, v) ∈ edges (topology G')
            ↔ (u, v) ∈ edges (topology G)
              ∨ (u = instance_name m ∧ connections strip m !! 0%nat = Some v)
              ∨ (v = instance_name m ∧ u ∈ drop 1 (connections strip m))) ∧
    (∀ x, node_type G' x
          = if decide (x = instance_name m) then Some "gate"%string
            else if decide (x ∈ connections strip m ∧ x ∉ nodes (topology G))
                 then Some "wire"%string
                 else node_type G x) ∧
    (∀ x, node_func G' x
          = if decide (x = instance_name m) then Some (gate_type m)
            else node_func G x).
Proof.
  intros Hwf. unfold add_gate.
  destruct (connections_head m) as (out & Hout & Hconns). rewrite Hout. cbn.
  set (inst := instance_name m).
  set (G1 := add_node G inst _).
  assert (nx_wf G1) as Hwf1 by by apply add_node_wf.
  assert (∀ x, x ∈ nodes (topology G1) ↔ x = inst ∨ x ∈ nodes (topology G))
    as Hn1 by (intros x; by apply add_node_nodes).
  destruct (declare_wire_effect G1 out Hwf1) as (Hwf2 & Hn2 & He2 & Ht2 & Hf2).
  set (G2 := declare_wire G1 out) in *.
  assert (inst ∈ nodes (topology G2)) as Hi2 by (apply Hn2, or_intror, Hn1; auto).
  assert (out ∈ nodes (topology G2)) as Ho2 by (apply Hn2; auto).
  destruct (add_edge_effect G2 inst out Hwf2 Hi2 Ho2) as (Hwf3 & Hn3 & Hd3 & He3).
  set (G3 := add_edge G2 inst out) in *.
  assert (inst ∈ nodes (topology G3)) as Hi3 by by rewrite Hn3.
  destruct (connect_inputs_effect inst (drop 1 (connections strip m)) G3 Hwf3 Hi3)
    as (Hwf4 & Hn4 & He4 & Ht4 & Hf4).
  cbn zeta in *. eexists. split; [done|]. split; [done|].
  split; [|split; [|split]].
  - intros x. rewrite Hn4, Hn3, Hn2, Hn1. rewrite Hconns at 2.
    rewrite elem_of_cons. tauto.
  - intros u v. rewrite He4, He3, He2. unfold G1. rewrite add_node_edges.
    split.
    + intros [[[= -> ->]|?]|(c & ? & [= -> ->])]; auto.
    + intros [?|[[-> [= ->]]|[-> ?]]]; [by left; right|by left; left|].
      right. by exists u.
  - intros x. rewrite Ht4, Hn3.
    destruct (add_edge_type G2 inst out x Hwf2 Hi2 Ho2) as [Ht3 _].
    fold G3 in Ht3. rewrite Ht3, Ht2.
    assert (node_type G1 x
            = if decide (x = inst) then Some "gate"%string else node_type G x)
      as -> by apply add_gate_node_type.
    specialize (Hn1 x). specialize (Hn2 x).
    assert (x ∈ connections strip m
            ↔ x = out ∨ x ∈ drop 1 (connections strip m)) as Hc.
    { rewrite Hconns at 1. by rewrite elem_of_cons. }
    clear -Hn1 Hn2 Hc.
    repeat case_decide; try done; exfalso; naive_solver.
  - intros x. rewrite Hf4.
    destruct (add_edge_type G2 inst out x Hwf2 Hi2 Ho2) as [_ Hf3].
    fold G3 in Hf3. rewrite Hf3, Hf2. apply add_gate_node_func.
Qed.

End ReaderSteps.

Lemma new_graph_wf : nx_wf new_graph.
Proof.
  split; [split; [|split]|]; cbn.
  - apply NoDup_nil_2.
  - apply NoDup_nil_2.
  - by intros u v []%elem_of_nil.
  - intros n. rewrite lookup_empty. split; [by intros []%elem_of_nil|].
    by intros [].
Qed.

Lemma last_instance_cons m gs x :
  last_instance (m :: gs) x
  = match last_instance gs x with
    | Some m' => Some m'
    | None => if decide (instance_name m = x) then Some m else None
    end.
Proof.
  unfold last_instance. rewrite filter_cons.
  case_decide; [|by destruct (last _)]. by rewrite last_cons.
Qed.

Lemma foldl_concat_fmap {A B C} (f : B → A → B) (g : C → list A) (b : B)
    (xs : list C) :
  foldl (λ b x, foldl f b (g x)) b xs = foldl f b (concat (g <$> xs)).
Proof.
  revert b. induction xs as [|x xs IH]; intros b; [done|].
  cbn. by rewrite IH, foldl_app.
Qed.

Section ReaderResult.

Variable strip : string → string.

Lemma add_gates_effect gs G0 :
  nx_wf G0 →
  ∃ G, foldM (add_gate strip) G0 gs = Some G ∧ nx_wf G ∧
    (∀ x, x ∈ nodes (topology G)
          ↔ x ∈ nodes (topology G0) ∨ x ∈ instances gs
            ∨ x ∈ all_connections strip gs) ∧
    (∀ u v, (u, v) ∈ edges (topology G)
            ↔ (u, v) ∈ edges (topology G0)
              ∨ ∃ m, m ∈ gs ∧
                  ((u = instance_name m
                    ∧ connections strip m !! 0%nat = Some v)
                   ∨ (v = instance_name m
                      ∧ u ∈ drop 1 (connections strip m)))) ∧
    (∀ x, node_type G x
          = if decide (x ∈ instances gs) then Some "gate"%string
            else if decide (x ∈ nodes (topology G0)) then node_type G0 x
            else if decide (x ∈ all_connections strip gs)
                 then Some "wire"%string
                 else None) ∧
    (∀ x, node_func G x
          = match last_instance gs x with
            | Some m => Some (gate_type m)
            | None => node_func G0 x
            end).
Proof.
  revert G0. induction gs as [|m gs IH]; intros G0 Hwf; cbn [foldM].
  - exists G0. split; [done|]. split; [done|].
    split; [|split; [|split; [|done]]].
    + intros x. split; [auto|]. by intros [?|[[]%elem_of_nil|[]%elem_of_nil]].
    + intros u v. split; [auto|]. by intros [?|(m & []%elem_of_nil & _)].
    + intros x. rewrite decide_False by by intros []%elem_of_nil.
      case_decide as Hx; [done|].
      rewrite decide_False by by intros []%elem_of_nil.
      apply node_type_None. destruct Hwf as [_ Hkeys].
      apply eq_None_not_Some. by rewrite <- Hkeys.
  - destruct (add_gate_effect strip G0 m Hwf)
      as (G1 & -> & Hwf1 & Hn1 & He1 & Ht1 & Hf1).
    destruct (IH G1 Hwf1) as (G & HG & HwfG & Hn & He & Ht & Hf).
    exists G. split; [done|]. split; [done|].
    assert (∀ x, x ∈ instances (m :: gs)
                 ↔ x = instance_name m ∨ x ∈ instances gs) as Hinst
      by (intros x; unfold instances; by rewrite fmap_cons, elem_of_cons).
    assert (∀ x, x ∈ all_connections strip (m :: gs)
                 ↔ x ∈ connections strip m ∨ x ∈ all_connections strip gs)
      as Hconn
      by (intros x; unfold all_connections;
          by rewrite fmap_cons, concat_cons, elem_of_app).
    split; [|split; [|split]].
    + intros x. rewrite Hn, Hn1, Hinst, Hconn. tauto.
    + intros u v. rewrite He, He1. split.
      * intros [[?|Hm]|(m' & ? & ?)]; [by left| |].
        -- right. exists m. split; [left|done].
        -- right. exists m'. split; [by right|done].
      * intros [?|(m' & [->|?]%elem_of_cons & Hm)]; [by left; left|by left; right|].
        right. by exists m'.
    + intros x. rewrite Ht, Ht1.
      specialize (Hn1 x). specialize (Hinst x). specialize (Hconn x).
      clear -Hn1 Hinst Hconn.
      repeat case_decide; try done; exfalso; tauto.
    + intros x. rewrite Hf, Hf1, last_instance_cons.
      destruct (last_instance gs x); [done|].
      repeat case_decide; congruence.
Qed.

Lemma declarations_effect input_groups output_groups wire_groups :
  let G0 :=
    foldl (λ G group, foldl declare_wire G (signal_names strip group))
      (foldl (λ G group, foldl declare_output G (signal_names strip group))
         (foldl (λ G group, foldl declare_input G (signal_names strip group))
            new_graph input_groups)
         output_groups)
      wire_groups in
  nx_wf G0 ∧
  (∀ x, x ∈ nodes (topology G0)
        ↔ x ∈ declared strip input_groups ∨ x ∈ declared strip output_groups
          ∨ x ∈ declared strip wire_groups) ∧
  edges (topology G0) = [] ∧
  (∀ x, x ∈ nodes (topology G0) →
        node_type G0 x
        = Some (declared_type strip input_groups output_groups x)) ∧
  (∀ x, node_func G0 x = None).
Proof.
  cbn zeta. rewrite !foldl_concat_fmap.
  fold (declared strip input_groups). fold (declared strip output_groups).
  fold (declared strip wire_groups).
  destruct (foldl_retypes "PI" declare_input (declared strip input_groups)
              new_graph declare_input_retypes new_graph_wf)
    as (Hwf1 & Hn1 & He1 & Ht1 & Hf1).
  set (G1 := foldl declare_input new_graph _) in *.
  destruct (foldl_retypes "PO" declare_output (declared strip output_groups)
              G1 declare_output_retypes Hwf1)
    as (Hwf2 & Hn2 & He2 & Ht2 & Hf2).
  set (G2 := foldl declare_output G1 _) in *.
  destruct (foldl_declare_wire (declared strip wire_groups) G2 Hwf2)
    as (Hwf3 & Hn3 & He3 & Ht3 & Hf3).
  set (G3 := foldl declare_wire G2 _) in *.
  split; [done|]. split; [|split; [|split]].
  - intros x. rewrite Hn3, Hn2, Hn1. cbn. rewrite elem_of_nil. tauto.
  - by rewrite He3, He2, He1.
  - intros x Hx. apply Hn3 in Hx. rewrite Ht3, Ht2, Ht1.
    unfold declared_type. specialize (Hn2 x). specialize (Hn1 x).
    cbn in Hn1. rewrite elem_of_nil in Hn1.
    clear -Hx Hn2 Hn1.
    repeat case_decide; try done; exfalso; tauto.
  - intros x. by rewrite Hf3, Hf2, Hf1.
Qed.

(** Everything the reader's result is determined by. *)
Lemma create_graph_effect input_groups output_groups wire_groups gates :
  ∃ G, create_graph_from_verilog strip input_groups output_groups wire_groups
         gates = Some G ∧
    nx_wf G ∧
    (∀ x, x ∈ nodes (topology G)
          ↔ x ∈ declared strip input_groups
            ∨ x ∈ declared strip output_groups
            ∨ x ∈ declared strip wire_groups
            ∨ x ∈ instances gates ∨ x ∈ all_connections strip gates) ∧
    (∀ u v, (u, v) ∈ edges (topology G)
            ↔ ∃ m, m ∈ gates ∧
                ((u = instance_name m
                  ∧ connections strip m !! 0%nat = Some v)
                 ∨ (v = instance_name m
                    ∧ u ∈ drop 1 (connections strip m)))) ∧
    (∀ x, x ∈ nodes (topology G) →
          node_type G x
          = Some (if decide (x ∈ instances gates) then "gate"%string
                  else declared_type strip input_groups output_groups x)) ∧
    (∀ x, node_func G x = gate_type <$> last_instance gates x).
Proof.
  unfold create_graph_from_verilog.
  destruct (declarations_effect input_groups output_groups wire_groups)
    as (Hwf0 & Hn0 & He0 & Ht0 & Hf0).
  cbn zeta in *. set (G0 := foldl _ _ wire_groups) in *.
  destruct (add_gates_effect gates G0 Hwf0)
    as (G & HG & Hwf & Hn & He & Ht & Hf).
  exists G. split; [done|]. split; [done|]. split; [|split; [|split]].
  - intros x. rewrite Hn, Hn0. tauto.
  - intros u v. rewrite He, He0, elem_of_nil. tauto.
  - intros x Hx. rewrite Ht. apply Hn in Hx. specialize (Ht0 x).
    unfold declared_type in *. specialize (Hn0 x).
    repeat case_decide; try done; try (by apply Ht0); exfalso; tauto.
  - intros x. rewrite Hf, Hf0. by destruct (last_instance gates x).
Qed.

End ReaderResult.

Lemma last_instance_is_Some gs x :
  is_Some (last_instance gs x) ↔ x ∈ instances gs.
Proof.
  unfold last_instance, instances. rewrite last_is_Some, list_elem_of_fmap.
  split.
  - intros Hne. destruct (filter _ gs) as [|m l] eqn:Hf; [done|].
    assert (m ∈ filter (λ m, instance_name m = x) gs) as Hm
      by (rewrite Hf; left).
    apply list_elem_of_filter in Hm as [Hm ?]. by exists m.
  - intros (m & -> & Hm) Hnil.
    assert (m ∈ filter (λ m', instance_name m' = instance_name m) gs) as Hin
      by by apply list_elem_of_filter.
    rewrite Hnil in Hin. by apply elem_of_nil in Hin.
Qed.

Section ReaderTheorems.

Variable strip : string → string.

(** X20. The reader never raises and returns a well-formed graph: the first
    connection of a gate always exists, no node and no edge is listed twice,
    every edge joins two nodes, and the nodes are the keys of the attribute
    dictionaries. *)
Theorem create_graph_well_formed input_groups output_groups wire_groups
    gates :
  ∃ G, create_graph_from_verilog strip input_groups output_groups
         wire_groups gates = Some G ∧
       wf_graph (topology G) ∧
       ∀ n, n ∈ nodes (topology G) ↔ is_Some (node_data G !! n).
Proof.
  destruct (create_graph_effect strip input_groups output_groups wire_groups
              gates) as (G & HG & [Hwf Hkeys] & _).
  by exists G.
Qed.

(** X21. The nodes are the declared signals, the gate instance names and the
    connection names of the gates, and nothing else. *)
Theorem create_graph_nodes input_groups output_groups wire_groups gates :
  ∃ G, create_graph_from_verilog strip input_groups output_groups
         wire_groups gates = Some G ∧
       ∀ x, x ∈ nodes (topology G)
            ↔ x ∈ declared strip input_groups
              ∨ x ∈ declared strip output_groups
              ∨ x ∈ declared strip wire_groups
              ∨ x ∈ instances gates ∨ x ∈ all_connections strip gates.
Proof.
  destruct (create_graph_effect strip input_groups output_groups wire_groups
              gates) as (G & HG & _ & Hn & _).
  by exists G.
Qed.

(** X22. The edges are those of the gates: from each gate instance to its first
    connection, and from each further connection to the gate instance. *)
Theorem create_graph_edges input_groups output_groups wire_groups gates :
  ∃ G, create_graph_from_verilog strip input_groups output_groups
         wire_groups gates = Some G ∧
       ∀ u v, (u, v) ∈ edges (topology G)
              ↔ ∃ m, m ∈ gates ∧
                  ((u = instance_name m
                    ∧ connections strip m !! 0%nat = Some v)
                   ∨ (v = instance_name m
                      ∧ u ∈ drop 1 (connections strip m))).
Proof.
  destruct (create_graph_effect strip input_groups output_groups wire_groups
              gates) as (G & HG & _ & _ & He & _).
  by exists G.
Qed.

(** X23. Every node carries a type, by precedence: a gate instance name is a
    gate, otherwise an output is a PO, otherwise an input is a PI, and every
    other node is a wire. *)
Theorem create_graph_node_types input_groups output_groups wire_groups
    gates :
  ∃ G, create_graph_from_verilog strip input_groups output_groups
         wire_groups gates = Some G ∧
       ∀ x, x ∈ nodes (topology G) →
            node_type G x
            = Some (if decide (x ∈ instances gates) then "gate"%string
                    else if decide (x ∈ declared strip output_groups)
                         then "PO"%string
                    else if decide (x ∈ declared strip input_groups)
                         then "PI"%string
                    else "wire"%string).
Proof.
  destruct (create_graph_effect strip input_groups output_groups wire_groups
              gates) as (G & HG & _ & _ & _ & Ht & _).
  by exists G.
Qed.

(** X24. A node has a [func] attribute exactly when its type is gate, and the
    attribute is the gate type of the last gate with that instance name. *)
Theorem create_graph_node_func input_groups output_groups wire_groups gates :
  ∃ G, create_graph_from_verilog strip input_groups output_groups
         wire_groups gates = Some G ∧
       (∀ x, node_func G x = gate_type <$> last_instance gates x) ∧
       (∀ x, node_type G x = Some "gate"%string ↔ is_Some (node_func G x)).
Proof.
  destruct (create_graph_effect strip input_groups output_groups wire_groups
              gates) as (G & HG & [_ Hkeys] & Hn & _ & Ht & Hf).
  exists G. split; [done|]. split; [done|].
  intros x. rewrite Hf, fmap_is_Some, last_instance_is_Some. split.
  - intros Hx. assert (x ∈ nodes (topology G)) as Hin.
    { apply Hkeys. unfold node_type in Hx.
      by destruct (node_data G !! x). }
    rewrite (Ht x Hin) in Hx. unfold declared_type in Hx.
    by repeat case_decide.
  - intros Hx. rewrite Ht by (apply Hn; tauto). by rewrite decide_True.
Qed.

(** X25. No edge joins two plain signals: one end of every edge is a gate. *)
Theorem create_graph_edges_touch_gate input_groups output_groups wire_groups
    gates :
  ∃ G, create_graph_from_verilog strip input_groups output_groups
         wire_groups gates = Some G ∧
       ∀ u v, (u, v) ∈ edges (topology G) →
              node_type G u = Some "gate"%string
              ∨ node_type G v = Some "gate"%string.
Proof.
  destruct (create_graph_effect strip input_groups output_groups wire_groups
              gates) as (G & HG & _ & Hn & He & Ht & _).
  exists G. split; [done|].
  assert (∀ m, m ∈ gates →
               node_type G (instance_name m) = Some "gate"%string) as Hgate.
  { intros m Hm.
    assert (instance_name m ∈ instances gates) as Hin
      by (apply list_elem_of_fmap; by exists m).
    rewrite Ht by (apply Hn; tauto). by rewrite decide_True. }
  intros u v (m & Hm & [[-> _]|[-> _]])%He; [left|right]; by apply Hgate.
Qed.

(** X26. A node has an edge to itself exactly when a gate lists its own instance
    name among its connections. *)
Theorem create_graph_self_loop input_groups output_groups wire_groups gates :
  ∃ G, create_graph_from_verilog strip input_groups output_groups
         wire_groups gates = Some G ∧
       ∀ n, (n, n) ∈ edges (topology G)
            ↔ ∃ m, m ∈ gates ∧ instance_name m = n
                   ∧ n ∈ connections strip m.
Proof.
  destruct (create_graph_effect strip input_groups output_groups wire_groups
              gates) as (G & HG & _ & _ & He & _).
  exists G. split; [done|]. intros n. rewrite He.
  split; intros (m & Hm & H); exists m; (split; [done|]);
    destruct (connections_head strip m) as (out & Hout & Hconn).
  - rewrite Hconn.
    destruct H as [[-> H]|[-> H]]; (split; [done|]).
    + rewrite Hout in H. injection H as ->. left.
    + by right.
  - destruct H as [<- H]. rewrite Hconn in H.
    apply elem_of_cons in H as [->|H]; [left|right]; by rewrite ?Hout.
Qed.

End ReaderTheorems.

(** ** The reader followed by the partitioner *)

Section ReadAndPartition.

Context `{!SetIter node} `{!SetIter nat} `{!SetIter (nat * nat)}.

Variable strip : string → string.
Variable fit_predict : DiGraph → nat → option (list nat).
Variable kernighan_lin_bisection : DiGraph → Z → gset node * gset node.

Hypothesis kernighan_lin_bipartition : ∀ sg max_iter,
  NoDup (nodes sg) →
  (kernighan_lin_bisection sg max_iter).1
    ∪ (kernighan_lin_bisection sg max_iter).2 = list_to_set (nodes sg) ∧
  (kernighan_lin_bisection sg max_iter).1
    ## (kernighan_lin_bisection sg max_iter).2.

Hypothesis fit_predict_labels : ∀ g k,
  wf_graph g → (2 ≤ k < number_of_nodes g)%nat →
  ∃ labels, fit_predict g k = Some labels ∧
            length labels = number_of_nodes g ∧
            Forall (λ l, (l < k)%nat) labels.

(** X27. The graph the reader builds is one the partitioner accepts: for a
    target size other than 0 and 1 every signal and every gate of the
    netlist ends up in exactly one partition, and nothing else does. *)
Theorem netlist_is_partitioned input_groups output_groups wire_groups gates
    target_partition_size kl_max_iter io_balance_alpha :
  target_partition_size ≠ 0 → target_partition_size ≠ 1 →
  ∃ G ps,
    create_graph_from_verilog strip input_groups output_groups wire_groups
      gates = Some G ∧
    hybrid_partitioner fit_predict kernighan_lin_bisection (topology G)
      target_partition_size kl_max_iter io_balance_alpha = Some ps ∧
    pairwise_disjoint ps ∧
    ∀ x, x ∈ ⋃ ps
         ↔ x ∈ declared strip input_groups
           ∨ x ∈ declared strip output_groups
           ∨ x ∈ declared strip wire_groups
           ∨ x ∈ instances gates ∨ x ∈ all_connections strip gates.
Proof using fit_predict_labels kernighan_lin_bipartition.
  intros Ht Ht1.
  destruct (create_graph_effect strip input_groups output_groups wire_groups
              gates) as (G & HG & [Hwf _] & Hn & _).
  exists G.
  destruct (nodes (topology G)) as [|x0 l] eqn:Hnodes.
  - exists []. split; [done|]. split.
    { unfold hybrid_partitioner, number_of_nodes. by rewrite Hnodes. }
    split.
    { intros i j p q _ Hp. by rewrite lookup_nil in Hp. }
    intros x. rewrite <- Hn. cbn. by rewrite elem_of_empty, elem_of_nil.
  - destruct (hybrid_partitioner_returns fit_predict
                kernighan_lin_bisection kernighan_lin_bipartition
                fit_predict_labels (topology G) target_partition_size
                kl_max_iter io_balance_alpha) as (ps & Hps & Hd & Hun);
      [done|by rewrite Hnodes|done..|].
    exists ps. split; [done|]. split; [done|]. split; [done|].
    intros x. by rewrite Hun, elem_of_list_to_set, Hnodes, Hn.
Qed.

End ReadAndPartition.

(** * The further properties on explicit inputs *)

(** The two halves of a graph without edges. *)
Lemma unconnected_parts_cut :
  @_calculate_cut_size iter_ascending unconnected_graph
    [{[ "a"; "b" ]}; {[ "c"; "d" ]}]%string = 0.
Proof. vm_compute. reflexivity. Qed.

Lemma get_io_empty_and_full_witness :
  @_get_io_for_partition iter_ascending chain_graph ∅ = Some (0, 0) ∧
  @_get_io_for_partition iter_ascending chain_graph
    (list_to_set (nodes chain_graph)) = Some (0, 0).
Proof.
  apply (@get_io_empty_and_full iter_ascending chain_graph).
  exact chain_graph_wf.
Defined.

Lemma calculate_cut_size_counts_crossing_edges_witness :
  @_calculate_cut_size iter_ascending chain_graph chain_parts
  = Z.of_nat (length (filter
      (λ e, ¬ (same_partition chain_parts e
               ∨ (unassigned chain_parts e.1 ∧ unassigned chain_parts e.2)))
      (edges chain_graph))).
Proof.
  apply (@calculate_cut_size_counts_crossing_edges iter_ascending
           chain_graph chain_parts).
  exact chain_parts_disjoint.
Defined.

Lemma io_balance_zero_cut_witness :
  balance_with iter_ascending unconnected_graph one_tenth 4
    [{[ "a"; "b" ]}; {[ "c"; "d" ]}]%string
  = Some (mkIORun
            (mkIOState [{[ "a"; "b" ]}; {[ "c"; "d" ]}]%string
               (@index_partitions iter_ascending
                  [{[ "a"; "b" ]}; {[ "c"; "d" ]}]%string))
            1 [] true).
Proof.
  apply (@io_balance_zero_cut iter_ascending iter_nat unconnected_graph
           one_tenth 3 [{[ "a"; "b" ]}; {[ "c"; "d" ]}]%string).
  exact unconnected_parts_cut.
Defined.

Lemma cut_zero_iff_no_adjacent_pair_witness :
  @_calculate_cut_size iter_ascending chain_graph chain_parts = 0
  ↔ @_find_adjacent_partitions iter_ascending iter_pair chain_graph
      chain_parts = [].
Proof.
  apply (@cut_zero_iff_no_adjacent_pair iter_ascending iter_pair
           chain_graph chain_parts).
  - exact chain_graph_wf.
  - exact chain_parts_disjoint.
  - vm_compute. reflexivity.
Defined.

Lemma io_pass_moves_best_candidate_witness :
  let st := mkIOState chain_parts
              (@index_partitions iter_ascending chain_parts) in
  match @io_pass iter_ascending iter_nat chain_graph one_tenth st with
  | Some (Some st') =>
      ∃ n c t q pc pt,
        candidate chain_graph st n c t ∧
        @total_gain iter_ascending iter_nat chain_graph one_tenth st n c t
        = Some q ∧ float_gt q float_zero = true ∧
        (∀ n' c' t', candidate chain_graph st n' c' t' →
           ∃ q', @total_gain iter_ascending iter_nat chain_graph one_tenth
                   st n' c' t' = Some q' ∧ float_gt q' q = false) ∧
        partitions st !! c = Some pc ∧ partitions st !! t = Some pt ∧
        partitions st'
        = <[t := pt ∪ {[ n ]}]> (<[c := pc ∖ {[ n ]}]> (partitions st)) ∧
        node_to_partition st' = <[n := t]> (node_to_partition st)
  | _ => False
  end.
Proof.
  intros st.
  destruct (@io_pass iter_ascending iter_nat chain_graph one_tenth st)
    as [[st'|]|] eqn:Hpass;
    [|vm_compute in Hpass; discriminate..].
  exact (@io_pass_moves_best_candidate iter_ascending iter_nat chain_graph
           one_tenth st st' Hpass).
Defined.

Lemma io_balance_passes_and_moves_witness :
  match balance_with iter_ascending chain_graph one_tenth 6 chain_parts with
  | Some run =>
      passes run
      = (length (moves run) + if stopped_by_break run then 1 else 0)%nat ∧
      (stopped_by_break run = false → length (moves run) = 6%nat)
  | None => False
  end.
Proof.
  destruct (balance_with iter_ascending chain_graph one_tenth 6 chain_parts)
    as [run|] eqn:Hrun; [|vm_compute in Hrun; discriminate].
  exact (@io_balance_passes_and_moves iter_ascending iter_nat chain_graph
           one_tenth 6 _ run Hrun).
Defined.

Lemma io_balance_alpha_zero_move_bound_witness :
  match balance_with iter_ascending chain_graph float_zero 6 chain_parts with
  | Some run =>
      Z.of_nat (length (moves run))
      ≤ @_calculate_cut_size iter_ascending chain_graph chain_parts
  | None => False
  end.
Proof.
  destruct (balance_with iter_ascending chain_graph float_zero 6 chain_parts)
    as [run|] eqn:Hrun; [|vm_compute in Hrun; discriminate].
  apply (@io_balance_alpha_zero_move_bound iter_ascending iter_nat
           chain_graph float_zero 6 chain_parts run).
  - exact chain_parts_disjoint.
  - reflexivity.
  - exact Hrun.
Defined.

Lemma io_balance_keeps_nodes_witness :
  match balance_with iter_ascending chain_graph one_tenth 6 chain_parts with
  | Some run =>
      length (partitions (final run)) = length chain_parts ∧
      ⋃ partitions (final run) = ⋃ chain_parts ∧
      total_size (partitions (final run)) = total_size chain_parts
  | None => False
  end.
Proof.
  destruct (balance_with iter_ascending chain_graph one_tenth 6 chain_parts)
    as [run|] eqn:Hrun; [|vm_compute in Hrun; discriminate].
  apply (@io_balance_keeps_nodes iter_ascending iter_nat chain_graph
           one_tenth 6 chain_parts run).
  - exact chain_parts_disjoint.
  - exact Hrun.
Defined.

Lemma apply_move_cut_gain_exact_witness :
  let st := mkIOState chain_parts
              (@index_partitions iter_ascending chain_parts) in
  match apply_move st (mkMove "u" 1 float_zero) with
  | Some st' =>
      @_calculate_cut_size iter_ascending chain_graph (partitions st')
      = @_calculate_cut_size iter_ascending chain_graph (partitions st)
        - cut_gain chain_graph (node_to_partition st) "u" 0 1
  | None => False
  end.
Proof.
  intros st.
  destruct (apply_move st (mkMove "u" 1 float_zero)) as [st'|] eqn:Hmove;
    [|vm_compute in Hmove; discriminate].
  apply (@apply_move_cut_gain_exact iter_ascending chain_graph st "u" 0 1
           float_zero st').
  - apply index_partitions_consistent. exact chain_parts_disjoint.
  - repeat split; compute_done.
  - compute_done.
  - exact Hmove.
Defined.

Lemma apply_move_raises_iff_witness :
  let st := mkIOState chain_parts
              (@index_partitions iter_ascending chain_parts) in
  apply_move st (mkMove "u" 2 float_zero) = None
  ↔ node_to_partition st !! "u"%string = None
    ∨ (length (partitions st) ≤ 2)%nat.
Proof.
  intros st. apply (apply_move_raises_iff st (mkMove "u" 2 float_zero)).
  apply index_partitions_consistent. exact chain_parts_disjoint.
Defined.

Lemma assign_labels_places_by_label_witness :
  let ps := [{[ "a"; "c" ]}; {[ "b" ]}]%string : list (gset node) in
  length ps = 2%nat ∧
  ∀ x l, (∃ p, ps !! l = Some p ∧ x ∈ p)
         ↔ (∃ i, ["a"; "b"; "c"]%string !! i = Some x
                 ∧ [0; 1; 0]%nat !! i = Some l).
Proof.
  intros ps.
  apply (assign_labels_places_by_label 2 ["a"; "b"; "c"]%string
           [0; 1; 0]%nat ps).
  vm_compute. reflexivity.
Defined.

Lemma hybrid_partitioner_negative_target_witness :
  partition_with iter_ascending chain_graph (-3) 10 one_tenth
  = Some [list_to_set (nodes chain_graph)].
Proof.
  apply (@hybrid_partitioner_negative_target iter_ascending iter_nat
           iter_pair block_labels halves chain_graph (-3) 10 one_tenth).
  - discriminate.
  - lia.
Defined.

Lemma hybrid_partitioner_raises_iff_witness :
  partition_with iter_ascending chain_graph 1 10 one_tenth = None
  ↔ nodes chain_graph ≠ []
    ∧ (1 = 0 ∨ (1 = 1 ∧ (2 ≤ number_of_nodes chain_graph)%nat)).
Proof.
  apply (@hybrid_partitioner_raises_iff iter_ascending iter_nat iter_pair
           block_labels halves halves_spec block_labels_spec
           block_labels_rejects chain_graph 1 10 one_tenth).
  exact chain_graph_wf.
Defined.

Lemma hybrid_partitioner_raises_at_target_one_witness :
  partition_with iter_ascending chain_graph 1 10 one_tenth = None.
Proof.
  apply (@hybrid_partitioner_raises_at_target_one iter_ascending iter_nat
           iter_pair block_labels halves block_labels_rejects
           chain_graph 10 one_tenth).
  cbn. lia.
Defined.

Lemma hybrid_partitioner_at_most_k_witness :
  match partition_with iter_ascending chain_graph 3 10 one_tenth with
  | Some ps =>
      Z.of_nat (length ps)
      ≤ ceil_div (Z.of_nat (number_of_nodes chain_graph)) 3
  | None => False
  end.
Proof.
  destruct (partition_with iter_ascending chain_graph 3 10 one_tenth)
    as [ps|] eqn:Hps; [|vm_compute in Hps; discriminate].
  apply (@hybrid_partitioner_at_most_k iter_ascending iter_nat iter_pair
           block_labels halves chain_graph 3 10 one_tenth ps).
  - discriminate.
  - lia.
  - exact Hps.
Defined.

Lemma hybrid_partitioner_sizes_add_up_witness :
  ∃ ps, partition_with iter_ascending chain_graph 3 10 one_tenth = Some ps ∧
        (1 ≤ length ps)%nat ∧ total_size ps = number_of_nodes chain_graph.
Proof.
  apply (@hybrid_partitioner_sizes_add_up iter_ascending iter_nat iter_pair
           block_labels halves halves_spec block_labels_spec
           chain_graph 3 10 one_tenth).
  - exact chain_graph_wf.
  - discriminate.
  - lia.
  - lia.
Defined.

Lemma netlist_is_partitioned_witness :
  ∃ G ps,
    half_adder = Some G ∧
    partition_with iter_ascending (topology G) 3 10 one_tenth = Some ps ∧
    pairwise_disjoint ps ∧
    ∀ x, x ∈ ⋃ ps
         ↔ x ∈ declared strip_ascii ["a, b"]%string
           ∨ x ∈ declared strip_ascii ["s, c"]%string
           ∨ x ∈ declared strip_ascii ["w"]%string
           ∨ x ∈ instances half_adder_gates
           ∨ x ∈ all_connections strip_ascii half_adder_gates.
Proof.
  apply (@netlist_is_partitioned iter_ascending iter_nat iter_pair
           strip_ascii block_labels halves halves_spec block_labels_spec
           ["a, b"]%string ["s, c"]%string ["w"]%string half_adder_gates
           3 10 one_tenth).
  - lia.
  - lia.
Defined.
